(** * CoalescingQueue (src/core/queue.py): a per-key coalescing scheduler

    The queue runs on a single-threaded asyncio event loop.  A coroutine
    runs without interruption from one [await] that really suspends to the
    next one, so the program is modelled as a transition system whose
    steps are exactly those uninterrupted stretches of [enqueue] and
    [_run_worker].  Time is counted in clock ticks (milliseconds for the
    default configuration). *)

From stdpp Require Import gmap strings list fin_maps.
From Stdlib Require Import SpecFloat.

Set Default Proof Using "Type".

(** ** Data model *)

(** Constructor arguments of [CoalescingQueue.__init__]. *)
Record config := Config {
  debounce_window : nat;
  idle_timeout : nat;
  max_concurrent_keys : nat
}.

(** [CoalescingQueue()] with the defaults 0.8 s, 5.0 s and 20. *)
Definition default_config : config := Config 800 5000 20.

(** How [await job_factory()] ends.  [except Exception] catches the
    second case only: an exception that derives from [BaseException]
    but not from [Exception] (asyncio.CancelledError, SystemExit, ...)
    escapes the handler. *)
Inductive outcome :=
  | Returned
  | RaisedException (e : string)
  | RaisedBaseException (e : string).

(** Where the coroutine [_run_worker] is suspended.
    - [WaitingForSignal d]: in [asyncio.wait_for(state.signal.wait(),
      timeout=idle_timeout)], armed with deadline [d];
    - [TimedOut]: the timer of [wait_for] has fired.  The timer is a
      callback of the event loop of its own: it marks the wait as
      expired and schedules the task, which is resumed by a later
      callback and then receives [TimeoutError] whatever has become of
      the signal.  Other tasks run between the two callbacks;
    - [Debouncing t]: in [asyncio.sleep(debounce_window)] until [t];
    - [Admitting]: the signal is cleared and the task is acquiring
      [_key_semaphore];
    - [Running]: inside [await job_factory()], holding a slot;
    - [Exited]: the task is finished. *)
Inductive pc :=
  | WaitingForSignal (deadline : nat)
  | TimedOut
  | Debouncing (wake : nat)
  | Admitting
  | Running
  | Exited.

(** A [_WorkerState] object: the value of its [signal] event, and its
    [task], the coroutine [_run_worker(key, state, job_factory)] given
    by its two captured arguments and its program point.  A job factory
    is an opaque callable, named by a number. *)
Record _WorkerState := Worker {
  signal : bool;
  task_key : string;
  task_job_factory : nat;
  task_pc : pc
}.

(** What an outside observer can record of a run, newest entry first.
    Only [ObsLog] is written by the code itself. *)
Inductive obs :=
  | ObsEnqueue (k : string) (t : nat)             (* an enqueue call returned *)
  | ObsSpawn (k : string) (w : nat) (f : nat)     (* create_task(_run_worker(k, state, f)) *)
  | ObsStart (k : string) (w : nat) (f : nat) (t : nat) (* job_factory() invoked *)
  | ObsEnd (k : string) (w : nat) (o : outcome) (t : nat)
  | ObsLog (k : string) (e : string).             (* logger.exception(...) *)

(** The queue object together with the objects it refers to.  [_states]
    maps a key to a reference into [heap], where the [_WorkerState]
    objects live: a worker keeps its own object after the entry is gone
    from [_states]. *)
Record state := State {
  now : nat;
  _lock : bool;
  _states : gmap string nat;
  heap : list _WorkerState;
  _key_semaphore : nat;
  history : list obs
}.

Definition init (c : config) : state :=
  State 0 false ∅ [] (max_concurrent_keys c) [].

(** ** Operations *)

Definition set_signal (b : bool) (w : _WorkerState) : _WorkerState :=
  Worker b (task_key w) (task_job_factory w) (task_pc w).

Definition set_pc (p : pc) (w : _WorkerState) : _WorkerState :=
  Worker (signal w) (task_key w) (task_job_factory w) p.

(** [enqueue].  [async with self._lock] suspends the caller when the
    lock is held ([None]: the call cannot proceed now); otherwise the
    whole body runs without suspension.  The task made by [create_task]
    first runs after the caller has returned, by which time the signal
    is set; its entering the loop and arming [wait_for] is folded into
    its creation. *)
Definition enqueue (c : config) (key : string) (job_factory : nat)
    (s : state) : option state :=
  if _lock s then None
  else
    let '(w, reg, hp, hist) :=
      match _states s !! key with
      | Some w => (w, _states s, heap s, history s)
      | None =>
          let w := length (heap s) in
          (w, <[key := w]> (_states s),
           heap s ++ [Worker false key job_factory
                        (WaitingForSignal (now s + idle_timeout c))],
           ObsSpawn key w job_factory :: history s)
      end in
    Some (State (now s) false reg (alter (set_signal true) w hp)
            (_key_semaphore s) (ObsEnqueue key (now s) :: hist)).

(** The steps of one worker task. *)
Inductive wstep :=
  | Signalled      (* wait_for returns: the signal is set; sleep begins *)
  | TimerFired     (* the timer of wait_for fires *)
  | Exit           (* TimeoutError is delivered: break, finally *)
  | Debounced      (* sleep is over: state.signal.clear() *)
  | Acquired       (* the semaphore is acquired; job_factory() is called *)
  | JobDone (o : outcome).

(** [finally: async with self._lock: self._states.pop(key, None)]. *)
Definition cleanup (key : string) (reg : gmap string nat) : gmap string nat :=
  delete key reg.

(** [_run_worker], from one suspension to the next.  [None]: the step is
    not enabled in [s].
    - The timer of [wait_for] fires only when the deadline has come and
      the signal is not set.
    - After the job the loop goes back to [wait_for] on both branches of
      [if not state.signal.is_set()]; a signal set meanwhile is then
      observed at once.
    - [async with self._key_semaphore] releases the slot on every way
      out of the job.  An exception that [except Exception] does not
      catch leaves the loop through [finally], which pops the key.
    - Nothing suspends between [break] and the end of [finally]: the
      lock is free whenever a task is resumed. *)
Definition _run_worker (c : config) (w : nat) (st : wstep) (s : state)
    : option state :=
  match heap s !! w with
  | None => None
  | Some ws =>
    let upd ws' reg sem hist :=
      Some (State (now s) (_lock s) reg (<[w := ws']> (heap s)) sem hist) in
    match st, task_pc ws with
    | Signalled, WaitingForSignal _ =>
        if signal ws
        then upd (set_pc (Debouncing (now s + debounce_window c)) ws)
               (_states s) (_key_semaphore s) (history s)
        else None
    | TimerFired, WaitingForSignal d =>
        if negb (signal ws) && (d <=? now s)
        then upd (set_pc TimedOut ws) (_states s) (_key_semaphore s) (history s)
        else None
    | Exit, TimedOut =>
        if _lock s then None
        else upd (set_pc Exited ws) (cleanup (task_key ws) (_states s))
               (_key_semaphore s) (history s)
    | Debounced, Debouncing t =>
        if t <=? now s
        then upd (set_pc Admitting (set_signal false ws))
               (_states s) (_key_semaphore s) (history s)
        else None
    | Acquired, Admitting =>
        match _key_semaphore s with
        | 0 => None
        | S n =>
            upd (set_pc Running ws) (_states s) n
              (ObsStart (task_key ws) w (task_job_factory ws) (now s)
                 :: history s)
        end
    | JobDone o, Running =>
        let ended := ObsEnd (task_key ws) w o (now s) :: history s in
        let again := set_pc (WaitingForSignal (now s + idle_timeout c)) ws in
        match o with
        | Returned =>
            upd again (_states s) (S (_key_semaphore s)) ended
        | RaisedException e =>
            upd again (_states s) (S (_key_semaphore s))
              (ObsLog (task_key ws) e :: ended)
        | RaisedBaseException _ =>
            if _lock s then None
            else upd (set_pc Exited ws) (cleanup (task_key ws) (_states s))
                   (S (_key_semaphore s)) ended
        end
    | _, _ => None
    end
  end.

(** Events of the whole system: calls from outside, worker steps, and
    the passing of time. *)
Inductive event :=
  | EvEnqueue (key : string) (job_factory : nat)
  | EvWorker (w : nat) (st : wstep)
  | EvAdvance (dt : nat).

Definition step (c : config) (ev : event) (s : state) : option state :=
  match ev with
  | EvEnqueue k f => enqueue c k f s
  | EvWorker w st => _run_worker c w st s
  | EvAdvance dt =>
      Some (State (now s + dt) (_lock s) (_states s) (heap s)
              (_key_semaphore s) (history s))
  end.

Fixpoint run (c : config) (evs : list event) (s : state) : option state :=
  match evs with
  | [] => Some s
  | ev :: evs' =>
      match step c ev s with
      | Some s' => run c evs' s'
      | None => None
      end
  end.

Definition reachable (c : config) (s : state) : Prop :=
  ∃ evs, run c evs (init c) = Some s.

(** ** Promptness of the event loop

    Timed claims assume an event loop that is not held up: the clock
    moves on only while no worker has a step it can take at once
    (a set signal to observe, an expired timer, a free slot to take), and
    never past a timer that is still pending.  Jobs take any time. *)
Definition settled (sem : nat) (t : nat) (ws : _WorkerState) : bool :=
  match task_pc ws with
  | WaitingForSignal d => negb (signal ws) && (t <=? d)
  | TimedOut => false
  | Debouncing wake => t <=? wake
  | Admitting => sem =? 0
  | Running | Exited => true
  end.

Definition may_idle_until (t : nat) (s : state) : bool :=
  forallb (settled (_key_semaphore s) t) (heap s).

(** ** Measures on states and histories *)

Fixpoint count_if {A} (p : A → bool) (l : list A) : nat :=
  match l with
  | [] => 0
  | x :: l' => Nat.b2n (p x) + count_if p l'
  end.

Definition is_running (ws : _WorkerState) : bool :=
  match task_pc ws with Running => true | _ => false end.

Definition is_live (ws : _WorkerState) : bool :=
  match task_pc ws with Exited => false | _ => true end.

Definition has_key (k : string) (ws : _WorkerState) : bool :=
  bool_decide (task_key ws = k).

(** Job executions in the Running state: in all, and for one key. *)
Definition running_count (s : state) : nat := count_if is_running (heap s).

Definition running_for (k : string) (s : state) : nat :=
  count_if (λ ws, is_running ws && has_key k ws) (heap s).

Definition obs_key (o : obs) : string :=
  match o with
  | ObsEnqueue k _ | ObsSpawn k _ _ | ObsStart k _ _ _ | ObsEnd k _ _ _
  | ObsLog k _ => k
  end.

Definition is_start (k : string) (o : obs) : bool :=
  match o with ObsStart k' _ _ _ => bool_decide (k' = k) | _ => false end.

Definition is_end (k : string) (o : obs) : bool :=
  match o with ObsEnd k' _ _ _ => bool_decide (k' = k) | _ => false end.

Definition is_log (o : obs) : bool :=
  match o with ObsLog _ _ => true | _ => false end.

(** Job executions for [k] started, and finished, so far. *)
Definition starts (k : string) (s : state) : nat := count_if (is_start k) (history s).
Definition ends (k : string) (s : state) : nat := count_if (is_end k) (history s).

(** Reading a history from its oldest entry: [Some b] when the
    executions of [k] never overlap, that is every start of [k] comes
    when no execution of [k] is open and every end closes one; [b] tells
    whether one is open at the end.  [None] when they overlap. *)
Fixpoint serial (k : string) (h : list obs) : option bool :=
  match h with
  | [] => Some false
  | o :: h' =>
      match serial k h' with
      | None => None
      | Some open =>
          if is_start k o then (if open then None else Some true)
          else if is_end k o then (if open then Some false else None)
          else Some open
      end
  end.

(** Times at which [enqueue] for [K] returned, and at which executions
    of [K] started, oldest first. *)
Definition enqueue_times (K : string) (s : state) : list nat :=
  rev (omap (λ o, match o with
                  | ObsEnqueue k t => if bool_decide (k = K) then Some t else None
                  | _ => None
                  end) (history s)).

Definition start_times (K : string) (s : state) : list nat :=
  rev (omap (λ o, match o with
                  | ObsStart k _ _ t => if bool_decide (k = K) then Some t else None
                  | _ => None
                  end) (history s)).

(** The worker registered for a key, if any. *)
Definition worker_of (k : string) (s : state) : option _WorkerState :=
  _states s !! k ≫= λ w, heap s !! w.

(** Job executions a worker still owes when no further signal comes and
    no job fault kills it: one for a signal it will observe, one for a
    run it has claimed. A timed-out worker owes none whatever its signal. *)
Definition owed (ws : _WorkerState) : nat :=
  match task_pc ws with
  | WaitingForSignal _ => Nat.b2n (signal ws)
  | TimedOut => 0
  | Debouncing _ => 1
  | Admitting => 1 + Nat.b2n (signal ws)
  | Running => Nat.b2n (signal ws)
  | Exited => 0
  end.

Definition pending (k : string) (s : state) : nat :=
  match worker_of k s with Some ws => owed ws | None => 0 end.

(** The worker is in its cycle from signal to run. *)
Definition in_cycle (ws : _WorkerState) : bool :=
  match task_pc ws with
  | Debouncing _ | Admitting | Running => true
  | _ => false
  end.

(** The execution that is current when the worker is in [ws]: the one
    running, or the one the worker is about to start. *)
Definition current_run (K : string) (s : state) (ws : _WorkerState) : nat :=
  starts K s + (if is_running ws then 0 else 1).

(** Executions beyond the current one that a signal set in [ws] brings
    about: the flag is cleared at the end of the debounce pause. *)
Definition extra_runs (ws : _WorkerState) : nat :=
  match task_pc ws with Admitting | Running => 1 | _ => 0 end.

(** Steps the worker still takes before it exits when no further signal
    comes. *)
Definition dist (ws : _WorkerState) : nat :=
  match task_pc ws with
  | Exited => 0
  | TimedOut => 1
  | WaitingForSignal _ => if signal ws then 6 else 2
  | Debouncing _ => 5
  | Admitting => if signal ws then 8 else 4
  | Running => if signal ws then 7 else 3
  end.

Definition remaining (K : string) (s : state) : nat :=
  match worker_of K s with
  | None => 0
  | Some ws =>
      2 * dist ws +
      match task_pc ws, _key_semaphore s with Admitting, 0 => 1 | _, _ => 0 end
  end.

(** ** Guards on runs *)

(** [along c G evs s]: every event of the run [evs] from [s] satisfies
    [G] in the state in which it happens. *)
Fixpoint along (c : config) (G : event → state → bool) (evs : list event)
    (s : state) : bool :=
  match evs with
  | [] => true
  | ev :: evs' =>
      G ev s &&
      match step c ev s with
      | Some s' => along c G evs' s'
      | None => true
      end
  end.

(** No [enqueue] for key [k]. *)
Definition quiet (k : string) (ev : event) (s : state) : bool :=
  match ev with
  | EvEnqueue k' _ => negb (bool_decide (k' = k))
  | _ => true
  end.


(** The job of the worker registered for [k] does not end with an
    exception that escapes [except Exception]. *)
Definition no_fault (k : string) (ev : event) (s : state) : bool :=
  match ev with
  | EvWorker w (JobDone (RaisedBaseException _)) =>
      negb (bool_decide (_states s !! k = Some w))
  | _ => true
  end.

(** The clock moves only when the event loop has nothing to do. *)
Definition unhurried (ev : event) (s : state) : bool :=
  match ev with
  | EvAdvance dt => may_idle_until (now s + dt) s
  | _ => true
  end.

Definition both (G1 G2 : event → state → bool) (ev : event) (s : state) : bool :=
  G1 ev s && G2 ev s.

Definition calm (K : string) : event → state → bool :=
  both (quiet K) (no_fault K).

(** ** Invariants *)

(** Well-formed states: the invariant of the transition system. *)
Record wf (c : config) (s : state) : Prop := Wf {
  wf_lock : _lock s = false;
  wf_registered : ∀ k w, _states s !! k = Some w →
    ∃ ws, heap s !! w = Some ws ∧ task_key ws = k ∧ task_pc ws ≠ Exited;
  wf_live : ∀ w ws, heap s !! w = Some ws → task_pc ws ≠ Exited →
    _states s !! task_key ws = Some w;
  wf_slots : _key_semaphore s + running_count s = max_concurrent_keys c
}.

Definition names_worker (s : state) (o : obs) : Prop :=
  match o with
  | ObsStart k w f _ | ObsSpawn k w f =>
      ∃ ws, heap s !! w = Some ws ∧ task_key ws = k ∧ task_job_factory ws = f
  | _ => True
  end.

(** Every start and spawn entry carries the key and the factory of the
    worker object it names, and every worker object has its spawn entry. *)
Definition factory_inv (s : state) : Prop :=
  Forall (names_worker s) (history s) ∧
  ∀ w ws, heap s !! w = Some ws →
          ObsSpawn (task_key ws) w (task_job_factory ws) ∈ history s.

Definition doomed (ws : _WorkerState) : Prop :=
  task_pc ws = TimedOut ∨ task_pc ws = Exited.




(** ** Schedules used as concrete inputs *)

(** Two keys enqueued together; both jobs are running at the end. *)
Definition two_keys : list event :=
  [EvEnqueue "A" 1; EvEnqueue "B" 2;
   EvWorker 0 Signalled; EvWorker 1 Signalled; EvAdvance 800;
   EvWorker 0 Debounced; EvWorker 1 Debounced;
   EvWorker 0 Acquired; EvWorker 1 Acquired].

(** One key, one execution, up to the point where the job is running. *)
Definition one_running : list event :=
  [EvEnqueue "A" 7; EvWorker 0 Signalled; EvAdvance 800;
   EvWorker 0 Debounced; EvWorker 0 Acquired].

(** Two enqueues for one key with different factories, then the run. *)
Definition second_factory : list event :=
  [EvEnqueue "A" 7; EvEnqueue "A" 8; EvWorker 0 Signalled; EvAdvance 800;
   EvWorker 0 Debounced; EvWorker 0 Acquired].

(** A job that is cancelled: [CancelledError] is not an [Exception]. *)
Definition cancelled_job : list event :=
  one_running ++ [EvWorker 0 (JobDone (RaisedBaseException "CancelledError"))].

(** One execution of key A that takes 200 ticks, then silence until the
    timer of [wait_for] fires. *)
Definition idle_expired : list event :=
  one_running ++
  [EvAdvance 200; EvWorker 0 (JobDone Returned); EvAdvance 5000;
   EvWorker 0 TimerFired].

(** ... and an [enqueue] that arrives before the worker is resumed. *)
Definition lost_signal : list event :=
  idle_expired ++ [EvEnqueue "A" 8; EvWorker 0 Exit].


(** An [enqueue] while the job is running, then the rest of the
    worker's life: the run ends, one more follows, the worker idles out. *)
Definition trailing_tail : list event :=
  [EvAdvance 200; EvWorker 0 (JobDone Returned); EvWorker 0 Signalled;
   EvAdvance 800; EvWorker 0 Debounced; EvWorker 0 Acquired;
   EvAdvance 200; EvWorker 0 (JobDone Returned);
   EvAdvance 5000; EvWorker 0 TimerFired; EvWorker 0 Exit].

(** An [enqueue] in the middle of the debounce pause is absorbed. *)
Definition absorbed : list event :=
  [EvEnqueue "A" 7; EvWorker 0 Signalled; EvAdvance 400; EvEnqueue "A" 8;
   EvAdvance 400; EvWorker 0 Debounced; EvWorker 0 Acquired;
   EvWorker 0 (JobDone Returned); EvAdvance 5000; EvWorker 0 TimerFired;
   EvWorker 0 Exit].

(** An [enqueue] while the job is running; the job is then cancelled. *)
Definition cancelled_while_signalled : list event :=
  one_running ++
  [EvAdvance 100; EvEnqueue "A" 8;
   EvWorker 0 (JobDone (RaisedBaseException "CancelledError"))].


(** Three calls 700 ticks apart, each within the debounce window of the
    one before. *)
Definition chain3 : list event :=
  [EvEnqueue "A" 7; EvWorker 0 Signalled; EvAdvance 700; EvEnqueue "A" 7;
   EvAdvance 100; EvWorker 0 Debounced; EvWorker 0 Acquired;
   EvAdvance 200; EvWorker 0 (JobDone Returned);
   EvAdvance 400; EvEnqueue "A" 7; EvWorker 0 Signalled; EvAdvance 800;
   EvWorker 0 Debounced; EvWorker 0 Acquired; EvAdvance 200;
   EvWorker 0 (JobDone Returned);
   EvAdvance 5000; EvWorker 0 TimerFired; EvWorker 0 Exit].

(** ** Further guards, measures and invariants *)

(** Every start of [K] in the history [h] (newest entry first) comes at
    least [gap] after every end of [K] recorded before it. *)
Fixpoint spaced (K : string) (gap : nat) (h : list obs) : Prop :=
  match h with
  | [] => True
  | o :: h' =>
      (∀ w f t, o = ObsStart K w f t →
         ∀ w' o' t', ObsEnd K w' o' t' ∈ h' → t' + gap ≤ t) ∧
      spaced K gap h'
  end.

(** The earliest moment at which the worker can call its job factory
    again, seen at time [t]: at the end of the pause it is in, at once
    when the pause is over, and a whole pause away otherwise. *)
Definition earliest_start (c : config) (t : nat) (ws : _WorkerState) : nat :=
  match task_pc ws with
  | Debouncing wake => wake
  | Admitting => t
  | _ => t + debounce_window c
  end.

(** No end of [K] lies in the future, the worker of [K] cannot start
    sooner than a pause after each of them, and the history is spaced. *)
Definition spacing_inv (c : config) (K : string) (s : state) : Prop :=
  (∀ w o t', ObsEnd K w o t' ∈ history s →
     t' ≤ now s ∧
     ∀ ws, worker_of K s = Some ws →
           t' + debounce_window c ≤ earliest_start c (now s) ws) ∧
  spaced K (debounce_window c) (history s).

(** The worker object [w] stays registered for [K] until
    [t0 + idle_timeout] at least: it is in its cycle, or waits with a
    deadline that late. *)
Definition retained (c : config) (K : string) (w t0 : nat) (s : state) : Prop :=
  t0 ≤ now s ∧
  (t0 + idle_timeout c ≤ now s ∨
   (_states s !! K = Some w ∧
    ∃ ws, heap s !! w = Some ws ∧
          match task_pc ws with
          | WaitingForSignal d => t0 + idle_timeout c ≤ d
          | TimedOut | Exited => False
          | _ => True
          end)).

(** Neither an [enqueue] for [K] nor a step of the worker registered
    for [K]. *)
Definition foreign (K : string) (ev : event) (s : state) : bool :=
  match ev with
  | EvEnqueue k _ => negb (bool_decide (k = K))
  | EvWorker w _ => negb (bool_decide (_states s !! K = Some w))
  | EvAdvance _ => true
  end.

(** The entries of a history that concern the key [K]. *)
Definition about (K : string) (h : list obs) : list obs :=
  filter (λ o, obs_key o = K) h.


(** The whole life of a worker for key B (the second worker object),
    ended by a cancelled job. *)
Definition other_key_life : list event :=
  [EvEnqueue "B" 2; EvWorker 1 Signalled; EvAdvance 800; EvWorker 1 Debounced;
   EvWorker 1 Acquired; EvWorker 1 (JobDone (RaisedBaseException "CancelledError"))].

(** A second worker for key A, up to the point where its job is running. *)
Definition second_life : list event :=
  [EvEnqueue "A" 9; EvWorker 1 Signalled; EvAdvance 800; EvWorker 1 Debounced;
   EvWorker 1 Acquired].

(** * The webhook endpoints (src/api)

    The five endpoints share the module-level object [queue] of
    src/core/queue.py.  Each handler suspends once, in
    [await request.json()]; from there to its [return] it runs without
    suspension ([queue.enqueue] does not suspend while the lock is free),
    so a request is one step of the system.  What a handler writes to
    its loggers is left out; the files it writes are kept. *)

(** ** Values decoded from JSON

    What [json.loads] returns.  A [PDict] lists the items of the dict in
    insertion order; lookups take the first item with the key. *)
#[warnings="-register-all"] Inductive pyval :=
  | PNone
  | PBool (b : bool)
  | PInt (z : Z)
  | PFloat (x : spec_float)
  | PStr (s : string)
  | PList (l : list pyval)
  | PDict (items : list (string * pyval)).

(** Exceptions, all of them subclasses of [Exception]. *)
Inductive exn :=
  | AttributeError
  | TypeError
  | KeyError
  | ValueError
  | JSONDecodeError
  | OtherException (name : string).

Inductive res (A : Type) :=
  | Ok (a : A)
  | Raise (e : exn).
Arguments Ok {A} a.
Arguments Raise {A} e.

Definition res_bind {A B} (f : A → res B) (r : res A) : res B :=
  match r with Ok a => f a | Raise e => Raise e end.

#[global] Instance res_mbind : MBind res := @res_bind.
#[global] Instance res_fmap : FMap res :=
  λ A B f r, match r with Ok a => Ok (f a) | Raise e => Raise e end.

(** [bool(v)]. *)
Definition truthy (v : pyval) : bool :=
  match v with
  | PNone => false
  | PBool b => b
  | PInt z => negb (z =? 0)%Z
  | PFloat (S754_zero _) => false
  | PFloat _ => true
  | PStr s => negb (bool_decide (s = ""))
  | PList [] => false
  | PList _ => true
  | PDict [] => false
  | PDict _ => true
  end.

(** [a or b]. *)
Definition py_or (a b : pyval) : pyval := if truthy a then a else b.

Fixpoint assoc {A} (k : string) (items : list (string * A)) : option A :=
  match items with
  | [] => None
  | (k', v) :: items' => if bool_decide (k' = k) then Some v else assoc k items'
  end.

(** [v.get(k, d)]: only a dict has the method. *)
Definition get (v : pyval) (k : string) (d : pyval) : res pyval :=
  match v with
  | PDict items => Ok (default d (assoc k items))
  | _ => Raise AttributeError
  end.

(** [v == s] for a string literal [s]. *)
Definition eq_str (v : pyval) (s : string) : bool :=
  match v with PStr s' => bool_decide (s' = s) | _ => false end.

(** [iter(v)]: the elements of a list, the keys of a dict, the
    characters of a string; other values are not iterable. *)
Definition py_iter (v : pyval) : res (list pyval) :=
  match v with
  | PList l => Ok l
  | PDict items => Ok ((λ kv, PStr kv.1) <$> items)
  | PStr s => Ok ((λ a, PStr (String a EmptyString)) <$> String.list_ascii_of_string s)
  | _ => Raise TypeError
  end.

(** Library functions that the model leaves open: [str] on values and on
    exceptions, and whether [JSONResponse] can render a content
    ([json.dumps(..., allow_nan=False)] followed by [encode("utf-8")]). *)
Record builtins := Builtins {
  py_str : pyval → string;
  str_exn : exn → string;
  renders : pyval → bool
}.

(** [str] of a string is the string. *)
Definition str_on_strings (L : builtins) : Prop := ∀ s, py_str L (PStr s) = s.

(** ** The application state *)

(** The coroutine functions [job] defined by the handlers, with the
    variables they close over. *)
Inductive job :=
  | status_change_job (payload : pyval)
      (* handle_status_change(payload, history_items=[]) *)
  | task_created_job (task : pyval)
      (* handle_task_created(task) *)
  | custom_field_changed_job (task history_items : pyval)
      (* handle_custom_field_change(task, history_items) *)
  | subtask_created_job (subtask_id parent_task_id : pyval)
      (* handle_subtask_creation(subtask_id, parent_task_id) *)
  | subtask_status_changed_job (subtask_id parent_task_id team_id : pyval).
      (* handle_subtask_status_changed(subtask_id=..., parent_task_id=..., team_id=...) *)

(** [queue]: the object made by [queue = CoalescingQueue()];
    [closures]: the function objects made by [async def job()] so far, a
    job factory being named by its position; [files]: what [_save_json]
    has written to webhook_logs. *)
Record app := App {
  queue : state;
  closures : list job;
  files : list (string * pyval)
}.

Definition app_init (c : config) : app := App (init c) [] [].

Record response := JSONResponse_ {
  content : pyval;
  status_code : nat
}.

(** Computations of a handler: [None] when the call cannot proceed in
    the model (the queue lock is held, or [enqueue] is given a key that
    is not a [str]); otherwise the value returned or the exception
    raised, and the state after it. *)
Definition M (A : Type) : Type := app → option (res A * app).

Definition M_ret {A} (x : A) : M A := λ a, Some (Ok x, a).

Definition M_bind {A B} (f : A → M B) (m : M A) : M B :=
  λ a, match m a with
       | None => None
       | Some (Ok x, a') => f x a'
       | Some (Raise e, a') => Some (Raise e, a')
       end.

#[global] Instance M_mret : MRet M := @M_ret.
#[global] Instance M_mbind : MBind M := @M_bind.

Definition lift {A} (r : res A) : M A := λ a, Some (r, a).

(** [try: m except Exception as e: h e]. *)
Definition try_except {A} (m : M A) (h : exn → M A) : M A :=
  λ a, match m a with
       | Some (Raise e, a') => h e a'
       | r => r
       end.

(** [_save_json(path, data)]; writing the file is taken to succeed. *)
Definition _save_json (path : string) (data : pyval) : M unit :=
  λ a, Some (Ok (), App (queue a) (closures a) (files a ++ [(path, data)])).

(** [async def job(): ...]: a new function object. *)
Definition def_job (j : job) : M nat :=
  λ a, Some (Ok (length (closures a)),
             App (queue a) (closures a ++ [j]) (files a)).

(** [await queue.enqueue(key=key, job_factory=job)] for a [str] key. *)
Definition queue_enqueue (c : config) (key : string) (job_factory : nat) : M unit :=
  λ a, match enqueue c key job_factory (queue a) with
       | Some q' => Some (Ok (), App q' (closures a) (files a))
       | None => None
       end.

(** [await queue.enqueue(key=v, job_factory=job)] for any value [v]: a
    list or a dict is unhashable, [self._states.get(key)] raises
    [TypeError] under the lock, which is released on the way out.  Keys
    of other types than [str] are outside the model of the queue. *)
Definition queue_enqueue_value (c : config) (key : pyval) (job_factory : nat)
    : M unit :=
  match key with
  | PStr k => queue_enqueue c k job_factory
  | PList _ | PDict _ =>
      λ a, if _lock (queue a) then None else Some (Raise TypeError, a)
  | _ => λ _, None
  end.

(** [JSONResponse(content=..., status_code=...)]: the content is
    rendered when the object is made. *)
Definition JSONResponse (L : builtins) (content : pyval) (status_code : nat)
    : M response :=
  lift (if renders L content then Ok (JSONResponse_ content status_code)
        else Raise ValueError).

(** The value of the variable [raw_body] as the [except] clause sees it:
    [{}] when [request.json()] raised. *)
Definition raw_seen (request_json : res pyval) : pyval :=
  match request_json with Ok v => v | Raise _ => PDict [] end.

(** ** src/api/status_change.py *)
Definition status_change_webhook (L : builtins) (c : config)
    (request_json : res pyval) (utcnow utcnow_err : string) : M response :=
  try_except
    (raw_body ← lift request_json;
     _save_json ("webhook_logs/status_change_" +:+ utcnow +:+ ".json") raw_body;;
     payload ← lift (flip py_or (PDict []) <$> get raw_body "payload" (PDict []));
     task_id ← lift (get payload "id" PNone);
     status ← lift (st ← get payload "status" (PDict []); get st "status" PNone);
     if negb (truthy task_id) || negb (truthy status)
     then JSONResponse L (PDict [("status", PStr "skipped")]) 200
     else
       job ← def_job (status_change_job payload);
       queue_enqueue c (py_str L task_id) job;;
       JSONResponse L
         (PDict [("status", PStr "scheduled"); ("task_id", task_id);
                 ("new_status", status); ("timestamp", PStr utcnow)]) 200)
    (λ e,
       _save_json ("webhook_logs/error_" +:+ utcnow_err +:+ ".json")
         (PDict [("error", PStr (str_exn L e));
                 ("payload", raw_seen request_json)]);;
       JSONResponse L (PDict [("error", PStr (str_exn L e))]) 500).

(** ** src/api/task_created.py *)
Definition task_created_webhook (L : builtins) (c : config)
    (request_json : res pyval) (utcnow utcnow_err : string) : M response :=
  try_except
    (raw ← lift request_json;
     _save_json ("webhook_logs/task_created_" +:+ utcnow +:+ ".json") raw;;
     event ← lift (get raw "event" PNone);
     task ← lift (flip py_or (PDict []) <$> get raw "task" (PDict []));
     top_level ← lift (if eq_str event "taskCreated"
                       then negb ∘ truthy <$> get task "parent" PNone
                       else Ok false);
     if top_level : bool
     then
       task_id ← lift (py_str L ∘ flip py_or (PStr "") <$> get task "id" PNone);
       if bool_decide (task_id = "")
       then JSONResponse L
              (PDict [("status", PStr "skipped");
                      ("reason", PStr "missing task id")]) 200
       else
         job ← def_job (task_created_job task);
         queue_enqueue c task_id job;;
         JSONResponse L
           (PDict [("status", PStr "scheduled"); ("task_id", PStr task_id);
                   ("timestamp", PStr utcnow)]) 200
     else JSONResponse L (PDict [("status", PStr "received")]) 200)
    (λ e,
       _save_json ("webhook_logs/error_" +:+ utcnow_err +:+ ".json")
         (PDict [("error", PStr (str_exn L e));
                 ("payload", raw_seen request_json)]);;
       JSONResponse L (PDict [("error", PStr (str_exn L e))]) 500).

(** ** src/api/custom_field_changed.py *)

(** [any(item.get("field") == "custom_field" for item in items)]: stops
    at the first hit. *)
Fixpoint any_custom_field (items : list pyval) : res bool :=
  match items with
  | [] => Ok false
  | item :: items' =>
      field ← get item "field" PNone;
      if eq_str field "custom_field" then Ok true else any_custom_field items'
  end.

Definition custom_field_changed_webhook (L : builtins) (c : config)
    (request_json : res pyval) (utcnow utcnow_err : string) : M response :=
  try_except
    (raw ← lift request_json;
     _save_json ("webhook_logs/custom_field_raw_" +:+ utcnow +:+ ".json") raw;;
     event ← lift (get raw "event" PNone);
     task ← lift (flip py_or (PDict []) <$> get raw "task" (PDict []));
     history_items ←
       lift (flip py_or (PList []) <$> get raw "history_items" (PList []));
     is_custom_field_change ← lift (py_iter history_items ≫= any_custom_field);
     if eq_str event "taskUpdated" && is_custom_field_change
     then
       task_id ← lift (py_str L ∘ flip py_or (PStr "") <$> get task "id" PNone);
       if bool_decide (task_id = "")
       then JSONResponse L
              (PDict [("status", PStr "skipped");
                      ("reason", PStr "missing task id")]) 200
       else
         job ← def_job (custom_field_changed_job task history_items);
         queue_enqueue c task_id job;;
         JSONResponse L
           (PDict [("status", PStr "scheduled"); ("task_id", PStr task_id);
                   ("timestamp", PStr utcnow)]) 200
     else JSONResponse L (PDict [("status", PStr "received")]) 200)
    (λ e,
       _save_json ("webhook_logs/error_customfield_" +:+ utcnow_err +:+ ".json")
         (PDict [("error", PStr (str_exn L e));
                 ("payload", raw_seen request_json)]);;
       JSONResponse L (PDict [("error", PStr (str_exn L e))]) 500).

(** ** src/api/subtask_created.py *)
Definition subtask_created_webhook (L : builtins) (c : config)
    (request_json : res pyval) (utcnow utcnow_err : string) : M response :=
  try_except
    (raw_body ← lift request_json;
     _save_json ("webhook_logs/subtask_created_" +:+ utcnow +:+ ".json") raw_body;;
     payload ← lift (flip py_or (PDict []) <$> get raw_body "payload" (PDict []));
     subtask_id ← lift (get payload "id" PNone);
     parent_task_id ← lift (get payload "parent" PNone);
     if negb (truthy subtask_id) || negb (truthy parent_task_id)
     then JSONResponse L
            (PDict [("status", PStr "skipped");
                    ("reason", PStr "Missing subtask_id or parent_task_id in payload");
                    ("received_data",
                     PDict [("subtask_id", subtask_id);
                            ("parent_task_id", parent_task_id)])]) 200
     else
       job ← def_job (subtask_created_job subtask_id parent_task_id);
       queue_enqueue c (py_str L parent_task_id) job;;
       JSONResponse L
         (PDict [("status", PStr "scheduled"); ("subtask_id", subtask_id);
                 ("parent_task_id", parent_task_id);
                 ("timestamp", PStr utcnow)]) 200)
    (λ e,
       match e with
       | JSONDecodeError =>
           JSONResponse L
             (PDict [("status", PStr "error");
                     ("message", PStr "Invalid JSON payload")]) 400
       | _ =>
           _save_json ("webhook_logs/error_" +:+ utcnow_err +:+ ".json")
             (PDict [("error", PStr (str_exn L e));
                     ("payload", raw_seen request_json);
                     ("timestamp", PStr utcnow_err)]);;
           JSONResponse L
             (PDict [("status", PStr "error"); ("message", PStr (str_exn L e));
                     ("timestamp", PStr utcnow_err)]) 500
       end).

(** ** src/api/subtask_status_changed.py

    [CLICKUP_TEAM_ID] is [os.getenv("CLICKUP_TEAM_ID")] of
    src/core/config.py: a string, or [None] when the variable is unset. *)
Definition _schedule (L : builtins) (CLICKUP_TEAM_ID : option string) (c : config)
    (request_json : res pyval) (utcnow utcnow_err : string) : M response :=
  try_except
    (raw_body ← lift request_json;
     _save_json ("webhook_logs/subtask_status_changed_" +:+ utcnow +:+ ".json")
       raw_body;;
     payload ← lift (get raw_body "payload" (PDict []));
     subtask_id ← lift (get payload "id" PNone);
     parent_task_id ← lift (get payload "parent" PNone);
     team_id ← lift (flip py_or (PStr "20420318") ∘
                     flip py_or (from_option PStr PNone CLICKUP_TEAM_ID)
                       <$> get payload "team_id" PNone);
     if negb (truthy subtask_id) || negb (truthy parent_task_id)
     then JSONResponse L
            (PDict [("status", PStr "skipped");
                    ("reason", PStr "Missing subtask_id or parent_task_id in payload");
                    ("received_data",
                     PDict [("subtask_id", subtask_id);
                            ("parent_task_id", parent_task_id)])]) 200
     else
       job ← def_job (subtask_status_changed_job subtask_id parent_task_id team_id);
       queue_enqueue_value c parent_task_id job;;
       JSONResponse L
         (PDict [("status", PStr "scheduled"); ("subtask_id", subtask_id);
                 ("parent_task_id", parent_task_id);
                 ("timestamp", PStr utcnow)]) 200)
    (λ e,
       match e with
       | JSONDecodeError =>
           JSONResponse L
             (PDict [("status", PStr "error");
                     ("message", PStr "Invalid JSON payload")]) 400
       | _ =>
           _save_json
             ("webhook_logs/error_subtask_status_changed_" +:+ utcnow_err +:+ ".json")
             (PDict [("error", PStr (str_exn L e));
                     ("payload", raw_seen request_json);
                     ("timestamp", PStr utcnow_err)]);;
           JSONResponse L
             (PDict [("status", PStr "error"); ("message", PStr (str_exn L e));
                     ("timestamp", PStr utcnow_err)]) 500
       end).

Definition subtask_status_changed_webhook := _schedule.
Definition subtask_status_changed_webhook_alias := _schedule.

(** ** The application as a transition system (src/main.py) *)

(** The routes registered by the routers that [app] includes. *)
Inductive route :=
  | post_webhook_status_change
  | post_webhook_task_created
  | post_webhook_subtask_created
  | post_webhook_custom_field_changed
  | post_webhook_subtask_status_changed
  | post_subtask_status_changed.

Definition handler (L : builtins) (CLICKUP_TEAM_ID : option string) (c : config)
    (r : route) : res pyval → string → string → M response :=
  match r with
  | post_webhook_status_change => status_change_webhook L c
  | post_webhook_task_created => task_created_webhook L c
  | post_webhook_subtask_created => subtask_created_webhook L c
  | post_webhook_custom_field_changed => custom_field_changed_webhook L c
  | post_webhook_subtask_status_changed =>
      subtask_status_changed_webhook L CLICKUP_TEAM_ID c
  | post_subtask_status_changed =>
      subtask_status_changed_webhook_alias L CLICKUP_TEAM_ID c
  end.





(** ** Invariants and examples *)


(** The contents by which the two subtask endpoints answer a payload
    without ids, and an exception. *)
Definition missing_ids_content (subtask_id parent_task_id : pyval) : pyval :=
  PDict [("status", PStr "skipped");
         ("reason", PStr "Missing subtask_id or parent_task_id in payload");
         ("received_data",
          PDict [("subtask_id", subtask_id);
                 ("parent_task_id", parent_task_id)])].

Definition error_content (L : builtins) (e : exn) (utcnow_err : string) : pyval :=
  PDict [("status", PStr "error"); ("message", PStr (str_exn L e));
         ("timestamp", PStr utcnow_err)].

(** Concrete library functions for examples: [str] as it is on strings,
    every content renders. *)
Definition simple_builtins : builtins :=
  Builtins (λ v, match v with PStr s => s | _ => "" end) (λ _, "error") (λ _, true).






(** The routes whose handler has a clause [except json.JSONDecodeError]. *)
Definition is_subtask_route (r : route) : bool :=
  match r with
  | post_webhook_subtask_created | post_webhook_subtask_status_changed
  | post_subtask_status_changed => true
  | _ => false
  end.

(** * Copying custom fields to a new subtask
      (src/services/field_update.py, src/automations/subtask_created.py) *)

(** ** More of Python *)

(** [v[k]] for a string [k]: only a dict can be subscripted by a
    string; a missing key raises [KeyError]. *)
Definition subscript (v : pyval) (k : string) : res pyval :=
  match v with
  | PDict items =>
      match assoc k items with Some x => Ok x | None => Raise KeyError end
  | _ => Raise TypeError
  end.

(** [len(v)]. *)
Definition py_len (v : pyval) : res nat :=
  match v with
  | PList l => Ok (length l)
  | PDict items => Ok (length items)
  | PStr s => Ok (String.length s)
  | _ => Raise TypeError
  end.

(** The numbers: [bool] is a subclass of [int], and [==] compares
    [bool], [int] and [float] by value. A finite number is [m * 2^e]. *)
Inductive number :=
  | Finite (m e : Z)
  | Infinite (negative : bool)
  | NotANumber.

Definition as_number (v : pyval) : option number :=
  match v with
  | PBool b => Some (Finite (Z.b2z b) 0)
  | PInt z => Some (Finite z 0)
  | PFloat (S754_zero _) => Some (Finite 0 0)
  | PFloat (S754_infinity s) => Some (Infinite s)
  | PFloat S754_nan => Some NotANumber
  | PFloat (S754_finite s m e) => Some (Finite (if s then Z.neg m else Z.pos m) e)
  | _ => None
  end.

Definition number_eq (a b : number) : bool :=
  match a, b with
  | Finite m1 e1, Finite m2 e2 =>
      let e := Z.min e1 e2 in
      (m1 * 2 ^ (e1 - e) =? m2 * 2 ^ (e2 - e))%Z
  | Infinite s1, Infinite s2 => bool_decide (s1 = s2)
  | _, _ => false
  end.

(** [a == b] when one side at least is [None], a number or a string. *)
Definition scalar_eq (a b : pyval) : bool :=
  match as_number a, as_number b with
  | Some x, Some y => number_eq x y
  | None, None =>
      match a, b with
      | PNone, PNone => true
      | PStr s, PStr t => bool_decide (s = t)
      | _, _ => false
      end
  | _, _ => false
  end.

(** [isinstance(v, int)]. *)
Definition is_int (v : pyval) : bool :=
  match v with PInt _ | PBool _ => true | _ => false end.

(** Lists and dicts cannot be hashed. *)
Definition hashable (v : pyval) : bool :=
  match v with PList _ | PDict _ => false | _ => true end.

Definition is_none (v : pyval) : bool :=
  match v with PNone => true | _ => false end.

(** ** src/services/field_update.py: [format_field_value] *)
Definition format_field_value (value field_type : pyval) : pyval :=
  if is_none value then PStr ""
  else if eq_str field_type "checkbox"
  then PStr (if truthy value then "true" else "false")
  else
    match value with
    | PDict items =>
        if eq_str field_type "drop_down"
        then default value (assoc "id" items)
        else value
    | _ => value
    end.

(** ** src/automations/subtask_created.py: [prepare_fields_for_update] *)

Definition FIELD_MAPPING : list (string * string) :=
  [("a3c18f71-d0ff-4a11-b086-0d441a656d35", "Parent Task Name (Auto)");
   ("bad587f3-e81b-45dc-9f38-28eed14c9e6e", "Parts cost");
   ("d2f1b2ca-7236-4d2c-9814-90d9a3b3e041", "SKU");
   ("dbed7e4e-1995-417a-b8eb-d73e7f1d7a80", "MACHINE MODEL");
   ("1bab94c1-eeff-455c-adfe-20e6079b275d", "Machine Brand")].

(** [FIELD_MAPPING.get(v)], as [v in FIELD_MAPPING] and
    [FIELD_MAPPING[v]] use it: the keys are strings, and an unhashable
    [v] raises [TypeError]. *)
Definition FIELD_MAPPING_get (v : pyval) : res (option string) :=
  match v with
  | PStr s => Ok (assoc s FIELD_MAPPING)
  | PList _ | PDict _ => Raise TypeError
  | _ => Ok None
  end.

(** [for opt in options: if p(opt.get(attr)): found = opt.get("id"); break]
    with [found] initially [dflt]. *)
Fixpoint find_option (p : pyval → bool) (attr : string) (dflt : pyval)
    (options : list pyval) : res pyval :=
  match options with
  | [] => Ok dflt
  | opt :: options' =>
      x ← get opt attr PNone;
      if p x then get opt "id" PNone else find_option p attr dflt options'
  end.

(** Lines 64 to 89: the option id that a value of the parent's field
    stands for. *)
Definition target_option_id (L : builtins) (value options : pyval) : res pyval :=
  if is_int value
  then opts ← py_iter options;
       find_option (λ x, scalar_eq x value) "orderindex" PNone opts
  else
    match value with
    | PDict items => Ok (default PNone (assoc "id" items))
    | PStr s =>
        opts ← py_iter options;
        by_id ← find_option (λ x, bool_decide (py_str L x = s)) "id" PNone opts;
        if truthy by_id then Ok by_id
        else opts ← py_iter options;
             find_option (λ x, scalar_eq x value) "name" by_id opts
    | _ => Ok PNone
    end.

(** The body of the loop for one field: [None] when the field is
    skipped, otherwise the dict that is appended. *)
Definition prepare_field (L : builtins) (field : pyval) : res (option pyval) :=
  field_id ← get field "id" PNone;
  name ← FIELD_MAPPING_get field_id;
  match name with
  | None => Ok None
  | Some name =>
      value ← get field "value" PNone;
      field_type ← get field "type" PNone;
      if is_none value && negb (eq_str field_type "checkbox") then Ok None
      else
        value_to_set ←
          (if eq_str field_type "drop_down"
           then type_config ← get field "type_config" (PDict []);
                options ← get type_config "options" (PList []);
                target ← target_option_id L value options;
                Ok (if truthy target then Some target else None)
           else Ok (Some value));
        Ok (value_to_set ≫= λ v,
            Some (PDict [("id", field_id);
                         ("value", if is_none v then PBool false else v);
                         ("type", field_type);
                         ("name", PStr name)]))
  end.

Fixpoint prepare_loop (L : builtins) (fields : list pyval) : res (list pyval) :=
  match fields with
  | [] => Ok []
  | field :: fields' =>
      o ← prepare_field L field;
      out ← prepare_loop L fields';
      Ok (match o with Some x => x :: out | None => out end)
  end.

Definition prepare_fields_for_update (L : builtins) (parent_fields : pyval)
    : res (list pyval) :=
  fields ← py_iter parent_fields; prepare_loop L fields.

(** ** The ClickUp API as the environment

    What the API answers is not the program's to decide: the [n]-th
    [get_task_details] of a job returns [get_reply n], the decoded body
    or [None] for every failure that the function catches; the [n]-th
    [update_single_field] returns [post_reply n], whether the answer had
    status 200. *)
Record clickup := Clickup {
  get_reply : nat → option pyval;
  post_reply : nat → bool
}.

(** One call of [update_single_field]: the task, the field, and the
    value put into the request. *)
Record post := Post {
  post_task_id : pyval;
  post_field_id : pyval;
  post_value : pyval
}.

(** What a job has done so far: its reads, its writes, and the time it
    has slept (in milliseconds). *)
Record trace := Trace {
  gets : list pyval;
  posts : list post;
  slept : nat
}.

Definition J (A : Type) : Type := clickup → trace → res A * trace.

Definition J_ret {A} (x : A) : J A := λ _ tr, (Ok x, tr).

Definition J_bind {A B} (f : A → J B) (m : J A) : J B :=
  λ E tr, match m E tr with
          | (Ok x, tr') => f x E tr'
          | (Raise e, tr') => (Raise e, tr')
          end.

#[global] Instance J_mret : MRet J := @J_ret.
#[global] Instance J_mbind : MBind J := @J_bind.

Definition J_lift {A} (r : res A) : J A := λ _ tr, (r, tr).

(** [asyncio.sleep]. *)
Definition sleep (ms : nat) : J unit :=
  λ _ tr, (Ok (), Trace (gets tr) (posts tr) (slept tr + ms)).

(** [get_task_details(task_id, team_id)] of field_update.py: [None]
    on every failure. *)
Definition get_task_details (task_id : pyval) : J pyval :=
  λ E tr, (Ok (default PNone (get_reply E (length (gets tr)))),
           Trace (gets tr ++ [task_id]) (posts tr) (slept tr)).

(** [update_single_field]. *)
Definition update_single_field (task_id field_id value field_type : pyval)
    : J bool :=
  λ E tr, (Ok (post_reply E (length (posts tr))),
           Trace (gets tr)
             (posts tr ++ [Post task_id field_id (format_field_value value field_type)])
             (slept tr)).

(** [update_task_fields]: every field is written, whatever became of
    the ones before. *)
Fixpoint update_loop (task_id : pyval) (pause : bool) (fields : list pyval)
    : J (list bool) :=
  match fields with
  | [] => mret []
  | field :: fields' =>
      field_id ← J_lift (subscript field "id");
      value ← J_lift (subscript field "value");
      field_type ← J_lift (flip py_or (PStr "") <$> get field "type" PNone);
      success ← update_single_field task_id field_id value field_type;
      (if pause then sleep 500 else mret ());;
      results ← update_loop task_id pause fields';
      mret (success :: results)
  end.

Definition update_task_fields (task_id : pyval) (fields : list pyval) : J bool :=
  match fields with
  | [] => mret true
  | _ =>
      results ← update_loop task_id (bool_decide (1 < length fields)) fields;
      mret (forallb id results)
  end.

(** [[f[k] for f in fields]]. *)
Fixpoint subscripts (k : string) (fields : list pyval) : res (list pyval) :=
  match fields with
  | [] => Ok []
  | f :: fields' => x ← subscript f k; xs ← subscripts k fields'; Ok (x :: xs)
  end.

(** [log_current_field_states]: it only writes to the log, but it reads
    the task, and what it reads it takes apart ([field.get("id") in
    field_ids] itself cannot raise). *)
Fixpoint log_fields (fields : list pyval) : res unit :=
  match fields with
  | [] => Ok ()
  | field :: fields' => get field "id" PNone;; log_fields fields'
  end.

Definition log_current_field_states (task_id : pyval) (field_ids : list pyval)
    : J unit :=
  task_data ← get_task_details task_id;
  if negb (truthy task_data) then mret ()
  else J_lift (custom_fields ← get task_data "custom_fields" (PList []);
               fields ← py_iter custom_fields;
               log_fields fields).

(** ** [verify_field_updates] *)

(** [{f["id"]: f for f in fields}], as the list of its insertions. *)
Fixpoint fields_map (fields : list pyval) : res (list (pyval * pyval)) :=
  match fields with
  | [] => Ok []
  | f :: fields' =>
      k ← subscript f "id";
      if hashable k then m ← fields_map fields'; Ok ((k, f) :: m)
      else Raise TypeError
  end.

(** [m.get(k)]: a later insertion with an equal key has replaced an
    earlier one. *)
Definition map_get (m : list (pyval * pyval)) (k : pyval) : res (option pyval) :=
  if hashable k
  then Ok (snd <$> last (filter (λ kv, scalar_eq kv.1 k = true) m))
  else Raise TypeError.

(** Lines 138 to 157: the option id that the value read back stands for. *)
Definition current_option_id (L : builtins) (current_value_raw options : pyval)
    : res pyval :=
  match current_value_raw with
  | PDict items => Ok (default PNone (assoc "id" items))
  | _ =>
      if is_int current_value_raw
      then opts ← py_iter options;
           find_option (λ x, scalar_eq x current_value_raw) "orderindex" PNone opts
      else
        match current_value_raw with
        | PStr s =>
            opts ← py_iter options;
            by_id ← find_option (λ x, bool_decide (py_str L x = s)) "id" PNone opts;
            if truthy by_id then Ok by_id
            else opts ← py_iter options;
                 find_option (λ x, scalar_eq x current_value_raw) "name" by_id opts
        | _ => Ok PNone
        end
  end.

(** The body of the loop for one expected field: whether it is verified. *)
Definition verify_field (L : builtins) (current_fields_map : list (pyval * pyval))
    (expected_field : pyval) : res bool :=
  field_id ← subscript expected_field "id";
  expected_type ← get expected_field "type" PNone;
  expected_value_for_update ← subscript expected_field "value";
  current_field ← map_get current_fields_map field_id;
  match current_field with
  | None => Ok false
  | Some current_field =>
      current_value_raw ← get current_field "value" PNone;
      current_field_type ← get current_field "type" PNone;
      if eq_str expected_type "drop_down"
      then
        type_config ← get current_field "type_config" (PDict []);
        options ← get type_config "options" (PList []);
        resolved ← current_option_id L current_value_raw options;
        Ok (bool_decide (py_str L expected_value_for_update = py_str L resolved))
      else
        Ok (bool_decide
              (py_str L (format_field_value expected_value_for_update expected_type) =
               py_str L (format_field_value current_value_raw current_field_type)))
  end.

(** The loop, with its two variables [all_success] and
    [failed_fields_list]. *)
Fixpoint verify_loop (L : builtins) (current_fields_map : list (pyval * pyval))
    (return_failed : bool) (expected_fields : list pyval)
    (all_success : bool) (failed_fields_list : list pyval)
    : res (bool * list pyval) :=
  match expected_fields with
  | [] => Ok (all_success, failed_fields_list)
  | expected_field :: expected_fields' =>
      ok ← verify_field L current_fields_map expected_field;
      if ok : bool
      then verify_loop L current_fields_map return_failed expected_fields'
             all_success failed_fields_list
      else verify_loop L current_fields_map return_failed expected_fields'
             false
             (if return_failed then failed_fields_list ++ [expected_field]
              else failed_fields_list)
  end.

Definition verify_field_updates (L : builtins) (task_id : pyval)
    (expected_fields : list pyval) (return_failed : bool)
    : J (bool * list pyval) :=
  task_data ← get_task_details task_id;
  if negb (truthy task_data)
  then mret (false, if return_failed then expected_fields else [])
  else
    current_fields_map ←
      J_lift (custom_fields ← get task_data "custom_fields" (PList []);
              fields ← py_iter custom_fields;
              fields_map fields);
    J_lift (verify_loop L current_fields_map return_failed expected_fields true []).

(** ** [handle_subtask_creation] *)

(** [[f for f in fields if f.get("type") == "drop_down"]]. *)
Fixpoint dropdowns (fields : list pyval) : res (list pyval) :=
  match fields with
  | [] => Ok []
  | f :: fields' =>
      t ← get f "type" PNone;
      fs ← dropdowns fields';
      Ok (if eq_str t "drop_down" then f :: fs else fs)
  end.

(** The [while] loop, with [n] retries left. *)
Fixpoint retry_loop (L : builtins) (n : nat) (subtask_id : pyval)
    (failed_dropdown_fields : list pyval) : J (list pyval) :=
  match failed_dropdown_fields, n with
  | [], _ | _, 0 => mret failed_dropdown_fields
  | _, S n' =>
      J_lift (subscripts "name" failed_dropdown_fields);;
      sleep 1000;;
      update_task_fields subtask_id failed_dropdown_fields;;
      r ← verify_field_updates L subtask_id failed_dropdown_fields true;
      if r.1 : bool
      then retry_loop L n' subtask_id []
      else J_lift (subscripts "name" r.2);;
           retry_loop L n' subtask_id r.2
  end.

(** [try: m except Exception: return x]. *)
Definition J_except {A} (m : J A) (x : A) : J A :=
  λ E tr, match m E tr with
          | (Raise _, tr') => (Ok x, tr')
          | r => r
          end.

(** [team_id] is the default "20420318" throughout: the [job] of the
    webhook passes two arguments. *)
Definition handle_subtask_creation (L : builtins) (subtask_id parent_task_id : pyval)
    : J bool :=
  J_except
    (parent_task ← get_task_details parent_task_id;
     if negb (truthy parent_task) then mret false
     else
       J_lift (custom_fields ← get parent_task "custom_fields" (PList []);
               py_len custom_fields);;
       fields_to_update ←
         J_lift (custom_fields ← get parent_task "custom_fields" (PList []);
                 prepare_fields_for_update L custom_fields);
       match fields_to_update with
       | [] => mret true
       | _ =>
           field_ids ← J_lift (subscripts "id" fields_to_update);
           log_current_field_states subtask_id field_ids;;
           update_task_fields subtask_id fields_to_update;;
           r ← verify_field_updates L subtask_id fields_to_update true;
           if r.1 : bool then mret true
           else
             J_lift (subscripts "name" r.2);;
             failed_dropdown_fields ← J_lift (dropdowns r.2);
             left ← retry_loop L 2 subtask_id failed_dropdown_fields;
             mret (match left with [] => true | _ => false end)
       end)
    false.

(** ** Invariants and examples of the field copy *)

(** A field as [prepare_fields_for_update] makes it. *)
Definition prepared (f : pyval) : Prop :=
  ∃ id name value type,
    f = PDict [("id", PStr id); ("value", value); ("type", type);
               ("name", PStr name)] ∧
    assoc id FIELD_MAPPING = Some name ∧
    value ≠ PNone ∧
    (eq_str type "drop_down" = true → truthy value = true).

(** Custom fields of a parent task: a mapped text field, a field that is
    not mapped, and a mapped dropdown whose value is an order index. *)
Definition parent_fields_example : pyval :=
  PList [PDict [("id", PStr "d2f1b2ca-7236-4d2c-9814-90d9a3b3e041");
                ("name", PStr "SKU"); ("type", PStr "short_text");
                ("value", PStr "X-1")];
         PDict [("id", PStr "0000"); ("name", PStr "Other");
                ("type", PStr "short_text"); ("value", PStr "y")];
         PDict [("id", PStr "dbed7e4e-1995-417a-b8eb-d73e7f1d7a80");
                ("name", PStr "MACHINE MODEL"); ("type", PStr "drop_down");
                ("value", PInt 1);
                ("type_config",
                 PDict [("options",
                         PList [PDict [("id", PStr "opt-a"); ("name", PStr "A");
                                       ("orderindex", PInt 0)];
                                PDict [("id", PStr "opt-b"); ("name", PStr "B");
                                       ("orderindex", PInt 1)]])])]].

Definition ids_of (get_id : pyval → res pyval) (fields : list pyval) : list pyval :=
  omap (λ f, match get_id f with Ok x => Some x | Raise _ => None end) fields.

(** A write to a mapped field of [task]. *)
Definition mapped_post (task : pyval) (p : post) : Prop :=
  post_task_id p = task ∧
  ∃ id name, post_field_id p = PStr id ∧ assoc id FIELD_MAPPING = Some name.

(** From [tr] to [tr']: at most [ng] reads, all of [task], and at most
    [np] writes, all to mapped fields of [task]. *)
Definition grows (task : pyval) (ng np : nat) (tr tr' : trace) : Prop :=
  ∃ g p, gets tr' = gets tr ++ g ∧ Forall (λ x, x = task) g ∧ length g ≤ ng ∧
         posts tr' = posts tr ++ p ∧ Forall (mapped_post task) p ∧ length p ≤ np.

(** A custom field as the API returns it: a dict with a hashable id. *)
Definition field_ok (f : pyval) : bool :=
  match f with
  | PDict items =>
      match assoc "id" items with Some id => hashable id | None => false end
  | _ => false
  end.

(** A task as the API returns it, or an empty answer. *)
Definition task_ok (v : pyval) : bool :=
  negb (truthy v) ||
  match v with
  | PDict items =>
      match default (PList []) (assoc "custom_fields" items) with
      | PList l => forallb field_ok l
      | _ => false
      end
  | _ => false
  end.

Definition reply_ok (o : option pyval) : bool :=
  match o with None => true | Some v => task_ok v end.

Definition is_dropdown (f : pyval) : Prop :=
  get f "type" PNone = Ok (PStr "drop_down").

(** The API is unreachable after the first read, and no write goes through. *)
Definition api_goes_down (parent : pyval) : clickup :=
  Clickup (λ n, match n with 0 => Some parent | _ => None end) (λ _, false).

(** A parent task with the custom fields of the example, and one with a
    text field only. *)
Definition parent_task_example : pyval :=
  PDict [("id", PStr "T1"); ("custom_fields", parent_fields_example)].

Definition plain_parent_example : pyval :=
  PDict [("id", PStr "T1");
         ("custom_fields",
          PList [PDict [("id", PStr "d2f1b2ca-7236-4d2c-9814-90d9a3b3e041");
                        ("name", PStr "SKU"); ("type", PStr "short_text");
                        ("value", PStr "X-1")]])].

(** The API answers every read with a task that has no custom field,
    and accepts every write. *)
Definition api_shows_no_fields : clickup :=
  Clickup (λ _, Some (PDict [("id", PStr "S9"); ("custom_fields", PList [])]))
          (λ _, true).

Definition no_trace : trace := Trace [] [] 0.

(** The write that [update_task_fields] makes for a field, when the
    field is a dict with an id and a value. *)
Definition post_of (task_id field : pyval) : option post :=
  match subscript field "id", subscript field "value", get field "type" PNone with
  | Ok field_id, Ok value, Ok field_type =>
      Some (Post task_id field_id
              (format_field_value value (py_or field_type (PStr ""))))
  | _, _, _ => None
  end.

(** * Proofs *)

(** ** Lemmas on lists *)

Section Lists.
Context {A : Type}.
Implicit Types (p : A → bool) (l : list A).

Lemma count_if_app p l1 l2 :
  count_if p (l1 ++ l2) = count_if p l1 + count_if p l2.
Proof. induction l1 as [|x l1 IH]; simpl; lia. Qed.

Lemma count_if_insert p l i x y :
  l !! i = Some x →
  count_if p (<[i := y]> l) + Nat.b2n (p x) = count_if p l + Nat.b2n (p y).
Proof.
  revert i; induction l as [|z l IH]; intros [|i] Hi; simplify_eq/=; [lia|].
  specialize (IH _ Hi). lia.
Qed.

Lemma count_if_insert_same p l i x y :
  l !! i = Some x → p y = p x → count_if p (<[i := y]> l) = count_if p l.
Proof. intros Hi Hp. pose proof (count_if_insert p l i x y Hi). rewrite Hp in *. lia. Qed.

Lemma alter_insert (f : A → A) l i x :
  l !! i = Some x → alter f i l = <[i := f x]> l.
Proof.
  revert i; induction l as [|z l IH]; intros [|i] Hi; simplify_eq/=; [done|].
  f_equal. by apply IH.
Qed.

Lemma count_if_pos p l :
  1 ≤ count_if p l → ∃ i x, l !! i = Some x ∧ p x = true.
Proof.
  induction l as [|z l IH]; simpl; [lia|]. intros H.
  destruct (p z) eqn:Hz.
  - by exists 0, z.
  - destruct IH as (i & x & Hi & Hx); [simpl in H; lia|]. by exists (S i), x.
Qed.

Lemma count_if_lookup p l i x :
  l !! i = Some x → p x = true → 1 ≤ count_if p l.
Proof.
  revert i; induction l as [|y l IH]; intros [|i] Hi Hp; simplify_eq/=.
  - rewrite Hp. simpl. lia.
  - specialize (IH _ Hi Hp). lia.
Qed.

(** Two elements that satisfy [p] sit at two positions. *)
Lemma count_if_two p l :
  2 ≤ count_if p l →
  ∃ i j x y, i ≠ j ∧ l !! i = Some x ∧ l !! j = Some y ∧ p x = true ∧ p y = true.
Proof.
  induction l as [|z l IH]; simpl; [lia|]. intros H.
  destruct (p z) eqn:Hz; simpl in H.
  - destruct (count_if_pos p l) as (j & y & Hj & Hy); [lia|].
    by exists 0, (S j), z, y.
  - destruct IH as (i & j & x & y & Hij & Hi & Hj & Hx & Hy); [lia|].
    exists (S i), (S j), x, y. split; [lia|done].
Qed.
End Lists.

(** ** The invariant *)

Ltac worker_cases H ws Hw Hpc :=
  unfold _run_worker in H;
  destruct (heap _ !! _) as [ws|] eqn:Hw; [|discriminate H];
  match type of H with
  | context [match ?st with Signalled => _ | _ => _ end] =>
      destruct st as [| | | | |[]]
  end;
  destruct (task_pc ws) eqn:Hpc; try discriminate H; simpl in H;
  repeat case_match; try discriminate H; injection H as <-.

(** What every step of a worker has in common: it rewrites its own
    object, keeps key and factory, and either leaves the registry alone
    or finishes and pops its key. *)
Lemma run_worker_shape c w st s s' :
  _run_worker c w st s = Some s' →
  ∃ ws ws',
    heap s !! w = Some ws ∧ heap s' = <[w := ws']> (heap s) ∧
    task_pc ws ≠ Exited ∧
    task_key ws' = task_key ws ∧ task_job_factory ws' = task_job_factory ws ∧
    now s' = now s ∧ _lock s' = _lock s ∧
    ((_states s' = _states s ∧ task_pc ws' ≠ Exited) ∨
     (_states s' = delete (task_key ws) (_states s) ∧ task_pc ws' = Exited)).
Proof.
  intros H. worker_cases H ws Hw Hpc; eexists ws, _;
    (split; [done|]); (split; [simpl; reflexivity|]); (split; [congruence|]);
    simpl; repeat (split; [done|]); (by left) || (by right).
Qed.

Lemma init_wf c : wf c (init c).
Proof.
  split; simpl; done.
Qed.

Lemma run_worker_wf c w st s s' :
  wf c s → _run_worker c w st s = Some s' → wf c s'.
Proof.
  intros [Hl Hr Hv Hs] H.
  assert (_key_semaphore s' + running_count s' = max_concurrent_keys c) as Hs'.
  { clear Hr Hv. unfold running_count in *.
    worker_cases H ws Hw Hpc; simpl;
      match goal with
      | |- context [count_if ?p (<[?i := ?y]> ?l)] =>
          pose proof (count_if_insert p l i ws y Hw) as Hc
      end; unfold is_running in *; simpl in *; rewrite Hpc in *; simpl in *; lia. }
  destruct (run_worker_shape _ _ _ _ _ H)
    as (ws & ws' & Hw & Hh & Hpc & Hk & _ & _ & Hl' & Hreg).
  pose proof (lookup_lt_Some _ _ _ Hw) as Hlt.
  split; [congruence| | |done].
  - intros k w0 Hk0. rewrite Hh.
    destruct Hreg as [[Hst Hpc']|[Hst Hpc']]; rewrite Hst in *.
    + destruct (Hr _ _ Hk0) as (ws0 & Hw0 & Hkey & Hne).
      destruct (decide (w0 = w)) as [->|Hne'].
      * exists ws'. rewrite list_lookup_insert_eq by done. naive_solver.
      * exists ws0. by rewrite list_lookup_insert_ne.
    + apply lookup_delete_Some in Hk0 as [Hne Hk0].
      destruct (Hr _ _ Hk0) as (ws0 & Hw0 & Hkey & Hne0).
      exists ws0. rewrite list_lookup_insert_ne; [done|]. intros ->. naive_solver.
  - intros w0 ws0. rewrite Hh. intros Hw0 Hlive.
    destruct (decide (w0 = w)) as [->|Hne'].
    + rewrite list_lookup_insert_eq in Hw0 by done. simplify_eq.
      destruct Hreg as [[Hst Hpc']|[Hst Hpc']]; rewrite Hst in *; [|done].
      rewrite Hk. by apply Hv.
    + rewrite list_lookup_insert_ne in Hw0 by done.
      pose proof (Hv _ _ Hw0 Hlive) as Hreg0.
      destruct Hreg as [[Hst Hpc']|[Hst Hpc']]; rewrite Hst in *; [done|].
      rewrite lookup_delete_ne; [done|]. intros Heq.
      pose proof (Hv _ _ Hw Hpc) as Hreg1. congruence.
Qed.

Lemma alter_snoc {A} (f : A → A) (l : list A) (x : A) :
  alter f (length l) (l ++ [x]) = l ++ [f x].
Proof. induction l as [|z l IH]; simpl; [done|]. by f_equal. Qed.

(** The two paths through [enqueue]: the key has a registered worker,
    whose signal is set, or it has none, and a worker is made and
    signalled. *)
Lemma enqueue_spec c k f s s' :
  wf c s → enqueue c k f s = Some s' →
  (∃ w ws, _states s !! k = Some w ∧ heap s !! w = Some ws ∧
     task_key ws = k ∧ task_pc ws ≠ Exited ∧
     s' = State (now s) false (_states s) (<[w := set_signal true ws]> (heap s))
            (_key_semaphore s) (ObsEnqueue k (now s) :: history s)) ∨
  (_states s !! k = None ∧
     s' = State (now s) false (<[k := length (heap s)]> (_states s))
            (heap s ++ [Worker true k f (WaitingForSignal (now s + idle_timeout c))])
            (_key_semaphore s)
            (ObsEnqueue k (now s) :: ObsSpawn k (length (heap s)) f :: history s)).
Proof.
  intros Hwf H. unfold enqueue in H.
  destruct (_lock s); [done|].
  destruct (_states s !! k) as [w|] eqn:Hk; simplify_eq/=.
  - left. destruct (wf_registered _ _ Hwf _ _ Hk) as (ws & Hw & Hkey & Hpc).
    exists w, ws. by rewrite (alter_insert _ _ _ _ Hw).
  - right. by rewrite alter_snoc.
Qed.

Lemma enqueue_wf c k f s s' :
  wf c s → enqueue c k f s = Some s' → wf c s'.
Proof.
  intros Hwf H. destruct (enqueue_spec _ _ _ _ _ Hwf H)
    as [(w & ws & Hk & Hw & Hkey & Hpc & ->)|[Hk ->]];
    destruct Hwf as [Hl Hr Hv Hs];
    pose proof (lookup_lt_Some (heap s)) as Hlt.
  - split; simpl; [done| | |].
    + intros k0 w0 Hk0. destruct (Hr _ _ Hk0) as (ws0 & Hw0 & Hkey0 & Hpc0).
      destruct (decide (w0 = w)) as [->|Hne].
      * exists (set_signal true ws). rewrite list_lookup_insert_eq by eauto.
        naive_solver.
      * exists ws0. by rewrite list_lookup_insert_ne.
    + intros w0 ws0 Hw0 Hlive. destruct (decide (w0 = w)) as [->|Hne].
      * rewrite list_lookup_insert_eq in Hw0 by eauto. simplify_eq/=. done.
      * rewrite list_lookup_insert_ne in Hw0 by done. by apply Hv.
    + unfold running_count in *; simpl.
      rewrite (count_if_insert_same _ _ _ ws); done.
  - split; simpl; [done| | |].
    + intros k0 w0 Hk0. destruct (decide (k0 = k)) as [->|Hne].
      * rewrite lookup_insert_eq in Hk0. simplify_eq.
        eexists. rewrite lookup_app_r, Nat.sub_diag by done. simpl. done.
      * rewrite lookup_insert_ne in Hk0 by done.
        destruct (Hr _ _ Hk0) as (ws0 & Hw0 & Hkey0 & Hpc0).
        exists ws0. rewrite lookup_app_l by eauto. done.
    + intros w0 ws0 Hw0 Hlive.
      destruct (decide (w0 < length (heap s))) as [Hlt0|Hge].
      * rewrite lookup_app_l in Hw0 by done.
        pose proof (Hv _ _ Hw0 Hlive) as Hreg.
        rewrite lookup_insert_ne; [done|]. intros Heq. congruence.
      * rewrite lookup_app_r in Hw0 by lia.
        destruct (w0 - length (heap s)) as [|n] eqn:Hd; simplify_eq/=.
        rewrite lookup_insert_eq. f_equal. lia.
    + unfold running_count in *; simpl. rewrite count_if_app. simpl. lia.
Qed.

Lemma step_wf c ev s s' : wf c s → step c ev s = Some s' → wf c s'.
Proof.
  destruct ev as [k f|w st|dt]; simpl.
  - apply enqueue_wf.
  - apply run_worker_wf.
  - intros [Hl Hr Hv Hs] [= <-]. by split.
Qed.

Lemma run_wf c evs s s' : wf c s → run c evs s = Some s' → wf c s'.
Proof.
  revert s; induction evs as [|ev evs IH]; simpl; intros s Hwf H.
  - by simplify_eq.
  - destruct (step c ev s) as [s1|] eqn:Hstep; [|done].
    eapply IH; [|done]. by eapply step_wf.
Qed.

Lemma reachable_wf c s : reachable c s → wf c s.
Proof. intros [evs H]. eapply run_wf; [apply init_wf|done]. Qed.

Lemma run_app c evs1 evs2 s :
  run c (evs1 ++ evs2) s = run c evs1 s ≫= run c evs2.
Proof.
  revert s; induction evs1 as [|ev evs1 IH]; simpl; intros s; [done|].
  destruct (step c ev s); simpl; [apply IH|done].
Qed.

Lemma reachable_run c evs s s' :
  reachable c s → run c evs s = Some s' → reachable c s'.
Proof.
  intros [evs0 H0] H. exists (evs0 ++ evs). rewrite run_app, H0. done.
Qed.

(** ** Steps seen from one key *)

Lemma count_if_other_key (K : string) (p : string → obs → bool) (new : list obs) :
  (∀ o, p K o = true → obs_key o = K) →
  Forall (λ o, obs_key o ≠ K) new → count_if (p K) new = 0.
Proof.
  intros Hp. induction 1 as [|o new Ho _ IH]; simpl; [done|].
  destruct (p K o) eqn:Hpo; [|done]. by apply Hp in Hpo.
Qed.

Lemma is_start_key K o : is_start K o = true → obs_key o = K.
Proof. destruct o; simpl; try done. by intros ?%bool_decide_eq_true. Qed.

Lemma is_end_key K o : is_end K o = true → obs_key o = K.
Proof. destruct o; simpl; try done. by intros ?%bool_decide_eq_true. Qed.

(** A worker only writes history entries under its own key. *)
Lemma run_worker_history c w st s s' ws :
  heap s !! w = Some ws → _run_worker c w st s = Some s' →
  ∃ new, history s' = new ++ history s ∧
         Forall (λ o, obs_key o = task_key ws) new.
Proof.
  intros Hw0 H. worker_cases H ws' Hw Hpc; simplify_eq/=;
    first [ by exists [] | by eexists [_]; repeat constructor
          | by eexists [_; _]; repeat constructor ].
Qed.

(** Frame: an event that is neither an [enqueue] for [K] nor a step of
    the worker registered for [K] leaves everything about [K] alone. *)
Lemma step_frame c K ev s s' :
  wf c s → step c ev s = Some s' → quiet K ev s = true →
  (∀ w st, ev = EvWorker w st → _states s !! K ≠ Some w) →
  _states s' !! K = _states s !! K ∧ worker_of K s' = worker_of K s ∧
  starts K s' = starts K s ∧ ends K s' = ends K s.
Proof.
  intros Hwf Hstep Hq Hown. destruct ev as [k f|w st|dt]; simpl in *.
  - apply negb_true_iff, bool_decide_eq_false in Hq.
    destruct (enqueue_spec _ _ _ _ _ Hwf Hstep)
      as [(w & ws & Hk & Hw & Hkey & Hpc & ->)|[Hk ->]];
      unfold worker_of, starts, ends; simpl.
    + split_and!; try done.
      destruct (_states s !! K) as [w0|] eqn:HK; simpl; [|done].
      rewrite list_lookup_insert_ne; [done|]. intros ->.
      destruct (wf_registered _ _ Hwf _ _ HK) as (ws0 & Hw0 & Hkey0 & _).
      congruence.
    + rewrite lookup_insert_ne by done. split_and!; try done.
      destruct (_states s !! K) as [w0|] eqn:HK; simpl; [|done].
      destruct (wf_registered _ _ Hwf _ _ HK) as (ws0 & Hw0 & _).
      by rewrite lookup_app_l by (by eapply lookup_lt_Some).
  - specialize (Hown _ _ eq_refl).
    destruct (run_worker_shape _ _ _ _ _ Hstep)
      as (ws & ws' & Hw & Hh & Hpc & Hk & _ & _ & _ & Hreg).
    destruct (run_worker_history _ _ _ _ _ _ Hw Hstep) as (new & Hhist & Hnew).
    assert (task_key ws ≠ K) as HneK.
    { intros <-. by apply Hown, (wf_live _ _ Hwf). }
    assert (_states s' !! K = _states s !! K) as HK.
    { destruct Hreg as [[-> _]|[-> _]]; [done|]. by rewrite lookup_delete_ne. }
    assert (Forall (λ o, obs_key o ≠ K) new) as Hnew'.
    { eapply Forall_impl; [done|]. simpl. congruence. }
    unfold worker_of, starts, ends. rewrite HK, Hh, Hhist, !count_if_app.
    rewrite (count_if_other_key K is_start), (count_if_other_key K is_end);
      auto using is_start_key, is_end_key.
    split_and!; try done.
    destruct (_states s !! K) as [w0|] eqn:HK0; simpl; [|done].
    rewrite list_lookup_insert_ne; [done|]. congruence.
  - by simplify_eq.
Qed.

Lemma worker_of_Some K s ws :
  worker_of K s = Some ws → ∃ w, _states s !! K = Some w ∧ heap s !! w = Some ws.
Proof.
  unfold worker_of. destruct (_states s !! K) as [w|]; simpl; [|done]. eauto.
Qed.

Lemma worker_of_intro K s w ws :
  _states s !! K = Some w → heap s !! w = Some ws → worker_of K s = Some ws.
Proof. unfold worker_of. intros ->. done. Qed.

Lemma worker_of_registered c K s w :
  wf c s → _states s !! K = Some w →
  ∃ ws, heap s !! w = Some ws ∧ worker_of K s = Some ws ∧ task_key ws = K ∧
        task_pc ws ≠ Exited.
Proof.
  intros Hwf HK. destruct (wf_registered _ _ Hwf _ _ HK) as (ws & Hw & Hk & Hpc).
  exists ws. split_and!; try done. by eapply worker_of_intro.
Qed.


Lemma worker_of_None K s : _states s !! K = None → worker_of K s = None.
Proof. unfold worker_of. by intros ->. Qed.

Lemma pending_None K s : _states s !! K = None → pending K s = 0.
Proof. intros HN. unfold pending. by rewrite (worker_of_None _ _ HN). Qed.

(** Normal form of the measures after a step of the worker [w]
    registered for its key. *)
Ltac own_simpl HK Hw :=
  unfold pending, worker_of, starts, ends, owed, cleanup in *; simpl in *;
  rewrite ?HK, ?lookup_delete_eq in *; simpl in *;
  rewrite ?Hw in *; simpl in *;
  rewrite ?list_lookup_insert_eq by (by eapply lookup_lt_Some); simpl;
  rewrite ?bool_decide_eq_true_2 by done; simpl.

(** Conservation: apart from [enqueue] for [K], no step changes the
    number of executions started plus those still owed, except that a
    fault forfeits what its worker owes. *)
Lemma step_owed c K ev s s' :
  wf c s → step c ev s = Some s' → quiet K ev s = true →
  starts K s ≤ starts K s' ∧
  starts K s' + pending K s' ≤ starts K s + pending K s ∧
  (no_fault K ev s = true →
   starts K s' + pending K s' = starts K s + pending K s).
Proof.
  intros Hwf Hstep Hq.
  assert ((∀ w st, ev = EvWorker w st → _states s !! K ≠ Some w) →
          starts K s ≤ starts K s' ∧
          starts K s' + pending K s' ≤ starts K s + pending K s ∧
          (no_fault K ev s = true →
           starts K s' + pending K s' = starts K s + pending K s)) as Hframe.
  { intros Hno. destruct (step_frame _ K _ _ _ Hwf Hstep Hq Hno) as (HK & Hwk & Hst & _).
    unfold pending. rewrite Hwk, Hst. lia. }
  destruct ev as [k f|w st|dt]; try (by apply Hframe).
  destruct (decide (_states s !! K = Some w)) as [HK|HK];
    [|apply Hframe; by intros ?? [= <- <-]].
  clear Hframe. simpl in Hstep.
  destruct (worker_of_registered _ _ _ _ Hwf HK) as (ws0 & Hw0 & _ & Hkey & _).
  subst K. worker_cases Hstep ws Hw Hpc; simplify_eq;
    own_simpl HK Hw; rewrite ?Hpc; simpl;
    destruct (signal ws0) eqn:Hsig; simplify_eq/=; split_and!; intros; lia.
Qed.

(** Induction along a guarded run. *)
Lemma run_invariant c (G : event → state → bool) (I : state → Prop) evs s s' :
  (∀ ev s s', wf c s → I s → G ev s = true → step c ev s = Some s' → I s') →
  wf c s → I s → run c evs s = Some s' → along c G evs s = true → I s'.
Proof.
  intros Hstep. revert s; induction evs as [|ev evs IH]; simpl; intros s Hwf HI Hrun Hg.
  - by simplify_eq.
  - apply andb_true_iff in Hg as [Hg1 Hg2].
    destruct (step c ev s) as [s1|] eqn:Hs; [|done].
    eapply (IH s1); eauto using step_wf.
Qed.

Lemma run_owed_le c K evs s s' :
  wf c s → run c evs s = Some s' → along c (quiet K) evs s = true →
  starts K s ≤ starts K s' ∧
  starts K s' + pending K s' ≤ starts K s + pending K s.
Proof.
  intros Hwf Hrun Hq.
  eapply (run_invariant c (quiet K)
            (λ x, starts K s ≤ starts K x ∧
                  starts K x + pending K x ≤ starts K s + pending K s));
    [|done|lia|done|done].
  intros ev s1 s2 Hwf1 [H1 H2] Hg Hs.
  destruct (step_owed _ K _ _ _ Hwf1 Hs Hg) as (? & ? & _). lia.
Qed.

Lemma run_owed_eq c K evs s s' :
  wf c s → run c evs s = Some s' →
  along c (both (quiet K) (no_fault K)) evs s = true →
  starts K s' + pending K s' = starts K s + pending K s.
Proof.
  intros Hwf Hrun Hq.
  eapply (run_invariant c (both (quiet K) (no_fault K))
            (λ x, starts K x + pending K x = starts K s + pending K s));
    [|done|lia|done|done].
  intros ev s1 s2 Hwf1 H1 [Hg1 Hg2]%andb_true_iff Hs.
  destruct (step_owed _ K _ _ _ Hwf1 Hs Hg1) as (_ & _ & Heq).
  rewrite Heq; done.
Qed.

Lemma run_invariant_all c (I : state → Prop) evs s s' :
  (∀ ev s s', wf c s → I s → step c ev s = Some s' → I s') →
  wf c s → I s → run c evs s = Some s' → I s'.
Proof.
  intros Hstep. revert s; induction evs as [|ev evs IH]; simpl; intros s Hwf HI Hrun.
  - by simplify_eq.
  - destruct (step c ev s) as [s1|] eqn:Hs; [|done].
    eapply (IH s1); eauto using step_wf.
Qed.

Lemma reachable_ind c (I : state → Prop) s :
  I (init c) →
  (∀ ev s s', wf c s → I s → step c ev s = Some s' → I s') →
  reachable c s → I s.
Proof.
  intros H0 Hstep [evs Hrun].
  eapply run_invariant_all; eauto using init_wf.
Qed.

(** Executions of a key that started and did not finish are those in
    the Running state. *)
Lemma step_balance c K ev s s' :
  wf c s → step c ev s = Some s' →
  starts K s = ends K s + running_for K s →
  starts K s' = ends K s' + running_for K s'.
Proof.
  intros Hwf Hstep Hb. destruct ev as [k f|w st|dt]; simpl in Hstep.
  - destruct (enqueue_spec _ _ _ _ _ Hwf Hstep)
      as [(w & ws & Hk & Hw & Hkey & Hpc & ->)|[Hk ->]];
      unfold starts, ends, running_for in *; simpl.
    + by rewrite (count_if_insert_same _ _ _ ws).
    + rewrite count_if_app. simpl. lia.
  - unfold starts, ends, running_for in *.
    worker_cases Hstep ws Hw Hpc; simpl;
      match goal with
      | |- context [count_if ?p (<[?i := ?y]> ?l)] =>
          pose proof (count_if_insert p l i ws y Hw) as Hc
      end; unfold is_running, has_key in *; simpl in *; rewrite Hpc in *;
      simpl in *; try case_bool_decide; simpl in *; lia.
  - by simplify_eq.
Qed.

Lemma reachable_balance c K s :
  reachable c s → starts K s = ends K s + running_for K s.
Proof.
  intros Hr.
  apply (reachable_ind c (λ x, starts K x = ends K x + running_for K x));
    [done| |done].
  intros ev s1 s2 Hwf Hb Hs. by eapply step_balance.
Qed.

(** At most one live worker per key, hence at most one running. *)
Lemma live_unique c K s :
  wf c s → count_if (λ ws, is_live ws && has_key K ws) (heap s) ≤ 1.
Proof.
  intros Hwf. apply Nat.nlt_ge. intros Hlt.
  destruct (count_if_two _ _ Hlt) as (i & j & x & y & Hij & Hi & Hj & Hx & Hy).
  apply andb_true_iff in Hx as [Hlx Hkx], Hy as [Hly Hky].
  apply bool_decide_eq_true in Hkx, Hky.
  assert (∀ ws, is_live ws = true → task_pc ws ≠ Exited) as Hlive.
  { intros ws. unfold is_live. by destruct (task_pc ws). }
  pose proof (wf_live _ _ Hwf _ _ Hi (Hlive _ Hlx)) as H1.
  pose proof (wf_live _ _ Hwf _ _ Hj (Hlive _ Hly)) as H2.
  congruence.
Qed.

Lemma count_if_le {A} (p q : A → bool) (l : list A) :
  (∀ x, p x = true → q x = true) → count_if p l ≤ count_if q l.
Proof.
  intros Hpq. induction l as [|x l IH]; simpl; [done|].
  destruct (p x) eqn:Hp; [rewrite (Hpq _ Hp)|]; simpl; lia.
Qed.

Lemma running_for_le_1 c K s : wf c s → running_for K s ≤ 1.
Proof.
  intros Hwf. etrans; [|by apply (live_unique c K)].
  apply count_if_le. intros ws [Hr ->]%andb_true_iff.
  unfold is_running, is_live in *. by destruct (task_pc ws).
Qed.

(** The steps of the worker registered for [K], one by one. *)
Lemma own_step c K w st s s' ws :
  wf c s → _states s !! K = Some w → heap s !! w = Some ws →
  _run_worker c w st s = Some s' →
  match st, task_pc ws with
  | Signalled, WaitingForSignal _ =>
      signal ws = true ∧ history s' = history s ∧ _states s' !! K = Some w ∧
      worker_of K s' = Some (set_pc (Debouncing (now s + debounce_window c)) ws)
  | TimerFired, WaitingForSignal d =>
      signal ws = false ∧ d ≤ now s ∧
      history s' = history s ∧ _states s' !! K = Some w ∧
      worker_of K s' = Some (set_pc TimedOut ws)
  | Exit, TimedOut =>
      history s' = history s ∧ _states s' !! K = None
  | Debounced, Debouncing t =>
      t ≤ now s ∧ history s' = history s ∧ _states s' !! K = Some w ∧
      worker_of K s' = Some (set_pc Admitting (set_signal false ws))
  | Acquired, Admitting =>
      history s' = ObsStart K w (task_job_factory ws) (now s) :: history s ∧
      _states s' !! K = Some w ∧
      worker_of K s' = Some (set_pc Running ws)
  | JobDone o, Running =>
      starts K s' = starts K s ∧ ends K s' = S (ends K s) ∧
      match o with
      | RaisedBaseException _ => _states s' !! K = None
      | _ => _states s' !! K = Some w ∧
             worker_of K s' =
               Some (set_pc (WaitingForSignal (now s + idle_timeout c)) ws)
      end
  | _, _ => False
  end.
Proof.
  intros Hwf HK Hw0 Hstep.
  destruct (worker_of_registered _ _ _ _ Hwf HK) as (ws0 & Hw1 & _ & Hkey & _).
  assert (ws0 = ws) as -> by congruence. subst K.
  unfold _run_worker in Hstep. rewrite Hw0 in Hstep.
  destruct st as [| | | | |o]; destruct (task_pc ws) eqn:Hpc; try done;
    simpl in Hstep;
    repeat match type of Hstep with
           | context [if ?b then _ else _] => destruct b eqn:?
           | context [match ?x with _ => _ end] => destruct x eqn:?
           end; try done; simplify_eq/=;
    own_simpl HK Hw0; split_and?; try done;
    repeat match goal with
           | H : _ && _ = true |- _ => apply andb_true_iff in H as [? ?]
           end;
    try (by apply negb_true_iff); try (by apply Nat.leb_le).
Qed.

(** ** Which factory a worker runs *)

(** Key and factory of a worker object never change, and objects are
    never removed from the heap. *)
Lemma step_heap_mono c ev s s' w ws :
  wf c s → step c ev s = Some s' → heap s !! w = Some ws →
  ∃ ws', heap s' !! w = Some ws' ∧ task_key ws' = task_key ws ∧
         task_job_factory ws' = task_job_factory ws.
Proof.
  intros Hwf Hstep Hw. pose proof (lookup_lt_Some _ _ _ Hw) as Hlt.
  destruct ev as [k f|w0 st|dt]; simpl in Hstep.
  - destruct (enqueue_spec _ _ _ _ _ Hwf Hstep)
      as [(w1 & ws1 & Hk & Hw1 & Hkey & Hpc & ->)|[Hk ->]]; simpl.
    + destruct (decide (w = w1)) as [->|Hne].
      * rewrite list_lookup_insert_eq by done. simplify_eq. by eexists.
      * rewrite list_lookup_insert_ne by done. by eexists.
    + rewrite lookup_app_l by done. by eexists.
  - destruct (run_worker_shape _ _ _ _ _ Hstep)
      as (ws0 & ws0' & Hw0 & -> & _ & Hk & Hf & _).
    destruct (decide (w = w0)) as [->|Hne].
    + rewrite list_lookup_insert_eq by done. simplify_eq. by eexists.
    + rewrite list_lookup_insert_ne by done. by eexists.
  - simplify_eq/=. by eexists.
Qed.

Lemma names_worker_mono c ev s s' o :
  wf c s → step c ev s = Some s' → names_worker s o → names_worker s' o.
Proof.
  intros Hwf Hstep. destruct o; simpl; try done.
  all: intros (ws & Hw & <- & <-);
    destruct (step_heap_mono _ _ _ _ _ _ Hwf Hstep Hw) as (ws' & ? & ? & ?);
    by exists ws'.
Qed.

Lemma step_factory_inv c ev s s' :
  wf c s → factory_inv s → step c ev s = Some s' → factory_inv s'.
Proof.
  intros Hwf [Hh Hs] Hstep.
  assert (Forall (names_worker s') (history s)) as Hh'.
  { eapply Forall_impl; [done|]. intros o. by eapply names_worker_mono. }
  destruct ev as [k f|w st|dt]; simpl in Hstep.
  - destruct (enqueue_spec _ _ _ _ _ Hwf Hstep)
      as [(w1 & ws1 & Hk & Hw1 & Hkey & Hpc & ->)|[Hk ->]]; simpl in *.
    + split; simpl; [by constructor|].
      intros w ws Hw. apply list_elem_of_further.
      destruct (decide (w = w1)) as [->|Hne].
      * rewrite list_lookup_insert_eq in Hw by (by eapply lookup_lt_Some).
        simplify_eq/=. by apply Hs.
      * rewrite list_lookup_insert_ne in Hw by done. by apply Hs.
    + split; simpl.
      * constructor; [done|]. constructor; [|done]. simpl.
        eexists. rewrite lookup_app_r, Nat.sub_diag by done. done.
      * intros w ws Hw. apply list_elem_of_further.
        destruct (decide (w < length (heap s))) as [Hlt|Hge].
        -- rewrite lookup_app_l in Hw by done. apply list_elem_of_further. by apply Hs.
        -- rewrite lookup_app_r in Hw by lia.
           destruct (w - length (heap s)) as [|n] eqn:Hd; simplify_eq/=.
           assert (w = length (heap s)) as -> by lia. apply list_elem_of_here.
  - assert (∀ w0 ws0, heap s' !! w0 = Some ws0 →
              ObsSpawn (task_key ws0) w0 (task_job_factory ws0) ∈ history s) as Hs'.
    { destruct (run_worker_shape _ _ _ _ _ Hstep)
        as (ws & ws' & Hw & -> & _ & Hk & Hf & _).
      intros w0 ws0 Hw0. destruct (decide (w0 = w)) as [->|Hne].
      - rewrite list_lookup_insert_eq in Hw0 by (by eapply lookup_lt_Some).
        simplify_eq. rewrite Hk, Hf. by apply Hs.
      - rewrite list_lookup_insert_ne in Hw0 by done. by apply Hs. }
    unfold factory_inv.
    worker_cases Hstep ws Hw Hpc; simpl in *;
      (split; [repeat (first [exact Hh' | constructor; [simpl|]]); try done|
               intros; repeat apply list_elem_of_further; by apply Hs']).
    eexists. rewrite list_lookup_insert_eq by (by eapply lookup_lt_Some). done.
  - by simplify_eq/=.
Qed.

Lemma reachable_factory_inv c s : reachable c s → factory_inv s.
Proof.
  intros Hr. apply (reachable_ind c factory_inv); [|by apply step_factory_inv|done].
  split; [constructor|]. intros w ws Hw. by destruct w.
Qed.

(** ** Histories without overlap *)

Example serial_rejects_overlap :
  serial "A" [ObsStart "A" 1 7 5; ObsStart "A" 0 7 3] = None ∧
  serial "A" [ObsEnd "A" 1 Returned 9; ObsStart "A" 1 7 5;
              ObsEnd "A" 0 Returned 4; ObsStart "A" 0 7 3] = Some false ∧
  serial "A" [ObsStart "B" 1 7 5; ObsStart "A" 0 7 3] = Some true.
Proof. by vm_compute. Qed.

Lemma serial_neutral K new h :
  Forall (λ o, is_start K o = false ∧ is_end K o = false) new →
  serial K (new ++ h) = serial K h.
Proof.
  induction 1 as [|o new [H1 H2] _ IH]; simpl; [done|].
  rewrite IH, H1, H2. by destruct (serial K h).
Qed.

Lemma obs_other_key K o :
  obs_key o ≠ K → is_start K o = false ∧ is_end K o = false.
Proof.
  intros Hne. split.
  - destruct (is_start K o) eqn:H; [|done]. by apply is_start_key in H.
  - destruct (is_end K o) eqn:H; [|done]. by apply is_end_key in H.
Qed.

(** A worker of [K] that is live and not running: nothing of [K] runs. *)
Lemma running_for_0 c K s w ws :
  wf c s → heap s !! w = Some ws → task_key ws = K →
  task_pc ws ≠ Exited → task_pc ws ≠ Running → running_for K s = 0.
Proof.
  intros Hwf Hw Hk Hlive Hnr.
  destruct (running_for K s) as [|n] eqn:Hn; [done|].
  destruct (count_if_pos (λ x, is_running x && has_key K x) (heap s))
    as (w' & ws' & Hw' & [Hr Hk']%andb_true_iff);
    [unfold running_for in Hn; lia|].
  apply bool_decide_eq_true in Hk'. unfold is_running in Hr.
  assert (task_pc ws' = Running) as Hpc' by by destruct (task_pc ws').
  assert (w' = w) as ->.
  { pose proof (wf_live _ _ Hwf _ _ Hw Hlive) as H1.
    pose proof (wf_live _ _ Hwf w' ws' Hw') as H2.
    rewrite Hpc', Hk', <- Hk in H2. assert (Some w' = Some w) as [= ->]; [|done].
    rewrite <- H1. symmetry. by apply H2. }
  congruence.
Qed.

Lemma running_for_1 c K s w ws :
  wf c s → heap s !! w = Some ws → task_key ws = K →
  task_pc ws = Running → running_for K s = 1.
Proof.
  intros Hwf Hw Hk Hpc. pose proof (running_for_le_1 _ K _ Hwf) as Hle.
  destruct (running_for K s) as [|n] eqn:Hn; [|lia].
  exfalso. unfold running_for in Hn.
  pose proof (count_if_lookup (λ x, is_running x && has_key K x) _ _ _ Hw) as H1.
  assert (is_running ws && has_key K ws = true) as Hp.
  { unfold is_running, has_key. by rewrite Hpc, bool_decide_eq_true_2. }
  specialize (H1 Hp). lia.
Qed.

Lemma step_serial c K ev s s' :
  wf c s → starts K s = ends K s + running_for K s →
  serial K (history s) = Some (bool_decide (running_for K s = 1)) →
  step c ev s = Some s' →
  serial K (history s') = Some (bool_decide (running_for K s' = 1)).
Proof.
  intros Hwf Hbal Hser Hstep.
  pose proof (step_wf _ _ _ _ Hwf Hstep) as Hwf'.
  destruct ev as [k f|w st|dt]; simpl in Hstep.
  - destruct (enqueue_spec _ _ _ _ _ Hwf Hstep)
      as [(w & ws & Hk & Hw & Hkey & Hpc & ->)|[Hk ->]];
      unfold running_for in *; simpl in *.
    + rewrite (count_if_insert_same _ _ _ ws) by done. by rewrite Hser.
    + rewrite count_if_app. simpl. rewrite Nat.add_0_r. by rewrite Hser.
  - destruct (run_worker_shape _ _ _ _ _ Hstep)
      as (ws & ws' & Hw & _ & Hlive & _).
    destruct (decide (task_key ws = K)) as [HK|HK].
    + pose proof (wf_live _ _ Hwf _ _ Hw Hlive) as Hreg. rewrite HK in Hreg.
      pose proof (own_step _ _ _ _ _ _ _ Hwf Hreg Hw Hstep) as Hown.
      pose proof (step_balance c K (EvWorker w st) s s' Hwf Hstep Hbal) as Hbal'.
      pose proof (running_for_le_1 _ K _ Hwf') as Hle'.
      assert (running_for K s' = running_for K s →
              history s' = history s →
              serial K (history s') = Some (bool_decide (running_for K s' = 1)))
        as Hsame by (intros Hr Hh; by rewrite Hh, Hser, Hr).
      unfold starts, ends in *.
      destruct st as [| | | | |o]; destruct (task_pc ws) eqn:Hpc; try done.
      * destruct Hown as (_ & Hh & _). apply Hsame; [|done]. rewrite Hh in Hbal'. lia.
      * destruct Hown as (_ & _ & Hh & _). apply Hsame; [|done]. rewrite Hh in Hbal'. lia.
      * destruct Hown as (Hh & _). apply Hsame; [|done]. rewrite Hh in Hbal'. lia.
      * destruct Hown as (_ & Hh & _). apply Hsame; [|done]. rewrite Hh in Hbal'. lia.
      * destruct Hown as (Hh & _).
        assert (running_for K s = 0) as H0
          by (apply (running_for_0 c K s w ws); rewrite ?Hpc; done).
        rewrite Hh in Hbal'. simpl in Hbal'.
        rewrite bool_decide_eq_true_2 in Hbal' by done. simpl in Hbal'.
        assert (running_for K s' = 1) as H1' by lia.
        rewrite Hh. simpl. rewrite Hser, H0, H1'.
        by rewrite bool_decide_eq_true_2 by done.
      * destruct Hown as (Hst & Hen & _).
        pose proof (running_for_1 _ K _ _ _ Hwf Hw HK Hpc) as H1.
        assert (running_for K s' = 0) as H0' by lia.
        rewrite H0', bool_decide_eq_false_2 by done.
        unfold _run_worker in Hstep. rewrite Hw, Hpc in Hstep.
        assert (is_start K (ObsEnd (task_key ws) w o (now s)) = false) as Hns by done.
        assert (is_end K (ObsEnd (task_key ws) w o (now s)) = true) as He
          by (simpl; by rewrite bool_decide_eq_true_2).
        rewrite H1, bool_decide_eq_true_2 in Hser by done.
        destruct o; simpl in Hstep; repeat case_match; simplify_eq/=;
          rewrite Hser; simpl; by rewrite ?bool_decide_eq_true_2 by done.
    + destruct (run_worker_history _ _ _ _ _ _ Hw Hstep) as (new & Hh & Hnew).
      assert (Forall (λ o, is_start K o = false ∧ is_end K o = false) new) as Hn.
      { eapply Forall_impl; [done|]. intros o Ho. apply obs_other_key. congruence. }
      assert (running_for K s' = running_for K s) as Hrun.
      { pose proof (step_balance c K (EvWorker w st) s s' Hwf Hstep Hbal) as Hbal'.
        assert (Forall (λ o, obs_key o ≠ K) new) as Hn2.
        { eapply Forall_impl; [exact Hnew|]. simpl. congruence. }
        unfold starts, ends in *. rewrite Hh, !count_if_app in Hbal'.
        rewrite (count_if_other_key K is_start) in Hbal'
          by auto using is_start_key.
        rewrite (count_if_other_key K is_end) in Hbal' by auto using is_end_key.
        lia. }
      by rewrite Hh, (serial_neutral _ _ _ Hn), Hser, Hrun.
  - simplify_eq/=. unfold running_for in *. simpl. done.
Qed.

Lemma reachable_serial c K s :
  reachable c s →
  serial K (history s) = Some (bool_decide (running_for K s = 1)).
Proof.
  intros Hr.
  apply (reachable_ind c
           (λ x, starts K x = ends K x + running_for K x ∧
                 serial K (history x) = Some (bool_decide (running_for K x = 1)))
           s); [done| |done].
  intros ev x y Hwf [Hb Hs] Hstep. split.
  - by eapply step_balance.
  - by eapply step_serial.
Qed.

(** ** Serialization and the concurrency bound *)

(** C2. In every reachable state at most one Job execution of a key [K]
    is in the Running state, and at most one worker of [K] is live.
    The executions of [K] never overlap: read from its beginning, the
    history has every start of [K] at a moment when no execution of [K]
    is open, and the executions of [K] that have started and not
    finished are exactly those running. *)
Theorem per_key_serialization c evs s K :
  run c evs (init c) = Some s →
  running_for K s ≤ 1 ∧
  count_if (λ ws, is_live ws && has_key K ws) (heap s) ≤ 1 ∧
  starts K s = ends K s + running_for K s ∧
  serial K (history s) = Some (bool_decide (running_for K s = 1)).
Proof.
  intros Hrun. assert (reachable c s) as Hr by by exists evs.
  pose proof (reachable_wf _ _ Hr) as Hwf.
  split_and!;
    eauto using running_for_le_1, live_unique, reachable_balance, reachable_serial.
Qed.

Lemma per_key_serialization_witness :
  ∃ s, run default_config two_keys (init default_config) = Some s ∧
       running_for "A" s = 1 ∧
       (running_for "A" s ≤ 1 ∧
        count_if (λ ws, is_live ws && has_key "A" ws) (heap s) ≤ 1 ∧
        starts "A" s = ends "A" s + running_for "A" s ∧
        serial "A" (history s) = Some (bool_decide (running_for "A" s = 1))).
Proof.
  eexists. split; [vm_compute; reflexivity|]. split; [vm_compute; reflexivity|].
  apply (per_key_serialization default_config two_keys). vm_compute; reflexivity.
Defined.

(** C3. In every reachable state the number of Job executions in the
    Running state, over all keys, is at most [max_concurrent_keys]: the
    free slots of the semaphore and the running executions add up to
    it.  Only executions count: waiting and debouncing workers hold no
    slot. *)
Theorem concurrency_bound c evs s :
  run c evs (init c) = Some s →
  running_count s ≤ max_concurrent_keys c ∧
  _key_semaphore s + running_count s = max_concurrent_keys c.
Proof.
  intros Hrun. assert (reachable c s) as Hr by by exists evs.
  pose proof (wf_slots _ _ (reachable_wf _ _ Hr)). lia.
Qed.

Lemma concurrency_bound_witness :
  ∃ s, run default_config two_keys (init default_config) = Some s ∧
       running_count s = 2 ∧
       (running_count s ≤ max_concurrent_keys default_config ∧
        _key_semaphore s + running_count s = max_concurrent_keys default_config).
Proof.
  eexists. split; [vm_compute; reflexivity|]. split; [vm_compute; reflexivity|].
  apply (concurrency_bound default_config two_keys). vm_compute; reflexivity.
Defined.

(** With a budget of one, the second worker is held in Admitting while
    the first one runs: it is live and registered, and not counted. *)
Example second_worker_waits_for_slot :
  ∃ s, run (Config 800 5000 1)
         [EvEnqueue "A" 1; EvEnqueue "B" 2;
          EvWorker 0 Signalled; EvWorker 1 Signalled; EvAdvance 800;
          EvWorker 0 Debounced; EvWorker 1 Debounced; EvWorker 0 Acquired]
         (init (Config 800 5000 1)) = Some s ∧
       running_count s = 1 ∧ count_if is_live (heap s) = 2 ∧
       task_pc <$> worker_of "B" s = Some Admitting ∧
       _run_worker (Config 800 5000 1) 1 Acquired s = None.
Proof. eexists. split; [vm_compute; reflexivity|]. by vm_compute. Qed.

(** ** enqueue *)

(** C8. In every reachable state [enqueue] goes through at once: the
    lock is free, no operation of its body can raise, and it returns
    without any job being started or finished.  Its effects are to set
    the signal of the worker of the key, after registering a new worker
    when the key has none; clock, semaphore, job history and all other
    workers are as before. *)
Theorem enqueue_returns c evs s K f :
  run c evs (init c) = Some s →
  ∃ s', enqueue c K f s = Some s' ∧
    now s' = now s ∧ _lock s' = false ∧
    _key_semaphore s' = _key_semaphore s ∧
    running_count s' = running_count s ∧
    (∀ k, starts k s' = starts k s ∧ ends k s' = ends k s) ∧
    (∃ ws', worker_of K s' = Some ws' ∧ signal ws' = true ∧ task_key ws' = K) ∧
    match _states s !! K with
    | Some w =>
        _states s' = _states s ∧
        ∃ ws, heap s !! w = Some ws ∧
              heap s' = <[w := set_signal true ws]> (heap s)
    | None =>
        _states s' = <[K := length (heap s)]> (_states s) ∧
        heap s' = heap s ++
          [Worker true K f (WaitingForSignal (now s + idle_timeout c))]
    end.
Proof.
  intros Hrun. assert (reachable c s) as Hr by by exists evs.
  pose proof (reachable_wf _ _ Hr) as Hwf.
  destruct (enqueue c K f s) as [s'|] eqn:He.
  2: { unfold enqueue in He. rewrite (wf_lock _ _ Hwf) in He.
       by destruct (_states s !! K). }
  exists s'. split; [done|].
  destruct (enqueue_spec _ _ _ _ _ Hwf He)
    as [(w & ws & Hk & Hw & Hkey & Hpc & ->)|[Hk ->]];
    unfold running_count, starts, ends, worker_of; simpl; rewrite Hk;
    split_and!; try done.
  - by rewrite (count_if_insert_same _ _ _ ws).
  - exists (set_signal true ws). simpl.
    by rewrite list_lookup_insert_eq by (by eapply lookup_lt_Some).
  - by exists ws.
  - rewrite count_if_app. simpl. lia.
  - eexists. rewrite lookup_insert_eq. simpl.
    rewrite lookup_app_r, Nat.sub_diag by done. done.
Qed.

Lemma enqueue_returns_witness :
  ∃ s s', run default_config one_running (init default_config) = Some s ∧
          enqueue default_config "A" 8 s = Some s' ∧
          signal <$> worker_of "A" s' = Some true ∧
          task_pc <$> worker_of "A" s' = Some Running ∧
          length (heap s') = 1.
Proof.
  destruct (enqueue_returns default_config one_running
              (default (init default_config)
                 (run default_config one_running (init default_config)))
              "A" 8) as (s' & He & _); [vm_compute; reflexivity|].
  eexists _, s'. split; [vm_compute; reflexivity|]. split; [exact He|].
  vm_compute in He. injection He as <-. by vm_compute.
Defined.

(** C10. While a worker is registered for a key, the factory passed to
    [enqueue] is discarded: the call has the same effect whatever
    factory it is given.  Every Job execution invokes the factory with
    which its worker was spawned, and a worker is spawned with one
    factory only, the one of the [enqueue] call that created it. *)
Theorem worker_keeps_first_factory c evs s :
  run c evs (init c) = Some s →
  (∀ K g g', is_Some (_states s !! K) → enqueue c K g s = enqueue c K g' s) ∧
  (∀ K w f t, ObsStart K w f t ∈ history s → ObsSpawn K w f ∈ history s) ∧
  (∀ K K' w f f', ObsSpawn K w f ∈ history s → ObsSpawn K' w f' ∈ history s →
                  K = K' ∧ f = f').
Proof.
  intros Hrun. assert (reachable c s) as Hr by by exists evs.
  destruct (reachable_factory_inv _ _ Hr) as [Hh Hs].
  rewrite Forall_forall in Hh. split_and!.
  - intros K g g' [w HK]. unfold enqueue. by rewrite HK.
  - intros K w f t Hin. destruct (Hh _ Hin) as (ws & Hw & <- & <-). by apply Hs.
  - intros K K' w f f' H1 H2.
    destruct (Hh _ H1) as (ws & Hw & <- & <-).
    destruct (Hh _ H2) as (ws' & Hw' & <- & <-). by simplify_eq.
Qed.

Lemma worker_keeps_first_factory_witness :
  ∃ s, run default_config second_factory (init default_config) = Some s ∧
       ObsStart "A" 0 7 800 ∈ history s ∧
       ((∀ K g g', is_Some (_states s !! K) →
           enqueue default_config K g s = enqueue default_config K g' s) ∧
        (∀ K w f t, ObsStart K w f t ∈ history s → ObsSpawn K w f ∈ history s) ∧
        (∀ K K' w f f', ObsSpawn K w f ∈ history s →
           ObsSpawn K' w f' ∈ history s → K = K' ∧ f = f')).
Proof.
  eexists. split; [vm_compute; reflexivity|].
  split; [apply list_elem_of_here|].
  apply (worker_keeps_first_factory default_config second_factory).
  vm_compute; reflexivity.
Defined.

(** ** A job that raises *)

(** C7, as stated, fails: an exception outside [Exception] is neither
    caught nor logged; it ends the worker, which removes its key.  The
    slot is released all the same. *)
Lemma base_exception_ends_worker :
  ∃ s, run default_config cancelled_job (init default_config) = Some s ∧
       task_pc <$> heap s !! 0 = Some Exited ∧
       _states s !! "A" = None ∧
       count_if is_log (history s) = 0 ∧
       _key_semaphore s = max_concurrent_keys default_config.
Proof. eexists. split; [vm_compute; reflexivity|]. by vm_compute. Qed.

(** C7, amended. A job that raises an [Exception] is handled in place:
    the error is logged under the key, and apart from that log entry the
    state is the one a normal return leaves: the slot is released, the
    worker stays registered and is back at the head of its loop with
    its signal untouched, so the run-again rule applies as after a
    success.  The slot is released on every way out of the job. *)
Theorem job_exception_recovered c evs s w ws e :
  run c evs (init c) = Some s →
  heap s !! w = Some ws → task_pc ws = Running →
  ∃ s_err s_ok,
    _run_worker c w (JobDone (RaisedException e)) s = Some s_err ∧
    _run_worker c w (JobDone Returned) s = Some s_ok ∧
    history s_err =
      ObsLog (task_key ws) e ::
      ObsEnd (task_key ws) w (RaisedException e) (now s) :: history s ∧
    history s_ok = ObsEnd (task_key ws) w Returned (now s) :: history s ∧
    heap s_err = heap s_ok ∧ _states s_err = _states s_ok ∧
    _key_semaphore s_err = _key_semaphore s_ok ∧
    now s_err = now s_ok ∧ _lock s_err = _lock s_ok ∧
    _key_semaphore s_err = S (_key_semaphore s) ∧
    _states s_err = _states s ∧
    heap s_err =
      <[w := set_pc (WaitingForSignal (now s + idle_timeout c)) ws]> (heap s) ∧
    worker_of (task_key ws) s_err =
      Some (set_pc (WaitingForSignal (now s + idle_timeout c)) ws) ∧
    (∀ o, ∃ s', _run_worker c w (JobDone o) s = Some s' ∧
                _key_semaphore s' = S (_key_semaphore s)).
Proof.
  intros Hrun Hw Hpc. assert (reachable c s) as Hr by by exists evs.
  pose proof (reachable_wf _ _ Hr) as Hwf.
  assert (task_pc ws ≠ Exited) as Hlive by by rewrite Hpc.
  pose proof (wf_live _ _ Hwf _ _ Hw Hlive) as HK.
  unfold _run_worker. rewrite Hw, Hpc. do 2 eexists.
  split; [reflexivity|]. split; [reflexivity|]. simpl.
  split_and!; try done.
  - unfold worker_of. simpl. rewrite HK. simpl.
    by rewrite list_lookup_insert_eq by (by eapply lookup_lt_Some).
  - intros [| |]; rewrite ?(wf_lock _ _ Hwf); by eexists.
Qed.

Lemma job_exception_recovered_witness :
  ∃ s s_err, run default_config one_running (init default_config) = Some s ∧
    _run_worker default_config 0 (JobDone (RaisedException "boom")) s = Some s_err ∧
    history s_err = ObsLog "A" "boom" :: ObsEnd "A" 0 (RaisedException "boom") 800 :: history s ∧
    task_pc <$> worker_of "A" s_err = Some (WaitingForSignal (800 + 5000)) ∧
    _key_semaphore s_err = 20.
Proof.
  destruct (job_exception_recovered default_config one_running
              (default (init default_config)
                 (run default_config one_running (init default_config)))
              0 (Worker false "A" 7 Running) "boom")
    as (s_err & s_ok & He & _); [vm_compute; reflexivity|reflexivity|reflexivity|].
  eexists _, s_err. split; [vm_compute; reflexivity|]. split; [exact He|].
  vm_compute in He. injection He as <-. by vm_compute.
Defined.

(** ** The idle exit *)

(** Once the timer has fired the worker is committed to exiting: no
    event, and no signal, brings it back into its loop. *)
Lemma step_doomed c ev s s' w ws :
  wf c s → heap s !! w = Some ws → doomed ws → step c ev s = Some s' →
  ∃ ws', heap s' !! w = Some ws' ∧ doomed ws'.
Proof.
  intros Hwf Hw Hd Hstep. pose proof (lookup_lt_Some _ _ _ Hw) as Hlt.
  destruct ev as [k f|w0 st|dt]; simpl in Hstep.
  - destruct (enqueue_spec _ _ _ _ _ Hwf Hstep)
      as [(w1 & ws1 & Hk & Hw1 & Hkey & Hpc & ->)|[Hk ->]]; simpl.
    + destruct (decide (w = w1)) as [->|Hne].
      * rewrite list_lookup_insert_eq by done. simplify_eq. by eexists.
      * rewrite list_lookup_insert_ne by done. by eexists.
    + rewrite lookup_app_l by done. by eexists.
  - destruct (decide (w = w0)) as [<-|Hne].
    + worker_cases Hstep ws1 Hw1 Hpc; simplify_eq/=;
        destruct Hd as [Hd|Hd]; try congruence.
      eexists. rewrite list_lookup_insert_eq by done. split; [done|by right].
    + destruct (run_worker_shape _ _ _ _ _ Hstep) as (? & ? & _ & -> & _).
      rewrite list_lookup_insert_ne by done. by eexists.
  - simplify_eq/=. by eexists.
Qed.

Lemma run_doomed c evs s s' w ws :
  wf c s → heap s !! w = Some ws → doomed ws → run c evs s = Some s' →
  ∃ ws', heap s' !! w = Some ws' ∧ doomed ws'.
Proof.
  intros Hwf Hw Hd Hrun.
  apply (run_invariant_all c (λ x, ∃ ws', heap x !! w = Some ws' ∧ doomed ws')
           evs s s'); eauto.
  intros ev s1 s2 Hwf1 (ws1 & Hw1 & Hd1) Hs. by eapply step_doomed.
Qed.

(** The registry holds a key exactly when a worker of that key is live
    (its task has not finished). *)
Lemma registered_iff_live c s K :
  wf c s →
  is_Some (_states s !! K) ↔
  ∃ w ws, heap s !! w = Some ws ∧ task_key ws = K ∧ task_pc ws ≠ Exited.
Proof.
  intros Hwf. split.
  - intros [w HK]. destruct (wf_registered _ _ Hwf _ _ HK) as (ws & ? & ? & ?).
    by exists w, ws.
  - intros (w & ws & Hw & <- & Hpc). exists w. by eapply wf_live.
Qed.


(** Inside that window the call is lost: it sets the signal of a worker
    that will not look at it again, and no execution follows until the
    next [enqueue]. *)
Lemma enqueue_after_timer_lost c K f s ws s1 evs s2 :
  wf c s → worker_of K s = Some ws → task_pc ws = TimedOut →
  enqueue c K f s = Some s1 →
  run c evs s1 = Some s2 → along c (quiet K) evs s1 = true →
  starts K s2 = starts K s.
Proof.
  intros Hwf Hwk Hpc He Hrun Hq.
  destruct (worker_of_Some _ _ _ Hwk) as (w & HK & Hw).
  assert (starts K s1 = starts K s ∧ pending K s1 = 0) as [Hst Hp].
  { destruct (enqueue_spec _ _ _ _ _ Hwf He)
      as [(w' & ws' & HK' & Hw' & _ & _ & ->)|[HK' _]]; [|congruence].
    simplify_eq. unfold starts, pending, worker_of. simpl. rewrite HK. simpl.
    rewrite list_lookup_insert_eq by (by eapply lookup_lt_Some).
    unfold owed. simpl. by rewrite Hpc. }
  destruct (run_owed_le c K evs s1 s2) as [H1 H2]; [by eapply enqueue_wf|done..|].
  lia.
Qed.

(** C9 fails on the code. After the idle timer has fired and before the
    task is resumed, the worker is committed to exiting, whatever
    happens next, and its entry is still in the registry, where an
    [enqueue] finds and reuses it. *)
Theorem exit_committed_while_registered :
  ∃ s, run default_config idle_expired (init default_config) = Some s ∧
       along default_config unhurried idle_expired (init default_config) = true ∧
       _states s !! "A" = Some 0 ∧
       task_pc <$> heap s !! 0 = Some TimedOut ∧
       (∀ evs s', run default_config evs s = Some s' →
                  ∃ ws, heap s' !! 0 = Some ws ∧ doomed ws) ∧
       (∃ s', enqueue default_config "A" 8 s = Some s' ∧
              _states s' !! "A" = Some 0 ∧ length (heap s') = 1 ∧
              heap s' !! 0 = Some (Worker true "A" 7 TimedOut)).
Proof.
  assert (reachable default_config
            (default (init default_config)
               (run default_config idle_expired (init default_config)))) as Hr.
  { exists idle_expired. vm_compute; reflexivity. }
  eexists. split; [vm_compute; reflexivity|].
  split; [vm_compute; reflexivity|]. split; [vm_compute; reflexivity|].
  split; [vm_compute; reflexivity|]. split.
  - intros evs s' Hrun.
    eapply (run_doomed default_config evs); [by apply reachable_wf| | |exact Hrun].
    + vm_compute; reflexivity.
    + by left.
  - eexists. split; [vm_compute; reflexivity|]. by vm_compute.
Qed.

(** C1 fails on the code. The second [enqueue] of this run is called
    after the idle timer has fired and before the worker is resumed.  It
    returns, having found the worker registered and set its signal; no
    worker is made.  The only execution of the key started before the
    call, and whatever happens next no execution of the key starts as
    long as no further [enqueue] comes: the worker exits and removes the
    key. *)
Theorem enqueue_lost_at_idle_exit :
  ∃ s_t s_e s_x,
    run default_config idle_expired (init default_config) = Some s_t ∧
    along default_config unhurried lost_signal (init default_config) = true ∧
    enqueue default_config "A" 8 s_t = Some s_e ∧
    heap s_e = [Worker true "A" 7 TimedOut] ∧
    enqueue_times "A" s_e = [0; 1000 + 5000] ∧
    start_times "A" s_e = [800] ∧
    (∀ evs s', run default_config evs s_e = Some s' →
               along default_config (quiet "A") evs s_e = true →
               starts "A" s' = 1) ∧
    run default_config [EvWorker 0 Exit] s_e = Some s_x ∧
    run default_config lost_signal (init default_config) = Some s_x ∧
    _states s_x !! "A" = None ∧
    heap s_x = [Worker true "A" 7 Exited].
Proof.
  assert (reachable default_config
            (default (init default_config)
               (run default_config idle_expired (init default_config)))) as Hr.
  { exists idle_expired. vm_compute; reflexivity. }
  do 3 eexists. split; [vm_compute; reflexivity|].
  split; [vm_compute; reflexivity|].
  split; [vm_compute; reflexivity|].
  split; [vm_compute; reflexivity|].
  split; [vm_compute; reflexivity|].
  split; [vm_compute; reflexivity|].
  split; [|split_and!; vm_compute; reflexivity].
  intros evs s' Hrun Hq.
  erewrite (enqueue_after_timer_lost default_config "A" 8 _
              (Worker false "A" 7 TimedOut) _ evs s' (reachable_wf _ _ Hr));
    [| | |vm_compute; reflexivity|exact Hrun|exact Hq];
    vm_compute; reflexivity.
Qed.

(** ** One key along a run *)

Lemma step_now c ev s s' :
  step c ev s = Some s' →
  now s' = now s + match ev with EvAdvance dt => dt | _ => 0 end.
Proof.
  destruct ev as [k f|w st|dt]; simpl; intros H.
  - unfold enqueue in H. destruct (_lock s); [done|].
    destruct (_states s !! k); simplify_eq/=; lia.
  - destruct (run_worker_shape _ _ _ _ _ H) as (? & ? & _ & _ & _ & _ & _ & -> & _).
    lia.
  - by simplify_eq/=.
Qed.


(** A new start entry for [K] is written by the worker registered for
    [K] when it acquires its slot, stamped with the current time. *)
Lemma step_new_starts c K ev s s' :
  wf c s → step c ev s = Some s' →
  ∃ new, history s' = new ++ history s ∧
    ∀ w f t, ObsStart K w f t ∈ new →
             t = now s ∧ ev = EvWorker w Acquired ∧ _states s !! K = Some w.
Proof.
  intros Hwf Hstep.
  assert (∀ (o : obs) (l : list obs), o ∈ l →
            Forall (λ x, o ≠ x) l → False) as Hnot.
  { intros o l Hin Hall. rewrite Forall_forall in Hall. by eapply Hall. }
  destruct ev as [k f|w st|dt]; simpl in Hstep.
  - destruct (enqueue_spec _ _ _ _ _ Hwf Hstep)
      as [(w1 & ws1 & Hk & Hw1 & Hkey & Hpc & ->)|[Hk ->]]; simpl.
    + exists [ObsEnqueue k (now s)]. split; [done|].
      intros w f0 t Hin. by apply list_elem_of_singleton in Hin.
    + exists [ObsEnqueue k (now s); ObsSpawn k (length (heap s)) f].
      split; [done|]. intros w f0 t Hin.
      destruct (Hnot _ _ Hin). by repeat constructor.
  - worker_cases Hstep ws Hw Hpc; simpl;
      first [ exists []; split; [done|]; intros ??? Hin;
              by apply elem_of_nil in Hin
            | eexists [_]; split; [done|]; intros ??? Hin;
              apply list_elem_of_singleton in Hin; simplify_eq
            | eexists [_; _]; split; [done|]; intros ??? Hin;
              destruct (Hnot _ _ Hin); by repeat constructor ].
    split_and!; try done. apply (wf_live _ _ Hwf _ _ Hw). congruence.
  - simplify_eq/=. exists []. split; [done|]. intros ??? Hin.
    by apply elem_of_nil in Hin.
Qed.





(** ** Progress *)

(** From any well-formed state the worker of a key can run to its exit
    with no further [enqueue] for the key and no fault, if the budget
    is not zero. *)
Lemma worker_can_finish c K n :
  0 < max_concurrent_keys c →
  ∀ s, wf c s → remaining K s < n →
       ∃ evs s', run c evs s = Some s' ∧ along c (calm K) evs s = true ∧
                 _states s' !! K = None.
Proof.
  intros Hmax. induction n as [|n IH]; intros s Hwf Hn; [lia|].
  destruct (_states s !! K) as [w|] eqn:HK; [|by exists [], s].
  destruct (worker_of_registered _ _ _ _ Hwf HK) as (ws & Hw & Hwk & Hkey & Hlive).
  unfold remaining in Hn. rewrite Hwk in Hn. unfold dist in Hn.
  assert (∀ ev s1, step c ev s = Some s1 → calm K ev s = true →
            remaining K s1 < n →
            ∃ evs s', run c evs s = Some s' ∧ along c (calm K) evs s = true ∧
                      _states s' !! K = None) as Hgo.
  { intros ev s1 Hs Hc Hr.
    destruct (IH s1) as (evs & s' & Hrun & Hal & HN); [by eapply step_wf|done|].
    exists (ev :: evs), s'. simpl. rewrite Hs. split; [done|]. split; [|done].
    unfold calm in *. rewrite Hc. done. }
  assert (∀ st s1, _run_worker c w st s = Some s1 →
            match st with JobDone (RaisedBaseException _) => False | _ => True end →
            calm K (EvWorker w st) s = true) as Hcalm.
  { intros st s1 _ Hst. unfold calm, both. simpl. by destruct st as [| | | | |[]]. }
  destruct (task_pc ws) eqn:Hpc; [| | | | |done].
  - (* waiting *)
    destruct (signal ws) eqn:Hsig.
    + destruct (_run_worker c w Signalled s) as [s1|] eqn:Hs;
        [|by unfold _run_worker in Hs; rewrite Hw, Hpc, Hsig in Hs].
      apply (Hgo (EvWorker w Signalled) s1); [done|by eapply Hcalm|].
      pose proof (own_step _ _ _ _ _ _ _ Hwf HK Hw Hs) as Hown.
      rewrite Hpc in Hown. destruct Hown as (_ & _ & _ & Hwk1).
      unfold remaining, dist. rewrite Hwk1. simpl. lia.
    + set (s0 := State (now s + (deadline - now s)) (_lock s) (_states s) (heap s)
                   (_key_semaphore s) (history s)).
      destruct (_run_worker c w TimerFired s0) as [s1|] eqn:Hs.
      2: { unfold _run_worker in Hs. simpl in Hs. rewrite Hw, Hpc, Hsig in Hs.
           simpl in Hs. by rewrite (proj2 (Nat.leb_le _ _)) in Hs by lia. }
      assert (wf c s0) as Hwf0.
      { apply (step_wf c (EvAdvance (deadline - now s)) s); done. }
      destruct (IH s1) as (evs & s' & Hrun & Hal & HN); [by eapply run_worker_wf| |].
      { pose proof (own_step c K w TimerFired s0 s1 ws Hwf0 HK Hw Hs) as Hown.
        rewrite Hpc in Hown. destruct Hown as (_ & _ & _ & _ & Hwk1).
        unfold remaining, dist. rewrite Hwk1. simpl. lia. }
      exists (EvAdvance (deadline - now s) :: EvWorker w TimerFired :: evs), s'.
      split; [simpl; fold s0; by rewrite Hs|]. split; [|done].
      simpl. fold s0. by rewrite Hs.
  - (* timed out *)
    destruct (_run_worker c w Exit s) as [s1|] eqn:Hs.
    2: { unfold _run_worker in Hs. by rewrite Hw, Hpc, (wf_lock _ _ Hwf) in Hs. }
    apply (Hgo (EvWorker w Exit) s1); [done|by eapply Hcalm|].
    pose proof (own_step _ _ _ _ _ _ _ Hwf HK Hw Hs) as Hown.
    rewrite Hpc in Hown. destruct Hown as (_ & HN).
    unfold remaining. rewrite (worker_of_None _ _ HN). lia.
  - (* debouncing *)
    set (s0 := State (now s + (wake - now s)) (_lock s) (_states s) (heap s)
                 (_key_semaphore s) (history s)).
    destruct (_run_worker c w Debounced s0) as [s1|] eqn:Hs.
    2: { unfold _run_worker in Hs. simpl in Hs. rewrite Hw, Hpc in Hs.
         simpl in Hs. by rewrite (proj2 (Nat.leb_le _ _)) in Hs by lia. }
    assert (wf c s0) as Hwf0.
    { apply (step_wf c (EvAdvance (wake - now s)) s); done. }
    destruct (IH s1) as (evs & s' & Hrun & Hal & HN); [by eapply run_worker_wf| |].
    { pose proof (own_step c K w Debounced s0 s1 ws Hwf0 HK Hw Hs) as Hown.
      rewrite Hpc in Hown. destruct Hown as (_ & _ & _ & Hwk1).
      unfold remaining, dist. rewrite Hwk1. simpl.
      destruct (_key_semaphore s1); lia. }
    exists (EvAdvance (wake - now s) :: EvWorker w Debounced :: evs), s'.
    split; [simpl; fold s0; by rewrite Hs|]. split; [|done].
    simpl. fold s0. by rewrite Hs.
  - (* admitting *)
    destruct (_key_semaphore s) as [|m] eqn:Hsem.
    + (* no slot: a running job returns first *)
      pose proof (wf_slots _ _ Hwf) as Hslots. rewrite Hsem in Hslots.
      destruct (count_if_pos is_running (heap s)) as (w' & ws' & Hw' & Hrun');
        [unfold running_count in Hslots; lia|].
      assert (task_pc ws' = Running) as Hpc'.
      { unfold is_running in Hrun'. by destruct (task_pc ws'). }
      assert (w' ≠ w) as Hne by (intros ->; congruence).
      destruct (_run_worker c w' (JobDone Returned) s) as [s1|] eqn:Hs;
        [|by unfold _run_worker in Hs; rewrite Hw', Hpc' in Hs].
      apply (Hgo (EvWorker w' (JobDone Returned)) s1); [done|done|].
      destruct (step_frame c K (EvWorker w' (JobDone Returned)) s s1 Hwf Hs)
        as (_ & Hwk1 & _); [done|intros ?? [= <- <-]; congruence|].
      assert (_key_semaphore s1 = 1) as Hsem1.
      { unfold _run_worker in Hs. rewrite Hw', Hpc' in Hs. simplify_eq/=. by rewrite Hsem. }
      unfold remaining, dist. rewrite Hwk1, Hwk, Hpc, Hsem1. simpl in *. lia.
    + destruct (_run_worker c w Acquired s) as [s1|] eqn:Hs;
        [|by unfold _run_worker in Hs; rewrite Hw, Hpc, Hsem in Hs].
      apply (Hgo (EvWorker w Acquired) s1); [done|by eapply Hcalm|].
      pose proof (own_step _ _ _ _ _ _ _ Hwf HK Hw Hs) as Hown.
      rewrite Hpc in Hown. destruct Hown as (_ & _ & Hwk1).
      unfold remaining, dist. rewrite Hwk1. simpl. destruct (signal ws); lia.
  - (* running *)
    destruct (_run_worker c w (JobDone Returned) s) as [s1|] eqn:Hs;
      [|by unfold _run_worker in Hs; rewrite Hw, Hpc in Hs].
    apply (Hgo (EvWorker w (JobDone Returned)) s1); [done|by eapply Hcalm|].
    pose proof (own_step _ _ _ _ _ _ _ Hwf HK Hw Hs) as Hown.
    rewrite Hpc in Hown. destruct Hown as (_ & _ & _ & Hwk1).
    unfold remaining, dist. rewrite Hwk1. simpl. destruct (signal ws); lia.
Qed.

Lemma along_app c G evs1 evs2 s s1 :
  run c evs1 s = Some s1 → along c G evs1 s = true →
  along c G evs2 s1 = true → along c G (evs1 ++ evs2) s = true.
Proof.
  revert s; induction evs1 as [|ev evs1 IH]; simpl; intros s Hrun Ha1 Ha2.
  - by simplify_eq.
  - apply andb_true_iff in Ha1 as [-> Ha1]. simpl.
    destruct (step c ev s) as [s'|]; [|done]. by apply IH.
Qed.




Lemma run_app_Some c evs1 evs2 s s1 s2 :
  run c evs1 s = Some s1 → run c evs2 s1 = Some s2 →
  run c (evs1 ++ evs2) s = Some s2.
Proof. intros H1 H2. by rewrite run_app, H1. Qed.

(** ** The trailing run *)

(** C5, as stated, fails.  In the Debouncing state the flag set by an
    [enqueue] is cleared at the end of the pause, so the coming
    execution is the only one.  And a job that ends with an exception
    outside [Exception] takes the worker down with the signal set. *)
Lemma trailing_run_not_always :
  (∃ s, run default_config absorbed (init default_config) = Some s ∧
        along default_config unhurried absorbed (init default_config) = true ∧
        task_pc <$> (run default_config (firstn 3 absorbed) (init default_config)
                       ≫= worker_of "A") = Some (Debouncing 800) ∧
        enqueue_times "A" s = [0; 400] ∧ start_times "A" s = [800] ∧
        _states s !! "A" = None ∧ heap s = [Worker false "A" 7 Exited]) ∧
  (∃ s, run default_config cancelled_while_signalled (init default_config)
          = Some s ∧
        task_pc <$> (run default_config one_running (init default_config)
                       ≫= worker_of "A") = Some Running ∧
        enqueue_times "A" s = [0; 900] ∧ start_times "A" s = [800] ∧
        _states s !! "A" = None ∧ heap s = [Worker true "A" 7 Exited]).
Proof.
  split; eexists; (split; [vm_compute; reflexivity|]); by vm_compute.
Qed.

(** C5, amended. An [enqueue] for [K] that arrives while the worker of
    [K] is Admitting or Running results in exactly one execution beyond
    the current one, without any further [enqueue], provided the job of
    [K] does not end with an exception outside [Exception]: at most one
    more execution starts, it starts only after the current one has
    finished, and when the worker is gone exactly one more has run.  An
    [enqueue] that arrives while the worker is Debouncing is absorbed:
    the coming execution is the only one.  When the budget is not zero
    the run can always be continued until the worker is gone. *)
Theorem trailing_run c evs0 s K ws g s1 evs s2 :
  run c evs0 (init c) = Some s →
  worker_of K s = Some ws →
  in_cycle ws = true →
  enqueue c K g s = Some s1 →
  run c evs s1 = Some s2 →
  along c (both (quiet K) (no_fault K)) evs s1 = true →
  starts K s2 ≤ current_run K s ws + extra_runs ws ∧
  (current_run K s ws < starts K s2 → current_run K s ws ≤ ends K s2) ∧
  (_states s2 !! K = None → starts K s2 = current_run K s ws + extra_runs ws) ∧
  (0 < max_concurrent_keys c →
   ∃ evs' s3, run c evs' s2 = Some s3 ∧
              along c (both (quiet K) (no_fault K)) evs' s2 = true ∧
              _states s3 !! K = None ∧
              starts K s3 = current_run K s ws + extra_runs ws).
Proof.
  intros Hrun0 Hwk Hcyc He Hrun Hal.
  assert (reachable c s) as Hr by by exists evs0.
  pose proof (reachable_wf _ _ Hr) as Hwf.
  assert (reachable c s1) as Hr1.
  { apply (reachable_run c [EvEnqueue K g] s); [done|]. simpl. by rewrite He. }
  pose proof (reachable_wf _ _ Hr1) as Hwf1.
  destruct (worker_of_Some _ _ _ Hwk) as (w & HK & Hw).
  assert (starts K s1 = starts K s ∧ pending K s1 = owed (set_signal true ws))
    as [Hst Hpend].
  { destruct (enqueue_spec _ _ _ _ _ Hwf He)
      as [(w' & ws' & HK' & Hw' & _ & _ & ->)|[HK' _]]; [|congruence].
    simplify_eq. unfold starts, pending, worker_of. simpl. rewrite HK. simpl.
    by rewrite list_lookup_insert_eq by (by eapply lookup_lt_Some). }
  (* what holds at the end of any calm run from [s1] *)
  assert (∀ evs1 x, run c evs1 s1 = Some x →
            along c (both (quiet K) (no_fault K)) evs1 s1 = true →
            starts K x + pending K x = starts K s + owed (set_signal true ws) ∧
            starts K x = ends K x + running_for K x ∧ running_for K x ≤ 1 ∧
            (_states x !! K = None → pending K x = 0)) as Hend.
  { intros evs1 x Hrun1 Hal1.
    assert (reachable c x) as Hrx by by eapply reachable_run.
    pose proof (run_owed_eq _ K _ _ _ Hwf1 Hrun1 Hal1) as Heq.
    rewrite Hst, Hpend in Heq.
    split_and!; eauto using reachable_balance, running_for_le_1, reachable_wf,
      pending_None. }
  destruct (Hend _ _ Hrun Hal) as (Heq & Hbal & Hone & Hgone).
  assert (0 < max_concurrent_keys c →
          ∃ evs' s3, run c evs' s2 = Some s3 ∧
                     along c (both (quiet K) (no_fault K)) evs' s2 = true ∧
                     _states s3 !! K = None ∧
                     starts K s3 = starts K s + owed (set_signal true ws))
    as Hlive.
  { intros Hmax.
    destruct (worker_can_finish c K (S (remaining K s2)) Hmax s2)
      as (evs' & s3 & Hrun3 & Hal3 & HN3); [by eapply run_wf|lia|].
    exists evs', s3. split_and!; try done.
    destruct (Hend (evs ++ evs') s3) as (Heq3 & _ & _ & Hgone3);
      [by eapply run_app_Some|by eapply along_app|].
    rewrite (Hgone3 HN3) in Heq3. lia. }
  unfold current_run, extra_runs, in_cycle, owed, is_running in *.
  simpl in *. destruct (task_pc ws); simpl in *; try done;
    (split_and!; [lia|lia|intros HN; specialize (Hgone HN); lia|]);
    intros Hmax; destruct (Hlive Hmax) as (evs' & s3 & ? & ? & ? & ?);
    exists evs', s3; split_and!; try done; lia.
Qed.

Lemma trailing_run_witness :
  ∃ s s1 s2,
    run default_config one_running (init default_config) = Some s ∧
    enqueue default_config "A" 8 s = Some s1 ∧
    run default_config trailing_tail s1 = Some s2 ∧
    starts "A" s = 1 ∧ starts "A" s2 = 2 ∧ ends "A" s2 = 2 ∧
    (let ws := Worker false "A" 7 Running in
     starts "A" s2 ≤ current_run "A" s ws + extra_runs ws ∧
     (current_run "A" s ws < starts "A" s2 →
      current_run "A" s ws ≤ ends "A" s2) ∧
     (_states s2 !! "A" = None →
      starts "A" s2 = current_run "A" s ws + extra_runs ws) ∧
     (0 < max_concurrent_keys default_config →
      ∃ evs' s3, run default_config evs' s2 = Some s3 ∧
                 along default_config (both (quiet "A") (no_fault "A")) evs' s2
                   = true ∧
                 _states s3 !! "A" = None ∧
                 starts "A" s3 = current_run "A" s ws + extra_runs ws)).
Proof.
  do 3 eexists. split; [vm_compute; reflexivity|].
  split; [vm_compute; reflexivity|]. split; [vm_compute; reflexivity|].
  split; [vm_compute; reflexivity|]. split; [vm_compute; reflexivity|].
  split; [vm_compute; reflexivity|].
  eapply (trailing_run default_config one_running _ "A"
            (Worker false "A" 7 Running) 8 _ trailing_tail);
    vm_compute; reflexivity.
Defined.

(** ** Coalescing of a burst *)





(** * Further properties of the queue *)

(** ** Spacing of the executions of a key *)

(** A new end entry for [K] is written by the worker registered for [K]
    when its job is over, stamped with the current time. *)
Lemma step_new_ends c K ev s s' :
  wf c s → step c ev s = Some s' →
  ∃ new, history s' = new ++ history s ∧
    ∀ w o t, ObsEnd K w o t ∈ new →
             t = now s ∧ ev = EvWorker w (JobDone o) ∧ _states s !! K = Some w.
Proof.
  intros Hwf Hstep.
  destruct ev as [k f|w st|dt]; simpl in Hstep.
  - destruct (enqueue_spec _ _ _ _ _ Hwf Hstep)
      as [(w1 & ws1 & Hk & Hw1 & Hkey & Hpc & ->)|[Hk ->]]; simpl.
    + exists [ObsEnqueue k (now s)]. split; [done|].
      intros w o t Hin. by apply list_elem_of_singleton in Hin.
    + exists [ObsEnqueue k (now s); ObsSpawn k (length (heap s)) f].
      split; [done|]. intros w o t Hin.
      rewrite !elem_of_cons, elem_of_nil in Hin. by destruct Hin as [|[|[]]].
  - assert (∀ ws, heap s !! w = Some ws → task_pc ws ≠ Exited →
              _states s !! task_key ws = Some w) as Hreg.
    { intros ws Hw Hpc. by apply (wf_live _ _ Hwf). }
    worker_cases Hstep ws Hw Hpc; simpl;
      first [ exists []; split; [done|]; intros ??? Hin;
              by apply elem_of_nil in Hin
            | eexists [_]; split; [done|]; intros ??? Hin;
              apply list_elem_of_singleton in Hin; simplify_eq
            | eexists [_; _]; split; [done|]; intros ??? Hin;
              rewrite !elem_of_cons, elem_of_nil in Hin;
              destruct Hin as [|[|[]]]; simplify_eq ];
      (split_and!; [done|done|apply Hreg; [done|congruence]]).
  - simplify_eq/=. exists []. split; [done|]. intros ??? Hin.
    by apply elem_of_nil in Hin.
Qed.

Lemma spaced_app_quiet K gap new h :
  (∀ w f t, ObsStart K w f t ∉ new) → spaced K gap h → spaced K gap (new ++ h).
Proof.
  induction new as [|o new IH]; simpl; [done|]. intros Hno Hh. split.
  - intros w f t ->. destruct (Hno w f t). apply list_elem_of_here.
  - apply IH; [|done]. intros w f t Hin. apply (Hno w f t).
    by apply list_elem_of_further.
Qed.

Lemma earliest_start_mono c t t' ws :
  t ≤ t' → earliest_start c t ws ≤ earliest_start c t' ws.
Proof. unfold earliest_start. destruct (task_pc ws); lia. Qed.

(** The earliest next start of the worker of [K] never moves back, and a
    worker that begins a new wait is a whole pause away from it. *)
Lemma step_earliest c K ev s s' ws' :
  wf c s → step c ev s = Some s' → worker_of K s' = Some ws' →
  now s + debounce_window c ≤ earliest_start c (now s') ws' ∨
  ∃ ws, worker_of K s = Some ws ∧
        earliest_start c (now s) ws ≤ earliest_start c (now s') ws'.
Proof.
  intros Hwf Hstep Hws'.
  pose proof (step_now _ _ _ _ Hstep) as Hnow.
  assert (quiet K ev s = true →
          (∀ w st, ev = EvWorker w st → _states s !! K ≠ Some w) →
          ∃ ws, worker_of K s = Some ws ∧
                earliest_start c (now s) ws ≤ earliest_start c (now s') ws')
    as Hframe.
  { intros Hq Hno.
    destruct (step_frame _ _ _ _ _ Hwf Hstep Hq Hno) as (_ & Hwk & _).
    exists ws'. split; [congruence|]. apply earliest_start_mono. lia. }
  destruct ev as [k f|w st|dt].
  - destruct (decide (k = K)) as [->|Hne].
    + simpl in Hstep.
      destruct (enqueue_spec _ _ _ _ _ Hwf Hstep)
        as [(w1 & ws1 & Hk & Hw1 & Hkey & Hpc & ->)|[Hk ->]].
      * right. exists ws1. split; [by eapply worker_of_intro|].
        unfold worker_of in Hws'. simpl in Hws'. rewrite Hk in Hws'. simpl in Hws'.
        rewrite list_lookup_insert_eq in Hws' by (by eapply lookup_lt_Some).
        simplify_eq. done.
      * left. unfold worker_of in Hws'. simpl in Hws'.
        rewrite lookup_insert_eq in Hws'. simpl in Hws'.
        rewrite lookup_app_r, Nat.sub_diag in Hws' by done. simplify_eq/=.
        unfold earliest_start. simpl. lia.
    + right. apply Hframe; [|done]. simpl. by rewrite bool_decide_eq_false_2.
  - destruct (decide (_states s !! K = Some w)) as [HK|HK].
    2: { right. apply Hframe; [done|]. by intros ?? [= <- <-]. }
    simpl in Hstep, Hnow.
    destruct (worker_of_registered _ _ _ _ Hwf HK) as (ws & Hw & Hwk & Hkey & Hlive).
    pose proof (own_step _ _ _ _ _ _ _ Hwf HK Hw Hstep) as Hown.
    destruct st as [| | | | |o], (task_pc ws) eqn:Hpc; try done.
    + destruct Hown as (_ & _ & _ & Hwk1). left. simplify_eq.
      unfold earliest_start. simpl. lia.
    + destruct Hown as (_ & _ & _ & _ & Hwk1). left. simplify_eq.
      unfold earliest_start. simpl. lia.
    + destruct Hown as (_ & HN). by rewrite (worker_of_None _ _ HN) in Hws'.
    + destruct Hown as (Hle & _ & _ & Hwk1). right. exists ws. split; [done|].
      simplify_eq. unfold earliest_start. rewrite Hpc. simpl. lia.
    + destruct Hown as (_ & _ & Hwk1). left. simplify_eq.
      unfold earliest_start. simpl. lia.
    + destruct Hown as (_ & _ & Hown). left.
      destruct o; [destruct Hown as [_ Hwk1]|destruct Hown as [_ Hwk1]|
                   by rewrite (worker_of_None _ _ Hown) in Hws'];
        simplify_eq; unfold earliest_start; simpl; lia.
  - right. apply Hframe; [done|done].
Qed.

Lemma step_spacing_inv c K ev s s' :
  wf c s → spacing_inv c K s → step c ev s = Some s' → spacing_inv c K s'.
Proof.
  intros Hwf [Hends Hsp] Hstep.
  pose proof (step_now _ _ _ _ Hstep) as Hnow.
  destruct (step_new_starts c K _ _ _ Hwf Hstep) as (new & Hh & Hns).
  destruct (step_new_ends c K _ _ _ Hwf Hstep) as (new' & Hh' & Hne).
  assert (new' = new) as -> by (apply (app_inv_tail (history s)); congruence). clear Hh'.
  split.
  - intros w o t' Hin. rewrite Hh, elem_of_app in Hin.
    destruct Hin as [Hin|Hin].
    + destruct (Hne _ _ _ Hin) as (-> & -> & HK). simpl in Hnow, Hstep.
      split; [lia|]. intros ws' Hws'.
      destruct (worker_of_registered _ _ _ _ Hwf HK) as (ws & Hw & Hwk & Hkey & Hlive).
      pose proof (own_step _ _ _ _ _ _ _ Hwf HK Hw Hstep) as Hown.
      destruct (task_pc ws) eqn:Hpc; try done.
      destruct Hown as (_ & _ & Hown).
      destruct o; [destruct Hown as [_ Hwk1]|destruct Hown as [_ Hwk1]|
                   by rewrite (worker_of_None _ _ Hown) in Hws'];
        simplify_eq; unfold earliest_start; simpl; lia.
    + destruct (Hends _ _ _ Hin) as [Hle Hb]. split; [lia|].
      intros ws' Hws'.
      destruct (step_earliest _ _ _ _ _ _ Hwf Hstep Hws') as [?|(ws & Hwk & ?)];
        [lia|]. specialize (Hb _ Hwk). lia.
  - rewrite Hh.
    assert ((∃ w, ev = EvWorker w Acquired ∧ _states s !! K = Some w) ∨
            ¬ (∃ w, ev = EvWorker w Acquired ∧ _states s !! K = Some w))
      as [(w & -> & HK)|Hno].
    { destruct ev as [| w [] |]; try (right; by intros (? & [=] & _)).
      destruct (decide (_states s !! K = Some w)); [left; by exists w|].
      right. by intros (? & [= <-] & ?). }
    + simpl in Hstep.
      destruct (worker_of_registered _ _ _ _ Hwf HK) as (ws & Hw & Hwk & Hkey & Hlive).
      pose proof (own_step _ _ _ _ _ _ _ Hwf HK Hw Hstep) as Hown.
      destruct (task_pc ws) eqn:Hpc; try done.
      destruct Hown as (Hh1 & _). rewrite <- Hh, Hh1. simpl.
      split; [|done]. intros w1 f1 t1 [= <- <- <-] w' o' t' Hin.
      destruct (Hends _ _ _ Hin) as [_ Hb]. specialize (Hb _ Hwk).
      unfold earliest_start in Hb. by rewrite Hpc in Hb.
    + apply spaced_app_quiet; [|done]. intros w f t Hin.
      destruct (Hns _ _ _ Hin) as (_ & -> & HK). apply Hno. by exists w.
Qed.

Lemma reachable_spacing_inv c K s : reachable c s → spacing_inv c K s.
Proof.
  apply reachable_ind.
  - split; [|done]. intros w o t' Hin. by apply elem_of_nil in Hin.
  - intros ev s0 s' Hwf HI Hstep. by eapply step_spacing_inv.
Qed.

Lemma spaced_split K gap h2 h1 w f t w' o t' :
  spaced K gap (h2 ++ ObsStart K w f t :: h1) →
  ObsEnd K w' o t' ∈ h1 → t' + gap ≤ t.
Proof.
  induction h2 as [|x h2 IH]; simpl.
  - intros [H _] Hin. by eapply H.
  - intros [_ H]. by apply IH.
Qed.

(** X1.  Two executions of one key are never closer than
    the debounce window: whenever an execution of [K] starts at [t] and
    an execution of [K] has ended at [t'] before, [t' + debounce_window
    ≤ t].  The worker sleeps the whole window before every run, also
    when the signal was set while the previous job was still running. *)
Theorem executions_spaced c evs s K h1 h2 w f t w' o t' :
  run c evs (init c) = Some s →
  history s = h2 ++ ObsStart K w f t :: h1 →
  ObsEnd K w' o t' ∈ h1 →
  t' + debounce_window c ≤ t.
Proof.
  intros Hrun Hh Hin.
  destruct (reachable_spacing_inv c K s) as [_ Hsp]; [by exists evs|].
  rewrite Hh in Hsp. by eapply spaced_split.
Qed.

Lemma executions_spaced_witness :
  ∃ s, run default_config chain3 (init default_config) = Some s ∧
       start_times "A" s = [800; 2200] ∧
       1000 + debounce_window default_config ≤ 2200.
Proof.
  eexists. split; [vm_compute; reflexivity|]. split; [vm_compute; reflexivity|].
  eapply (executions_spaced default_config chain3 _ "A"
            [ObsEnqueue "A" 1400; ObsEnd "A" 0 Returned 1000;
             ObsStart "A" 0 7 800; ObsEnqueue "A" 700; ObsEnqueue "A" 0;
             ObsSpawn "A" 0 7]
            [ObsEnd "A" 0 Returned 2400] 0 7 2200 0 Returned 1000).
  - vm_compute; reflexivity.
  - vm_compute; reflexivity.
  - apply list_elem_of_further, list_elem_of_here.
Defined.

(** ** Executions and calls *)

Lemma enqueue_times_app K s s' new :
  history s' = new ++ history s →
  length (enqueue_times K s') =
  length (enqueue_times K s) +
  count_if (λ o, match o with
                 | ObsEnqueue k _ => bool_decide (k = K)
                 | _ => false
                 end) new.
Proof.
  intros Hh. unfold enqueue_times. rewrite Hh, omap_app, !length_rev, length_app.
  rewrite Nat.add_comm. f_equal. clear Hh.
  induction new as [|o new IH]; simpl; [done|].
  destruct o; simpl; try done. case_bool_decide; simpl; by f_equal.
Qed.

Lemma owed_set_signal ws : owed (set_signal true ws) ≤ owed ws + 1.
Proof. unfold owed. simpl. destruct (task_pc ws), (signal ws); simpl; lia. Qed.

(** X2.  The queue never runs a job that was not
    asked for: for every key, the executions started so far plus those
    the worker still owes are at most the number of [enqueue] calls for
    the key. *)
Theorem no_spurious_execution c evs s K :
  run c evs (init c) = Some s →
  starts K s + pending K s ≤ length (enqueue_times K s).
Proof.
  intros Hrun.
  apply (reachable_ind c
           (λ s, starts K s + pending K s ≤ length (enqueue_times K s)));
    [done| |by exists evs].
  clear. intros ev s s' Hwf HI Hstep.
  destruct (decide (quiet K ev s = true)) as [Hq|Hq].
  - destruct (step_owed _ _ _ _ _ Hwf Hstep Hq) as (_ & Hle & _).
    destruct (step_new_starts c K _ _ _ Hwf Hstep) as (new & Hh & _).
    rewrite (enqueue_times_app K s s' new Hh). lia.
  - destruct ev as [k f| |]; try done. simpl in Hq.
    destruct (decide (k = K)) as [->|?];
      [|by rewrite bool_decide_eq_false_2 in Hq]. clear Hq.
    simpl in Hstep.
    destruct (enqueue_spec _ _ _ _ _ Hwf Hstep)
      as [(w1 & ws1 & Hk & Hw1 & Hkey & Hpc & ->)|[Hk ->]].
    + rewrite (enqueue_times_app K s _ [ObsEnqueue K (now s)]) by done.
      simpl. rewrite bool_decide_eq_true_2 by done. simpl.
      pose proof (owed_set_signal ws1).
      revert HI. own_simpl Hk Hw1. lia.
    + rewrite (enqueue_times_app K s _
                 [ObsEnqueue K (now s); ObsSpawn K (length (heap s)) f]) by done.
      simpl. rewrite bool_decide_eq_true_2 by done. simpl.
      revert HI. rewrite (pending_None _ _ Hk).
      unfold pending, worker_of, starts. simpl. rewrite lookup_insert_eq. simpl.
      rewrite lookup_app_r, Nat.sub_diag by done. unfold owed. simpl. lia.
Qed.

Lemma no_spurious_execution_witness :
  ∃ s, run default_config chain3 (init default_config) = Some s ∧
       starts "A" s = 2 ∧
       starts "A" s + pending "A" s ≤ length (enqueue_times "A" s).
Proof.
  eexists. split; [vm_compute; reflexivity|]. split; [vm_compute; reflexivity|].
  apply (no_spurious_execution default_config chain3). vm_compute; reflexivity.
Defined.

(** ** Retention of an idle worker *)

Lemma step_retained c K w t0 ev s s' :
  wf c s → retained c K w t0 s → no_fault K ev s = true →
  step c ev s = Some s' → retained c K w t0 s'.
Proof.
  intros Hwf [Ht0 HI] Hnf Hstep.
  pose proof (step_now _ _ _ _ Hstep) as Hnow.
  split; [lia|]. destruct HI as [HI|(HK & ws & Hw & Hpc)]; [left; lia|].
  assert (worker_of K s = Some ws) as Hwk by (by eapply worker_of_intro).
  assert (quiet K ev s = true →
          (∀ w0 st, ev = EvWorker w0 st → _states s !! K ≠ Some w0) →
          t0 + idle_timeout c ≤ now s' ∨
          (_states s' !! K = Some w ∧
           ∃ ws, heap s' !! w = Some ws ∧
                 match task_pc ws with
                 | WaitingForSignal d => t0 + idle_timeout c ≤ d
                 | TimedOut | Exited => False
                 | _ => True
                 end)) as Hframe.
  { intros Hq Hno. right.
    destruct (step_frame _ _ _ _ _ Hwf Hstep Hq Hno) as (HK' & Hwk' & _).
    split; [congruence|]. exists ws. split; [|done].
    rewrite Hwk in Hwk'. apply worker_of_Some in Hwk' as (w' & HK1 & Hw').
    congruence. }
  destruct ev as [k f|w' st|dt].
  - destruct (decide (k = K)) as [->|Hne].
    2: { apply Hframe; [|done]. simpl. by rewrite bool_decide_eq_false_2. }
    simpl in Hstep.
    destruct (enqueue_spec _ _ _ _ _ Hwf Hstep)
      as [(w1 & ws1 & Hk & Hw1 & Hkey & Hpc1 & ->)|[Hk ->]]; [|congruence].
    right. simplify_eq/=. split; [done|]. exists (set_signal true ws).
    split; [|done].
    by rewrite list_lookup_insert_eq by (by eapply lookup_lt_Some).
  - destruct (decide (_states s !! K = Some w')) as [HK'|HK'].
    2: { apply Hframe; [done|]. by intros ?? [= <- <-]. }
    assert (w' = w) as -> by congruence. simpl in Hstep, Hnow, Hnf.
    pose proof (own_step _ _ _ _ _ _ _ Hwf HK Hw Hstep) as Hown.
    destruct st as [| | | | |o], (task_pc ws) eqn:Hpcw; try done.
    + destruct Hown as (_ & _ & HK1 & Hwk1). right. split; [done|].
      apply worker_of_Some in Hwk1 as (w1 & ? & ?). simplify_eq. by eexists.
    + destruct Hown as (_ & Hle & _). left. lia.
    + destruct Hown as (_ & _ & HK1 & Hwk1). right. split; [done|].
      apply worker_of_Some in Hwk1 as (w1 & ? & ?). simplify_eq. by eexists.
    + destruct Hown as (_ & HK1 & Hwk1). right. split; [done|].
      apply worker_of_Some in Hwk1 as (w1 & ? & ?). simplify_eq. by eexists.
    + destruct Hown as (_ & _ & Hown).
      destruct o as [|e|e].
      * destruct Hown as [HK1 Hwk1]. right. split; [done|].
        apply worker_of_Some in Hwk1 as (w1 & ? & ?). simplify_eq.
        eexists. split; [done|]. simpl. lia.
      * destruct Hown as [HK1 Hwk1]. right. split; [done|].
        apply worker_of_Some in Hwk1 as (w1 & ? & ?). simplify_eq.
        eexists. split; [done|]. simpl. lia.
      * by rewrite bool_decide_eq_true_2 in Hnf.
  - apply Hframe; done.
Qed.

(** X3.  A worker is not reclaimed early: when a job of [K]
    ends at time [t] without a fault, the same worker object is still
    registered for [K], neither timed out nor exited, at every moment
    before [t + idle_timeout], whatever calls, steps of other workers
    and delays occur in between (the jobs of [K] not ending in a fault). *)
Theorem worker_retained c evs0 s0 K w ws o s1 evs s2 :
  run c evs0 (init c) = Some s0 →
  _states s0 !! K = Some w → heap s0 !! w = Some ws → task_pc ws = Running →
  _run_worker c w (JobDone o) s0 = Some s1 →
  (∀ e, o ≠ RaisedBaseException e) →
  run c evs s1 = Some s2 →
  along c (no_fault K) evs s1 = true →
  now s2 < now s0 + idle_timeout c →
  _states s2 !! K = Some w ∧
  ∃ ws2, heap s2 !! w = Some ws2 ∧ task_pc ws2 ≠ TimedOut ∧ task_pc ws2 ≠ Exited.
Proof.
  intros Hrun0 HK Hw Hpc Hjob Ho Hrun Hal Hlt.
  assert (wf c s0) as Hwf0 by (apply reachable_wf; by exists evs0).
  assert (wf c s1) as Hwf1 by (by eapply run_worker_wf).
  assert (retained c K w (now s0) s1) as HI.
  { pose proof (own_step _ _ _ _ _ _ _ Hwf0 HK Hw Hjob) as Hown.
    rewrite Hpc in Hown. destruct Hown as (_ & _ & Hown).
    pose proof (step_now c (EvWorker w (JobDone o)) _ _ Hjob) as Hnow.
    simpl in Hnow. split; [lia|]. right.
    destruct o as [|e|e]; [| |by destruct (Ho e)];
      destruct Hown as [HK1 Hwk1]; (split; [done|]);
      apply worker_of_Some in Hwk1 as (w1 & ? & ?); simplify_eq;
      (eexists; split; [done|]); simpl; lia. }
  assert (retained c K w (now s0) s2) as [_ [?|(HK2 & ws2 & Hw2 & Hpc2)]];
    [|lia|].
  { eapply (run_invariant c (no_fault K) (retained c K w (now s0))); try done.
    intros ev x x' ? ? ? ?. by eapply step_retained. }
  split; [done|]. exists ws2. split; [done|].
  destruct (task_pc ws2); done.
Qed.

Lemma worker_retained_witness :
  ∃ s0 s1 s2,
    run default_config (one_running ++ [EvAdvance 200]) (init default_config)
      = Some s0 ∧
    _run_worker default_config 0 (JobDone Returned) s0 = Some s1 ∧
    run default_config [EvAdvance 4999] s1 = Some s2 ∧
    (_states s2 !! "A" = Some 0 ∧
     ∃ ws2, heap s2 !! 0 = Some ws2 ∧ task_pc ws2 ≠ TimedOut ∧
            task_pc ws2 ≠ Exited).
Proof.
  eexists _, _, _. split; [vm_compute; reflexivity|].
  split; [vm_compute; reflexivity|]. split; [vm_compute; reflexivity|].
  eapply (worker_retained default_config (one_running ++ [EvAdvance 200]) _ "A" 0
            (Worker false "A" 7 Running) Returned _ [EvAdvance 4999]);
    try (vm_compute; reflexivity).
  intros e. discriminate.
Defined.

(** ** Signals that are served *)


Lemma is_start_inv K o :
  is_start K o = true → ∃ w f t, o = ObsStart K w f t.
Proof.
  destruct o; simpl; try done. intros ->%bool_decide_eq_true. by eexists _, _, _.
Qed.



(** ** Isolation of keys *)

Lemma about_other K new h :
  Forall (λ o, obs_key o ≠ K) new → about K (new ++ h) = about K h.
Proof.
  unfold about. induction 1 as [|o new Ho _ IH]; simpl; [done|].
  by rewrite filter_cons_False.
Qed.

Lemma step_foreign c K ev s s' :
  wf c s → step c ev s = Some s' → foreign K ev s = true →
  _states s' !! K = _states s !! K ∧ worker_of K s' = worker_of K s ∧
  about K (history s') = about K (history s).
Proof.
  intros Hwf Hstep Hf.
  assert (quiet K ev s = true) as Hq by (by destruct ev).
  assert (∀ w st, ev = EvWorker w st → _states s !! K ≠ Some w) as Hno.
  { intros w st ->. simpl in Hf. by case_bool_decide. }
  destruct (step_frame _ _ _ _ _ Hwf Hstep Hq Hno) as (HK & Hwk & _).
  split; [done|]. split; [done|].
  destruct ev as [k f|w st|dt]; simpl in Hstep.
  - simpl in Hf. case_bool_decide; [done|].
    destruct (enqueue_spec _ _ _ _ _ Hwf Hstep)
      as [(w1 & ws1 & Hk & Hw1 & Hkey & Hpc & ->)|[Hk ->]]; simpl.
    + by apply (about_other K [_]); repeat constructor.
    + by apply (about_other K [_; _]); repeat constructor.
  - destruct (run_worker_shape _ _ _ _ _ Hstep)
      as (ws & ws' & Hw & _ & Hlive & _).
    destruct (run_worker_history _ _ _ _ _ _ Hw Hstep) as (new & -> & Hnew).
    apply about_other. eapply Forall_impl; [exact Hnew|]. simpl.
    intros o -> HkK. apply (Hno w st); [done|]. rewrite <- HkK.
    by apply (wf_live _ _ Hwf).
  - by simplify_eq/=.
Qed.

(** X5.  Keys do not interfere: along any run made of calls
    for other keys, steps of other workers (their jobs ending in any
    way, faults included) and the passing of time, the registry entry of
    [K], the state of its worker object and the part of the history
    that concerns [K] stay as they are. *)
Theorem key_isolation c evs0 s K evs s' :
  run c evs0 (init c) = Some s →
  run c evs s = Some s' →
  along c (foreign K) evs s = true →
  _states s' !! K = _states s !! K ∧ worker_of K s' = worker_of K s ∧
  about K (history s') = about K (history s).
Proof.
  intros Hrun0 Hrun Hal.
  assert (wf c s) as Hwf by (apply reachable_wf; by exists evs0).
  apply (run_invariant c (foreign K)
           (λ x, _states x !! K = _states s !! K ∧ worker_of K x = worker_of K s ∧
                 about K (history x) = about K (history s)) evs s s');
    try done.
  intros ev x x' Hwfx (H1 & H2 & H3) Hf Hstep.
  destruct (step_foreign _ _ _ _ _ Hwfx Hstep Hf) as (? & ? & ?).
  split_and!; congruence.
Qed.

Lemma key_isolation_witness :
  ∃ s s',
    run default_config [EvEnqueue "A" 1; EvWorker 0 Signalled]
      (init default_config) = Some s ∧
    run default_config other_key_life s = Some s' ∧
    ends "B" s' = 1 ∧ _states s' !! "B" = None ∧
    (_states s' !! "A" = _states s !! "A" ∧ worker_of "A" s' = worker_of "A" s ∧
     about "A" (history s') = about "A" (history s)).
Proof.
  eexists _, _. split; [vm_compute; reflexivity|].
  split; [vm_compute; reflexivity|]. split; [vm_compute; reflexivity|].
  split; [vm_compute; reflexivity|].
  eapply (key_isolation default_config [EvEnqueue "A" 1; EvWorker 0 Signalled]
            _ "A" other_key_life); vm_compute; reflexivity.
Defined.

(** ** Exited workers *)

Lemma step_exited c ev s s' w ws :
  wf c s → heap s !! w = Some ws → task_pc ws = Exited →
  step c ev s = Some s' → heap s' !! w = Some ws.
Proof.
  intros Hwf Hw Hpc Hstep. destruct ev as [k f|w' st|dt]; simpl in Hstep.
  - destruct (enqueue_spec _ _ _ _ _ Hwf Hstep)
      as [(w1 & ws1 & Hk & Hw1 & Hkey & Hpc1 & ->)|[Hk ->]]; simpl.
    + rewrite list_lookup_insert_ne; [done|]. intros ->. congruence.
    + by apply lookup_app_l_Some.
  - destruct (run_worker_shape _ _ _ _ _ Hstep)
      as (ws1 & ws' & Hw1 & -> & Hlive & _).
    rewrite list_lookup_insert_ne; [done|]. intros ->. congruence.
  - by simplify_eq/=.
Qed.

(** X6.  A worker that has exited is never
    resurrected: its object stays as it is, no key is ever registered
    to it again, and none of its steps is enabled, whatever happens
    later (a later [enqueue] for its key makes a new object). *)
Theorem exited_worker_is_final c evs0 s w ws evs s' :
  run c evs0 (init c) = Some s →
  heap s !! w = Some ws → task_pc ws = Exited →
  run c evs s = Some s' →
  heap s' !! w = Some ws ∧ (∀ k, _states s' !! k ≠ Some w) ∧
  ∀ st, _run_worker c w st s' = None.
Proof.
  intros Hrun0 Hw Hpc Hrun.
  assert (wf c s) as Hwf by (apply reachable_wf; by exists evs0).
  assert (wf c s') as Hwf' by (by eapply run_wf).
  assert (heap s' !! w = Some ws) as Hw'.
  { apply (run_invariant_all c (λ x, heap x !! w = Some ws) evs s s'); try done.
    intros ev x x' Hwfx Hx Hstep. by eapply step_exited. }
  split; [done|]. split.
  - intros k Hk. destruct (wf_registered _ _ Hwf' _ _ Hk) as (ws1 & ? & _ & ?).
    congruence.
  - intros st. unfold _run_worker. rewrite Hw', Hpc. by destruct st.
Qed.

Lemma exited_worker_is_final_witness :
  ∃ s s',
    run default_config cancelled_job (init default_config) = Some s ∧
    run default_config second_life s = Some s' ∧
    _states s' !! "A" = Some 1 ∧
    (heap s' !! 0 = Some (Worker false "A" 7 Exited) ∧
     (∀ k, _states s' !! k ≠ Some 0) ∧
     ∀ st, _run_worker default_config 0 st s' = None).
Proof.
  eexists _, _. split; [vm_compute; reflexivity|].
  split; [vm_compute; reflexivity|]. split; [vm_compute; reflexivity|].
  eapply (exited_worker_is_final default_config cancelled_job _ 0 _ second_life);
    vm_compute; reflexivity.
Defined.

(** ** A queue without slots *)

(** X7.  A queue made with [max_concurrent_keys = 0]
    accepts calls but never runs a job: [asyncio.Semaphore(0)] has no
    slot to give, no execution ever starts, and no worker can leave the
    acquisition of the semaphore. *)
Theorem zero_capacity_never_runs c evs s :
  max_concurrent_keys c = 0 →
  run c evs (init c) = Some s →
  (∀ K, starts K s = 0) ∧ running_count s = 0 ∧
  ∀ w, _run_worker c w Acquired s = None.
Proof.
  intros Hmax Hrun.
  assert (reachable c s) as Hr by (by exists evs).
  pose proof (reachable_wf _ _ Hr) as Hwf.
  pose proof (wf_slots _ _ Hwf) as Hslots. rewrite Hmax in Hslots.
  assert (∀ x w, wf c x → _run_worker c w Acquired x = None) as Hstuck.
  { intros x w Hx. pose proof (wf_slots _ _ Hx) as Hs. rewrite Hmax in Hs.
    unfold _run_worker. destruct (heap x !! w) as [ws|]; [|done].
    destruct (task_pc ws); try done.
    destruct (_key_semaphore x) eqn:?; [done|lia]. }
  split; [|split; [lia|by intros w; apply Hstuck]].
  intros K. apply (reachable_ind c (λ x, starts K x = 0)); [done| |done].
  clear s Hrun Hr Hwf Hslots. intros ev s s' Hwf HI Hstep.
  destruct (step_new_starts c K _ _ _ Hwf Hstep) as (new & Hh & Hnew).
  unfold starts in *. rewrite Hh, count_if_app, HI.
  destruct (count_if (is_start K) new) eqn:Hcnt; [done|].
  destruct (count_if_pos (is_start K) new) as (i & o & Hi & Ho); [lia|].
  destruct (is_start_inv _ _ Ho) as (w & g & t & ->).
  destruct (Hnew w g t) as (_ & -> & _); [by eapply list_elem_of_lookup_2|].
  simpl in Hstep. by rewrite Hstuck in Hstep.
Qed.

Lemma zero_capacity_never_runs_witness :
  ∃ s, run (Config 800 5000 0)
         [EvEnqueue "A" 7; EvWorker 0 Signalled; EvAdvance 800;
          EvWorker 0 Debounced] (init (Config 800 5000 0)) = Some s ∧
       task_pc <$> worker_of "A" s = Some Admitting ∧
       ((∀ K, starts K s = 0) ∧ running_count s = 0 ∧
        ∀ w, _run_worker (Config 800 5000 0) w Acquired s = None).
Proof.
  eexists. split; [vm_compute; reflexivity|]. split; [vm_compute; reflexivity|].
  eapply (zero_capacity_never_runs (Config 800 5000 0)
            [EvEnqueue "A" 7; EvWorker 0 Signalled; EvAdvance 800;
             EvWorker 0 Debounced]); vm_compute; reflexivity.
Defined.

(** ** Draining the queue *)

(** Progress of one worker, by steps of the queue alone. *)








(** * Properties of the webhook endpoints *)

Ltac unfold_handler :=
  unfold handler, subtask_status_changed_webhook_alias,
    subtask_status_changed_webhook, _schedule, subtask_created_webhook,
    custom_field_changed_webhook, task_created_webhook, status_change_webhook,
    try_except, JSONResponse, queue_enqueue_value, queue_enqueue, def_job,
    _save_json, lift, mbind, M_mbind, M_bind, mret, M_mret, M_ret in *.














(** X11.  A body that is not valid JSON never
    reaches the queue, and the five endpoints do not answer it alike:
    the subtask endpoints catch [json.JSONDecodeError] and answer 400
    without writing a file; the other three answer 500 and write an
    error file whose payload is the empty dict. *)
Theorem invalid_json_is_rejected L T c r t1 t2 a out a' :
  handler L T c r (Raise JSONDecodeError) t1 t2 a = Some (out, a') →
  queue a' = queue a ∧ closures a' = closures a ∧
  (if is_subtask_route r
   then files a' = files a ∧
        ∀ resp, out = Ok resp → status_code resp = 400
   else (∃ path, files a' =
           files a ++ [(path, PDict [("error", PStr (str_exn L JSONDecodeError));
                                     ("payload", PDict [])])]) ∧
        ∀ resp, out = Ok resp → status_code resp = 500).
Proof.
  intros H. destruct r; unfold_handler; simpl in *;
    repeat (case_match; simplify_eq/=); split_and!; try done;
    try (by eexists); by intros ? [= <-].
Qed.

Lemma invalid_json_is_rejected_witness :
  ∃ out1 a1 out2 a2,
    handler simple_builtins None default_config post_webhook_status_change
      (Raise JSONDecodeError) "t1" "t2" (app_init default_config) = Some (out1, a1) ∧
    handler simple_builtins None default_config post_webhook_subtask_created
      (Raise JSONDecodeError) "t1" "t2" (app_init default_config) = Some (out2, a2) ∧
    status_code <$> out1 = Ok 500 ∧ status_code <$> out2 = Ok 400 ∧
    (queue a1 = queue (app_init default_config) ∧
     closures a1 = closures (app_init default_config) ∧
     (if is_subtask_route post_webhook_status_change
      then files a1 = files (app_init default_config) ∧
           ∀ resp, out1 = Ok resp → status_code resp = 400
      else (∃ path, files a1 =
              files (app_init default_config) ++
              [(path, PDict [("error",
                              PStr (str_exn simple_builtins JSONDecodeError));
                             ("payload", PDict [])])]) ∧
           ∀ resp, out1 = Ok resp → status_code resp = 500)).
Proof.
  eexists _, _, _, _. split; [vm_compute; reflexivity|].
  split; [vm_compute; reflexivity|]. split; [vm_compute; reflexivity|].
  split; [vm_compute; reflexivity|].
  eapply (invalid_json_is_rejected simple_builtins None default_config
            post_webhook_status_change "t1" "t2").
  vm_compute; reflexivity.
Defined.

(** X12.  The two subtask endpoints disagree on
    a body whose "payload" is null (or any other falsy value that is
    not a dict): subtask-created reads it as [{}] ([... or {}]) and
    answers 200 "skipped"; subtask-status-changed calls [.get] on it,
    and answers 500 with the text of the [AttributeError].  Neither
    touches the queue. *)
Theorem falsy_payload_disagreement L T c raw v t1 t2 a :
  assoc "payload" raw = Some v → truthy v = false →
  (∀ items, v ≠ PDict items) →
  renders L (missing_ids_content PNone PNone) = true →
  renders L (error_content L AttributeError t2) = true →
  ∃ a1 a2,
    subtask_created_webhook L c (Ok (PDict raw)) t1 t2 a =
      Some (Ok (JSONResponse_ (missing_ids_content PNone PNone) 200), a1) ∧
    _schedule L T c (Ok (PDict raw)) t1 t2 a =
      Some (Ok (JSONResponse_ (error_content L AttributeError t2) 500), a2) ∧
    queue a1 = queue a ∧ closures a1 = closures a ∧
    queue a2 = queue a ∧ closures a2 = closures a.
Proof.
  intros Hraw Hv Hnd Hr1 Hr2.
  unfold subtask_created_webhook, _schedule. unfold_handler. simpl.
  rewrite Hraw. simpl. unfold py_or. rewrite Hv. simpl.
  unfold missing_ids_content, error_content in *. rewrite Hr1. simpl.
  destruct v; try (by destruct (Hnd items)); simpl; rewrite Hr2;
    by eexists _, _.
Qed.

Lemma falsy_payload_disagreement_witness :
  ∃ a1 a2,
    subtask_created_webhook simple_builtins default_config
      (Ok (PDict [("payload", PNone)])) "t1" "t2" (app_init default_config) =
      Some (Ok (JSONResponse_ (missing_ids_content PNone PNone) 200), a1) ∧
    _schedule simple_builtins None default_config
      (Ok (PDict [("payload", PNone)])) "t1" "t2" (app_init default_config) =
      Some (Ok (JSONResponse_
                  (error_content simple_builtins AttributeError "t2") 500), a2) ∧
    queue a1 = queue (app_init default_config) ∧
    closures a1 = closures (app_init default_config) ∧
    queue a2 = queue (app_init default_config) ∧
    closures a2 = closures (app_init default_config).
Proof.
  apply (falsy_payload_disagreement simple_builtins None default_config
           [("payload", PNone)] PNone "t1" "t2" (app_init default_config));
    done.
Defined.

(** * Properties of the field copy *)

Lemma res_bind_Ok {A B} (f : A → res B) (r : res A) (b : B) :
  r ≫= f = Ok b → ∃ a, r = Ok a ∧ f a = Ok b.
Proof. destruct r as [a|e]; simpl; [by exists a|done]. Qed.

Lemma get_Ok v k d x : get v k d = Ok x → ∃ items, v = PDict items.
Proof. destruct v; simpl; try done. by eexists. Qed.

Lemma FIELD_MAPPING_get_Some v name :
  FIELD_MAPPING_get v = Ok (Some name) →
  ∃ id, v = PStr id ∧ assoc id FIELD_MAPPING = Some name.
Proof. destruct v; simpl; try done. intros [= H]. by eexists. Qed.

Lemma truthy_not_None v : truthy v = true → v ≠ PNone.
Proof. by destruct v. Qed.

Lemma prepare_field_prepared L field out :
  prepare_field L field = Ok (Some out) →
  prepared out ∧
  ∃ id type, get field "id" PNone = Ok (PStr id) ∧
             get field "type" PNone = Ok type ∧
             subscript out "id" = Ok (PStr id) ∧
             subscript out "type" = Ok type.
Proof.
  unfold prepare_field. intros H.
  apply res_bind_Ok in H as (field_id & Hid & H).
  apply res_bind_Ok in H as (name & Hname & H).
  destruct name as [name|]; [|done].
  apply FIELD_MAPPING_get_Some in Hname as (id & -> & Hmap).
  apply res_bind_Ok in H as (value & Hvalue & H).
  apply res_bind_Ok in H as (field_type & Htype & H).
  destruct (is_none value && negb (eq_str field_type "checkbox")) eqn:Hskip;
    [done|].
  apply res_bind_Ok in H as (value_to_set & Hset & H).
  destruct value_to_set as [v|]; [|done]. simpl in H. injection H as <-.
  split; [|by exists id, field_type].
  exists id, name, (if is_none v then PBool false else v), field_type.
  split; [done|]. split; [done|]. split; [by destruct v|].
  intros Hdd. rewrite Hdd in Hset.
  apply res_bind_Ok in Hset as (tc & _ & Hset).
  apply res_bind_Ok in Hset as (opts & _ & Hset).
  apply res_bind_Ok in Hset as (target & _ & Hset).
  destruct (truthy target) eqn:Ht; [|done]. injection Hset as <-.
  by destruct target.
Qed.

Lemma prepare_loop_prepared L fields : ∀ out,
  prepare_loop L fields = Ok out →
  Forall prepared out ∧ length out ≤ length fields ∧
  sublist (omap (λ f, match subscript f "id" with Ok x => Some x | _ => None end) out)
          (omap (λ f, match get f "id" PNone with Ok x => Some x | _ => None end) fields).
Proof.
  induction fields as [|field fields IH]; simpl; intros out H.
  - injection H as <-. split; [done|]. split; [done|]. simpl. constructor.
  - apply res_bind_Ok in H as (o & Ho & H).
    apply res_bind_Ok in H as (out' & Hout & H). injection H as <-.
    destruct (IH _ Hout) as (Hall & Hlen & Hsub).
    destruct o as [x|].
    + destruct (prepare_field_prepared _ _ _ Ho) as (Hp & id & type & Hid & _ & Hxid & _).
      split; [by constructor|]. split; [simpl; lia|].
      simpl. rewrite Hid, Hxid. by constructor.
    + split; [done|]. split; [lia|].
      destruct (get field "id" PNone); [by constructor|done].
Qed.

Lemma prepared_prepare L parent_fields out :
  prepare_fields_for_update L parent_fields = Ok out →
  Forall prepared out ∧
  ∃ fields, py_iter parent_fields = Ok fields ∧ length out ≤ length fields.
Proof.
  unfold prepare_fields_for_update. intros H.
  apply res_bind_Ok in H as (fields & Hit & H).
  destruct (prepare_loop_prepared _ _ _ H) as (Hall & Hlen & Hsub).
  split; [done|]. by exists fields.
Qed.

(** X13.  What [prepare_fields_for_update] hands
    to the update: every field it returns is a dict with exactly the
    keys id, value, type and name, its id is a key of [FIELD_MAPPING]
    and its name the name mapped to it, its value is never [None], and
    the value of a dropdown is a truthy option id; the fields come in
    the order of the parent's fields, at most one for each of them. *)
Theorem prepared_fields_well_formed L parent_fields out :
  prepare_fields_for_update L parent_fields = Ok out →
  Forall prepared out ∧
  ∃ fields, py_iter parent_fields = Ok fields ∧ length out ≤ length fields ∧
            sublist (ids_of (λ f, subscript f "id") out)
                    (ids_of (λ f, get f "id" PNone) fields).
Proof.
  unfold prepare_fields_for_update. intros H.
  apply res_bind_Ok in H as (fields & Hit & H).
  destruct (prepare_loop_prepared _ _ _ H) as (Hall & Hlen & Hsub).
  split; [done|]. by exists fields.
Qed.

Lemma prepared_fields_well_formed_witness :
  ∃ out,
    prepare_fields_for_update simple_builtins parent_fields_example = Ok out ∧
    out = [PDict [("id", PStr "d2f1b2ca-7236-4d2c-9814-90d9a3b3e041");
                  ("value", PStr "X-1"); ("type", PStr "short_text");
                  ("name", PStr "SKU")];
           PDict [("id", PStr "dbed7e4e-1995-417a-b8eb-d73e7f1d7a80");
                  ("value", PStr "opt-b"); ("type", PStr "drop_down");
                  ("name", PStr "MACHINE MODEL")]] ∧
    (Forall prepared out ∧
     ∃ fields, py_iter parent_fields_example = Ok fields ∧
               length out ≤ length fields ∧
               sublist (ids_of (λ f, subscript f "id") out)
                       (ids_of (λ f, get f "id" PNone) fields)).
Proof.
  eexists. split; [vm_compute; reflexivity|]. split; [reflexivity|].
  apply (prepared_fields_well_formed simple_builtins parent_fields_example).
  vm_compute; reflexivity.
Defined.

Lemma current_option_id_eq L v options :
  current_option_id L v options = target_option_id L v options.
Proof. by destruct v. Qed.

(** X14.  Preparing and verifying agree: when the
    task read back has, under the id of a prepared field, the very
    field of the parent it was prepared from (same value, same options),
    [verify_field_updates] accepts it, for dropdowns too, whose value
    both functions resolve to an option id by code of their own.  The
    one exception is a checkbox whose value is [None]: it is prepared
    as [False], formatted as "false", and compared with the "" that
    [None] is formatted to, so it never verifies. *)
Theorem verification_accepts_copy L field out m :
  prepare_field L field = Ok (Some out) →
  (∀ id, subscript out "id" = Ok id → map_get m id = Ok (Some field)) →
  (get field "value" PNone ≠ Ok PNone → verify_field L m out = Ok true) ∧
  (get field "value" PNone = Ok PNone → str_on_strings L →
   verify_field L m out = Ok false).
Proof.
  unfold prepare_field. intros H Hm.
  apply res_bind_Ok in H as (field_id & Hid & H).
  apply res_bind_Ok in H as (name & Hname & H).
  destruct name as [name|]; [|done].
  apply FIELD_MAPPING_get_Some in Hname as (id & -> & Hmap).
  apply res_bind_Ok in H as (value & Hvalue & H).
  apply res_bind_Ok in H as (field_type & Htype & H).
  destruct (is_none value && negb (eq_str field_type "checkbox")) eqn:Hskip;
    [done|].
  apply res_bind_Ok in H as (value_to_set & Hset & H).
  destruct value_to_set as [v|]; [|done]. simpl in H. injection H as <-.
  specialize (Hm (PStr id) eq_refl).
  unfold map_get in Hm. simpl in Hm. injection Hm as Hm.
  unfold verify_field, map_get. simpl. rewrite Hm. simpl.
  rewrite Hvalue, Htype. simpl.
  destruct (eq_str field_type "drop_down") eqn:Hdd.
  - apply res_bind_Ok in Hset as (tc & Htc & Hset).
    apply res_bind_Ok in Hset as (opts & Hopts & Hset).
    apply res_bind_Ok in Hset as (target & Htarget & Hset).
    destruct (truthy target) eqn:Ht; [|done]. injection Hset as <-.
    rewrite Htc. simpl. rewrite Hopts. simpl.
    rewrite current_option_id_eq, Htarget. simpl.
    assert (is_none target = false) as -> by (by destruct target).
    rewrite bool_decide_eq_true_2 by done.
    split; [done|]. intros [= ->]. simpl in Hskip.
    destruct field_type as [| | | |s| |]; try done. simpl in *.
    repeat case_bool_decide; simplify_eq.
  - injection Hset as <-. split.
    + intros Hnn. assert (is_none value = false) as ->.
      { destruct value; try done. }
      by rewrite bool_decide_eq_true_2.
    + intros [= ->] Hstr. simpl. simpl in Hskip.
      apply negb_false_iff in Hskip.
      unfold format_field_value. simpl. rewrite Hskip. simpl.
      rewrite !Hstr. by rewrite bool_decide_eq_false_2.
Qed.

Lemma verification_accepts_copy_witness :
  let field :=
    PDict [("id", PStr "dbed7e4e-1995-417a-b8eb-d73e7f1d7a80");
           ("type", PStr "drop_down"); ("value", PInt 1);
           ("type_config",
            PDict [("options",
                    PList [PDict [("id", PStr "opt-a"); ("orderindex", PInt 0)];
                           PDict [("id", PStr "opt-b"); ("orderindex", PInt 1)]])])] in
  let out :=
    PDict [("id", PStr "dbed7e4e-1995-417a-b8eb-d73e7f1d7a80");
           ("value", PStr "opt-b"); ("type", PStr "drop_down");
           ("name", PStr "MACHINE MODEL")] in
  let m := [(PStr "dbed7e4e-1995-417a-b8eb-d73e7f1d7a80", field)] in
  prepare_field simple_builtins field = Ok (Some out) ∧
  ((get field "value" PNone ≠ Ok PNone →
    verify_field simple_builtins m out = Ok true) ∧
   (get field "value" PNone = Ok PNone → str_on_strings simple_builtins →
    verify_field simple_builtins m out = Ok false)).
Proof.
  intros field out m. split; [vm_compute; reflexivity|].
  apply (verification_accepts_copy simple_builtins field out m).
  - vm_compute; reflexivity.
  - intros id [= <-]. vm_compute; reflexivity.
Defined.

Lemma Forall_sublist_of {A} (P : A → Prop) (k l : list A) :
  k `sublist_of` l → Forall P l → Forall P k.
Proof.
  induction 1 as [|x k l _ IH|x k l _ IH]; intros Hl; [done| |].
  - apply Forall_cons in Hl as [? ?]. constructor; auto.
  - apply Forall_cons in Hl as [? ?]. auto.
Qed.

Lemma verify_loop_spec L m rf expected : ∀ ok0 acc ok failed,
  verify_loop L m rf expected ok0 acc = Ok (ok, failed) →
  ∃ new, new `sublist_of` expected ∧
         Forall (λ f, verify_field L m f = Ok false) new ∧
         failed = (if rf then acc ++ new else acc) ∧
         ok = ok0 && bool_decide (new = []).
Proof.
  induction expected as [|f expected IH]; simpl; intros ok0 acc ok failed H.
  - injection H as <- <-. exists []. split; [done|]. split; [done|].
    split; [by destruct rf; rewrite ?app_nil_r|]. by rewrite andb_true_r.
  - apply res_bind_Ok in H as (b & Hb & H). destruct b.
    + destruct (IH _ _ _ _ H) as (new & Hsub & Hall & -> & ->).
      exists new. split; [by apply sublist_cons|]. done.
    + destruct (IH _ _ _ _ H) as (new & Hsub & Hall & -> & ->).
      exists (f :: new). split; [by apply sublist_skip|].
      split; [by constructor|]. split.
      * destruct rf; [|done]. by rewrite <- app_assoc.
      * by rewrite andb_false_r.
Qed.

Lemma verify_field_updates_spec L task_id expected E tr r tr' :
  verify_field_updates L task_id expected true E tr = (r, tr') →
  gets tr' = gets tr ++ [task_id] ∧ posts tr' = posts tr ∧ slept tr' = slept tr ∧
  ∀ ok failed, r = Ok (ok, failed) →
    failed `sublist_of` expected ∧
    (ok = true → failed = []) ∧
    (failed = [] → expected ≠ [] → ok = true) ∧
    (get_reply E (length (gets tr)) = None → failed = expected).
Proof.
  unfold verify_field_updates, get_task_details, mbind, J_mbind, J_bind, J_lift,
    mret, J_mret, J_ret. simpl.
  destruct (truthy (default PNone (get_reply E (length (gets tr))))) eqn:Htr; simpl.
  - match goal with
    | |- context [match ?x with Ok _ => _ | Raise _ => _ end] =>
        destruct x as [m|e] eqn:Hm
    end; simpl.
    + intros [= <- <-]. simpl. split_and!; try done.
      intros ok failed Hloop.
      destruct (verify_loop_spec _ _ _ _ _ _ _ _ Hloop) as (new & Hsub & _ & -> & ->).
      simpl. split; [done|]. split; [by intros ->%bool_decide_eq_true|].
      split; [by intros ->|]. intros Hn. by rewrite Hn in Htr.
    + intros [= <- <-]. simpl. split_and!; try done.
  - intros [= <- <-]. simpl. split_and!; try done.
    intros ok failed [= <- <-]. split; [done|]. split; [done|]. done.
Qed.

(** X15.  [verify_field_updates] with
    [return_failed=True] reads the task once and writes nothing; the
    fields it reports are among the expected ones, in their order; it
    reports none when it answers [True]; when it reports none for a
    list that is not empty, it answers [True]; and when the task cannot
    be fetched it reports all of them. (For an empty list and a task
    that cannot be fetched it answers [False] and reports nothing.) *)
Theorem verify_reports_failed_fields L task_id expected E tr r tr' :
  verify_field_updates L task_id expected true E tr = (r, tr') →
  gets tr' = gets tr ++ [task_id] ∧ posts tr' = posts tr ∧ slept tr' = slept tr ∧
  ∀ ok failed, r = Ok (ok, failed) →
    failed `sublist_of` expected ∧
    (ok = true → failed = []) ∧
    (failed = [] → expected ≠ [] → ok = true) ∧
    (get_reply E (length (gets tr)) = None → failed = expected).
Proof. apply verify_field_updates_spec. Qed.

Lemma grows_refl task tr : grows task 0 0 tr tr.
Proof. exists [], []. by rewrite !app_nil_r. Qed.

Lemma grows_trans task a b c d tr1 tr2 tr3 :
  grows task a b tr1 tr2 → grows task c d tr2 tr3 → grows task (a + c) (b + d) tr1 tr3.
Proof.
  intros (g1 & p1 & Hg1 & Hf1 & Hl1 & Hp1 & Hm1 & Hn1)
         (g2 & p2 & Hg2 & Hf2 & Hl2 & Hp2 & Hm2 & Hn2).
  exists (g1 ++ g2), (p1 ++ p2).
  rewrite Hg2, Hg1, Hp2, Hp1, <- !app_assoc, !length_app.
  split_and!; try done; try lia; by apply Forall_app.
Qed.

Lemma grows_weaken task a b a' b' tr tr' :
  grows task a b tr tr' → a ≤ a' → b ≤ b' → grows task a' b' tr tr'.
Proof.
  intros (g & p & ? & ? & ? & ? & ? & ?) ? ?. exists g, p.
  split_and!; try done; lia.
Qed.

Ltac J_unfold :=
  unfold mbind, J_mbind, J_bind, J_lift, mret, J_mret, J_ret, sleep,
    update_single_field, get_task_details in *.

Lemma update_loop_grows task pause fields : ∀ E tr r tr',
  Forall prepared fields →
  update_loop task pause fields E tr = (r, tr') →
  (∃ rs, r = Ok rs) ∧ grows task 0 (length fields) tr tr'.
Proof.
  induction fields as [|f fields IH]; intros E tr r tr' Hall H; simpl in H.
  - J_unfold. injection H as <- <-. split; [by eexists|apply grows_refl].
  - apply Forall_cons in Hall as [(id & name & value & type & -> & Hmap & _) Hall].
    J_unfold. simpl in H.
    assert (∀ tr1, grows task 0 1 tr tr1 →
              (let (r0, tr'0) := update_loop task pause fields E tr1 in
               match r0 with
               | Ok x0 => (Ok (post_reply E (length (posts tr)) :: x0), tr'0)
               | Raise e => (Raise e, tr'0)
               end) = (r, tr') →
              (∃ rs, r = Ok rs) ∧ grows task 0 (S (length fields)) tr tr') as Hgo.
    { intros tr1 Hg0 Hrun.
      destruct (update_loop task pause fields E tr1) as [r1 tr2] eqn:Hrec.
      destruct (IH _ _ _ _ Hall Hrec) as [[rs ->] Hg].
      injection Hrun as <- <-. split; [by eexists|].
      eapply grows_weaken; [eapply grows_trans; [exact Hg0|exact Hg]|lia|lia]. }
    assert (mapped_post task
              (Post task (PStr id)
                 (format_field_value value (py_or type (PStr ""))))) as Hp.
    { split; [done|]. by exists id, name. }
    destruct pause; simpl in H; (eapply Hgo; [|exact H]);
      (eexists [], [_]; simpl; rewrite app_nil_r; split_and!; try done;
       by constructor).
Qed.

Lemma update_task_fields_grows task fields E tr r tr' :
  Forall prepared fields →
  update_task_fields task fields E tr = (r, tr') →
  (∃ b, r = Ok b) ∧ grows task 0 (length fields) tr tr'.
Proof.
  intros Hall H. destruct fields as [|f fields].
  - simpl in H. J_unfold. injection H as <- <-.
    split; [by eexists|apply grows_refl].
  - cbv beta iota delta [update_task_fields] in H.
    set (fs := f :: fields) in *.
    unfold mbind, J_mbind, J_bind in H.
    destruct (update_loop task (bool_decide (1 < length fs)) fs E tr)
      as [r1 tr1] eqn:Hloop.
    destruct (update_loop_grows _ _ _ _ _ _ _ Hall Hloop) as [[rs ->] Hg].
    J_unfold. injection H as <- <-. split; [by eexists|done].
Qed.

Lemma verify_grows L task expected E tr r tr' :
  verify_field_updates L task expected true E tr = (r, tr') →
  grows task 1 0 tr tr'.
Proof.
  intros H. destruct (verify_field_updates_spec _ _ _ _ _ _ _ H) as (Hg & Hp & _).
  exists [task], []. rewrite app_nil_r. split_and!; try done. by constructor.
Qed.

Lemma log_grows task ids E tr r tr' :
  log_current_field_states task ids E tr = (r, tr') → grows task 1 0 tr tr'.
Proof.
  unfold log_current_field_states. J_unfold. simpl.
  intros H. assert (gets tr' = gets tr ++ [task] ∧ posts tr' = posts tr) as [Hg Hp].
  { destruct (truthy _); simpl in H; by injection H as <- <-. }
  exists [task], []. rewrite app_nil_r. split_and!; try done. by constructor.
Qed.

Lemma subscripts_prepared k fields :
  (k = "id" ∨ k = "name") → Forall prepared fields →
  ∃ xs, subscripts k fields = Ok xs.
Proof.
  intros Hk. induction 1 as [|f fields (id & name & value & type & -> & _) _ [xs IH]];
    simpl; [by eexists|].
  destruct Hk as [->| ->]; simpl; rewrite IH; by eexists.
Qed.

Lemma dropdowns_prepared fields :
  Forall prepared fields →
  ∃ ds, dropdowns fields = Ok ds ∧ ds `sublist_of` fields ∧
        Forall (λ f, get f "type" PNone = Ok (PStr "drop_down")) ds ∧
        (Forall (λ f, get f "type" PNone ≠ Ok (PStr "drop_down")) fields → ds = []).
Proof.
  induction 1 as [|f fields (id & name & value & type & -> & _) _ (ds & IH & Hs & Hd & Hn)];
    simpl; [by exists []|].
  rewrite IH. simpl. destruct (eq_str type "drop_down") eqn:Ht.
  - eexists. split; [done|]. split; [by apply sublist_skip|].
    split.
    + constructor; [|done]. simpl. destruct type; try done. simpl in Ht.
      by apply bool_decide_eq_true in Ht as ->.
    + intros [Hf _]%Forall_cons. simpl in Hf. destruct type; try done.
      simpl in Ht. by apply bool_decide_eq_true in Ht as ->.
  - eexists. split; [done|]. split; [by apply sublist_cons|]. split; [done|].
    intros [_ Hf]%Forall_cons. auto.
Qed.

Lemma retry_loop_S L n task f fields :
  retry_loop L (S n) task (f :: fields) =
  (J_lift (subscripts "name" (f :: fields));;
   sleep 1000;;
   update_task_fields task (f :: fields);;
   r ← verify_field_updates L task (f :: fields) true;
   if r.1 : bool
   then retry_loop L n task []
   else J_lift (subscripts "name" r.2);;
        retry_loop L n task r.2).
Proof. done. Qed.

Lemma retry_loop_grows L n task : ∀ fields E tr r tr',
  Forall prepared fields →
  retry_loop L n task fields E tr = (r, tr') →
  grows task n (n * length fields) tr tr' ∧
  (fields = [] → r = Ok [] ∧ tr' = tr).
Proof.
  induction n as [|n IH]; intros fields E tr r tr' Hall H.
  - simpl in H. assert ((r, tr') = (Ok fields, tr)) as [= -> ->].
    { rewrite <- H. by destruct fields. }
    split; [apply grows_refl|]. by intros ->.
  - destruct fields as [|f fields].
    { simpl in H. J_unfold. injection H as <- <-. split; [|done].
      eapply grows_weaken; [apply grows_refl|lia|lia]. }
    split; [|done]. rewrite retry_loop_S in H. set (fs := f :: fields) in *.
    destruct (subscripts_prepared "name" fs) as [xs Hxs]; [by right|done|].
    unfold mbind, J_mbind, J_bind, J_lift, sleep in H. rewrite Hxs in H.
    set (tr1 := Trace _ _ _) in H.
    assert (grows task 0 0 tr tr1) as Hg1.
    { exists [], []. by rewrite !app_nil_r. }
    destruct (update_task_fields task fs E tr1) as [r2 tr2] eqn:Hup.
    destruct (update_task_fields_grows _ _ _ _ _ _ Hall Hup) as [[b ->] Hg2].
    destruct (verify_field_updates L task fs true E tr2) as [r3 tr3] eqn:Hver.
    pose proof (verify_grows _ _ _ _ _ _ _ Hver) as Hg3.
    destruct (verify_field_updates_spec _ _ _ _ _ _ _ Hver) as (_ & _ & _ & Hres).
    assert (grows task 1 (length fs) tr tr3) as Hg.
    { eapply grows_weaken;
        [eapply grows_trans; [exact Hg1|eapply grows_trans; [exact Hg2|exact Hg3]]
        |lia|lia]. }
    destruct r3 as [[ok failed]|e].
    2: { injection H as <- <-. eapply grows_weaken; [exact Hg|lia|lia]. }
    destruct (Hres _ _ eq_refl) as (Hsub & _). simpl in H.
    destruct ok.
    + destruct (retry_loop L n task [] E tr3) as [r4 tr4] eqn:Hrec.
      destruct (IH _ _ _ _ _ (Forall_nil_2 _) Hrec) as [_ Hnil].
      destruct (Hnil eq_refl) as [-> ->]. injection H as <- <-.
      eapply grows_weaken; [exact Hg|lia|lia].
    + assert (Forall prepared failed) as Hf by (by eapply Forall_sublist_of).
      destruct (subscripts_prepared "name" failed) as [ys Hys]; [by right|done|].
      rewrite Hys in H.
      destruct (IH _ _ _ _ _ Hf H) as [Hg4 _].
      pose proof (sublist_length _ _ Hsub).
      eapply grows_weaken; [eapply grows_trans; [exact Hg|exact Hg4]|lia|nia].
Qed.

Lemma J_except_run {A} (m : J A) (x : A) E tr r tr' :
  J_except m x E tr = (r, tr') →
  ∃ r0, m E tr = (r0, tr') ∧ r = match r0 with Ok y => Ok y | Raise _ => Ok x end.
Proof.
  unfold J_except. destruct (m E tr) as [[y|e] tr1]; intros [= <- <-]; by eexists.
Qed.

#[local] Arguments retry_loop : simpl never.

Lemma handle_subtask_creation_grows L subtask_id parent_task_id E tr r tr' :
  handle_subtask_creation L subtask_id parent_task_id E tr = (r, tr') →
  (∃ b, r = Ok b) ∧
  ∃ tr1, gets tr1 = gets tr ++ [parent_task_id] ∧ posts tr1 = posts tr ∧
         ∃ n, grows subtask_id 4 (3 * n) tr1 tr' ∧
              ∀ parent cf fields,
                get_reply E (length (gets tr)) = Some parent →
                get parent "custom_fields" (PList []) = Ok cf →
                py_iter cf = Ok fields → n ≤ length fields.
Proof.
  unfold handle_subtask_creation. intros H.
  apply J_except_run in H as (r0 & H & ->).
  split; [destruct r0; by eexists|].
  unfold mbind at 1, J_mbind at 1, J_bind at 1, get_task_details at 1 in H.
  set (tr1 := Trace (gets tr ++ [parent_task_id]) (posts tr) (slept tr)) in H.
  exists tr1. split; [done|]. split; [done|].
  assert (∀ tr2, tr2 = tr' → tr2 = tr1 →
            ∃ n, grows subtask_id 4 (3 * n) tr1 tr' ∧
                 ∀ parent cf fields,
                   get_reply E (length (gets tr)) = Some parent →
                   get parent "custom_fields" (PList []) = Ok cf →
                   py_iter cf = Ok fields → n ≤ length fields) as Hsame.
  { intros tr2 <- ->. exists 0. split; [|intros; lia].
    eapply grows_weaken; [apply grows_refl|lia|lia]. }
  set (parent := default PNone (get_reply E (length (gets tr)))) in H.
  destruct (truthy parent) eqn:Htr; simpl in H.
  2: { J_unfold. injection H as <- <-. by eapply Hsame. }
  unfold mbind at 1, J_mbind at 1, J_bind at 1, J_lift at 1 in H.
  destruct (get parent "custom_fields" (PList [])) as [cf|e] eqn:Hcf; simpl in H.
  2: { injection H as <- <-. by eapply Hsame. }
  destruct (py_len cf) as [len|e] eqn:Hlen; simpl in H.
  2: { injection H as <- <-. by eapply Hsame. }
  unfold mbind at 1, J_mbind at 1, J_bind at 1, J_lift at 1 in H.
  destruct (prepare_fields_for_update L cf) as [fields_to_update|e] eqn:Hprep;
    simpl in H.
  2: { injection H as <- <-. by eapply Hsame. }
  destruct (prepared_prepare _ _ _ Hprep) as (Hall & fields & Hit & Hle).
  exists (length fields_to_update). split.
  2: { intros p cf' fs Hp. unfold parent in Hcf. rewrite Hp in Hcf. simpl in Hcf.
       rewrite Hcf. intros [= <-]. rewrite Hit. by intros [= <-]. }
  destruct fields_to_update as [|f fs].
  { J_unfold. injection H as <- <-.
    eapply grows_weaken; [apply grows_refl|lia|lia]. }
  set (ftu := f :: fs) in *.
  destruct (subscripts_prepared "id" ftu) as [ids Hids]; [by left|done|].
  unfold mbind at 1, J_mbind at 1, J_bind at 1, J_lift at 1 in H. rewrite Hids in H.
  unfold mbind at 1, J_mbind at 1, J_bind at 1 in H.
  destruct (log_current_field_states subtask_id ids E tr1) as [r2 tr2] eqn:Hlog.
  pose proof (log_grows _ _ _ _ _ _ Hlog) as Hg2.
  destruct r2 as [[]|e].
  2: { injection H as <- <-. eapply grows_weaken; [exact Hg2|lia|lia]. }
  unfold mbind at 1, J_mbind at 1, J_bind at 1 in H.
  destruct (update_task_fields subtask_id ftu E tr2) as [r3 tr3] eqn:Hup.
  destruct (update_task_fields_grows _ _ _ _ _ _ Hall Hup) as [[b ->] Hg3].
  unfold mbind at 1, J_mbind at 1, J_bind at 1 in H.
  destruct (verify_field_updates L subtask_id ftu true E tr3) as [r4 tr4] eqn:Hver.
  pose proof (verify_grows _ _ _ _ _ _ _ Hver) as Hg4.
  destruct (verify_field_updates_spec _ _ _ _ _ _ _ Hver) as (_ & _ & _ & Hres).
  assert (grows subtask_id 2 (length ftu) tr1 tr4) as Hg.
  { eapply grows_weaken;
      [eapply grows_trans; [exact Hg2|eapply grows_trans; [exact Hg3|exact Hg4]]
      |lia|lia]. }
  destruct r4 as [[ok failed]|e].
  2: { injection H as <- <-. eapply grows_weaken; [exact Hg|lia|lia]. }
  destruct (Hres _ _ eq_refl) as (Hsub & _). cbn [fst snd] in H.
  destruct ok.
  { J_unfold. injection H as <- <-. eapply grows_weaken; [exact Hg|lia|lia]. }
  assert (Forall prepared failed) as Hf by (by eapply Forall_sublist_of).
  destruct (subscripts_prepared "name" failed) as [ys Hys]; [by right|done|].
  destruct (dropdowns_prepared failed Hf) as (ds & Hds & Hdsub & _).
  unfold mbind at 1, J_mbind at 1, J_bind at 1, J_lift at 1 in H. rewrite Hys in H.
  unfold mbind at 1, J_mbind at 1, J_bind at 1, J_lift at 1 in H. rewrite Hds in H.
  unfold mbind at 1, J_mbind at 1, J_bind at 1 in H.
  destruct (retry_loop L 2 subtask_id ds E tr4) as [r5 tr5] eqn:Hretry.
  assert (Forall prepared ds) as Hdp by (by eapply Forall_sublist_of).
  destruct (retry_loop_grows _ _ _ _ _ _ _ _ Hdp Hretry) as [Hg5 _].
  pose proof (sublist_length _ _ Hsub). pose proof (sublist_length _ _ Hdsub).
  assert (tr' = tr5) as ->.
  { destruct r5; J_unfold; simpl in H; by injection H as <- <-. }
  eapply grows_weaken; [eapply grows_trans; [exact Hg|exact Hg5]|lia|lia].
Qed.

(** X16.  [handle_subtask_creation] never raises,
    whatever the API answers.  It reads the parent task once, first,
    and then the subtask at most four times; every write goes to the
    subtask, to a field whose id is a key of [FIELD_MAPPING]; and there
    are at most three writes for each custom field of the parent (the
    first update and two retries). *)
Theorem field_copy_is_contained L subtask_id parent_task_id E tr r tr' :
  handle_subtask_creation L subtask_id parent_task_id E tr = (r, tr') →
  (∃ b, r = Ok b) ∧
  ∃ reads writes,
    gets tr' = gets tr ++ parent_task_id :: reads ∧
    Forall (λ task, task = subtask_id) reads ∧ length reads ≤ 4 ∧
    posts tr' = posts tr ++ writes ∧
    Forall (mapped_post subtask_id) writes ∧
    ∀ parent cf fields,
      get_reply E (length (gets tr)) = Some parent →
      get parent "custom_fields" (PList []) = Ok cf →
      py_iter cf = Ok fields → length writes ≤ 3 * length fields.
Proof.
  intros H.
  destruct (handle_subtask_creation_grows _ _ _ _ _ _ _ H)
    as (Hr & tr1 & Hg1 & Hp1 & n & (g & p & Hg & Hall & Hlen & Hp & Hm & Hn) & Hb).
  split; [done|]. exists g, p. rewrite Hg, Hg1, Hp, Hp1, <- app_assoc.
  split_and!; try done. intros parent cf fields H1 H2 H3.
  specialize (Hb _ _ _ H1 H2 H3). lia.
Qed.

Lemma py_iter_len v l : py_iter v = Ok l → ∃ n, py_len v = Ok n.
Proof. destruct v; simpl; try done; by eexists. Qed.

Lemma task_ok_fields v :
  task_ok v = true → truthy v = true →
  ∃ l, (custom_fields ← get v "custom_fields" (PList []); py_iter custom_fields)
       = Ok l ∧ forallb field_ok l = true.
Proof.
  unfold task_ok. intros H Ht. rewrite Ht in H. simpl in H.
  destruct v as [| | | | | |items]; try done. simpl.
  destruct (default (PList []) (assoc "custom_fields" items)); try done.
  simpl. by eexists.
Qed.

Lemma log_fields_ok l : forallb field_ok l = true → log_fields l = Ok ().
Proof.
  induction l as [|f l IH]; simpl; [done|].
  intros [Hf Hl]%andb_true_iff. destruct f; try done. simpl. by apply IH.
Qed.

Lemma fields_map_ok l :
  forallb field_ok l = true →
  ∃ m, fields_map l = Ok m ∧ Forall (λ kv, ∃ items, kv.2 = PDict items) m.
Proof.
  induction l as [|f l IH]; simpl; [by exists []|].
  intros [Hf Hl]%andb_true_iff. destruct (IH Hl) as (m & Hm & Hall).
  destruct f as [| | | | | |items]; try done. simpl in *.
  destruct (assoc "id" items) as [id|]; [|done]. simpl. rewrite Hf, Hm. simpl.
  eexists. split; [done|]. constructor; [by eexists|done].
Qed.

Lemma verify_field_plain L m f :
  prepared f → ¬ is_dropdown f →
  Forall (λ kv, ∃ items, kv.2 = PDict items) m →
  ∃ b, verify_field L m f = Ok b.
Proof.
  intros (id & name & value & type & -> & _) Hnd Hm.
  unfold verify_field, map_get. simpl.
  destruct (last (filter _ m)) as [[k cf]|] eqn:Hlast; simpl; [|by eexists].
  assert ((k, cf) ∈ m) as Hin.
  { apply last_Some in Hlast as [l' Hl'].
    assert ((k, cf) ∈ filter (λ kv : pyval * pyval, scalar_eq kv.1 (PStr id) = true) m)
      as Hf by (rewrite Hl'; apply elem_of_app; right; apply list_elem_of_here).
    by apply list_elem_of_filter in Hf as [_ ?]. }
  rewrite Forall_forall in Hm. destruct (Hm _ Hin) as [items Hcf].
  simpl in Hcf. subst cf. simpl.
  destruct (eq_str type "drop_down") eqn:Ht; [|by eexists].
  destruct Hnd. unfold is_dropdown. simpl. destruct type; try done.
  simpl in Ht. by apply bool_decide_eq_true in Ht as ->.
Qed.

Lemma verify_loop_plain L m rf expected : ∀ ok0 acc,
  Forall prepared expected → Forall (λ f, ¬ is_dropdown f) expected →
  Forall (λ kv, ∃ items, kv.2 = PDict items) m →
  ∃ r, verify_loop L m rf expected ok0 acc = Ok r.
Proof.
  induction expected as [|f expected IH]; intros ok0 acc Hp Hnd Hm; simpl;
    [by eexists|].
  apply Forall_cons in Hp as [Hp1 Hp]. apply Forall_cons in Hnd as [Hnd1 Hnd].
  destruct (verify_field_plain L m f Hp1 Hnd1 Hm) as [b ->]. simpl.
  destruct b; by apply IH.
Qed.

(** X17.  [handle_subtask_creation] answers
    [True] without any field being verified when no dropdown is among
    the fields to copy: the retry loop looks at the dropdowns among the
    failed fields only, and the result is [True] when none of them is
    left.  So for a parent without a mapped dropdown the result is
    [True] whatever the API answers to the writes and whatever the
    verification finds, as long as the answers to the reads are tasks
    as the API returns them, or failures. *)
Theorem field_copy_success_unverified L subtask_id parent_task_id E tr
    parent cf fields :
  get_reply E (length (gets tr)) = Some parent → truthy parent = true →
  get parent "custom_fields" (PList []) = Ok cf →
  prepare_fields_for_update L cf = Ok fields →
  Forall (λ f, ¬ is_dropdown f) fields →
  (∀ n, length (gets tr) < n → reply_ok (get_reply E n) = true) →
  ∃ tr', handle_subtask_creation L subtask_id parent_task_id E tr = (Ok true, tr').
Proof.
  intros Hparent Htr Hcf Hprep Hnd Hreplies.
  destruct (prepared_prepare _ _ _ Hprep) as (Hall & l & Hit & _).
  destruct (py_iter_len _ _ Hit) as [len Hlen].
  unfold handle_subtask_creation, J_except.
  unfold mbind at 1, J_mbind at 1, J_bind at 1, get_task_details at 1.
  rewrite Hparent. cbn [default from_option id]. rewrite Htr. cbn [negb].
  unfold mbind at 1, J_mbind at 1, J_bind at 1, J_lift at 1.
  rewrite Hcf. simpl. rewrite Hlen. simpl.
  unfold mbind at 1, J_mbind at 1, J_bind at 1, J_lift at 1.
  rewrite Hprep. simpl.
  destruct fields as [|f fs]; [by eexists|]. cbv iota.
  remember (f :: fs) as ftu eqn:Hftu.
  destruct (subscripts_prepared "id" ftu) as [ids Hids]; [by left|done|].
  unfold mbind at 1, J_mbind at 1, J_bind at 1, J_lift at 1. rewrite Hids.
  set (tr1 := Trace (gets tr ++ [parent_task_id]) (posts tr) (slept tr)).
  assert (length (gets tr1) = S (length (gets tr))) as Hlen1.
  { simpl. rewrite length_app. simpl. lia. }
  (* the log *)
  unfold mbind at 1, J_mbind at 1, J_bind at 1.
  destruct (log_current_field_states subtask_id ids E tr1) as [r2 tr2] eqn:Hlog.
  assert (r2 = Ok () ∧ length (gets tr2) = S (S (length (gets tr)))) as [-> Hlen2].
  { revert Hlog. unfold log_current_field_states. J_unfold. simpl.
    pose proof (Hreplies (length (gets tr1))) as Hok. rewrite Hlen1 in Hok.
    rewrite length_app. simpl. rewrite Nat.add_1_r.
    destruct (get_reply E (S (length (gets tr)))) as [v|] eqn:Hv; simpl.
    - destruct (truthy v) eqn:Htv; simpl.
      + destruct (task_ok_fields v) as (l2 & Hl2 & Hf2); [apply Hok; lia|done|].
        apply res_bind_Ok in Hl2 as (cf2 & Hcf2 & Hl2).
        rewrite Hcf2. simpl. rewrite Hl2. simpl. rewrite (log_fields_ok _ Hf2).
        intros [= <- <-]. simpl. rewrite !length_app. simpl. split; [done|lia].
      + intros [= <- <-]. simpl. rewrite !length_app. simpl. split; [done|lia].
    - intros [= <- <-]. simpl. rewrite !length_app. simpl. split; [done|lia]. }
  (* the update *)
  unfold mbind at 1, J_mbind at 1, J_bind at 1.
  destruct (update_task_fields subtask_id ftu E tr2) as [r3 tr3] eqn:Hup.
  destruct (update_task_fields_grows _ _ _ _ _ _ Hall Hup)
    as [[b ->] (g3 & p3 & Hg3 & _ & Hl3 & _)].
  assert (length (gets tr3) = S (S (length (gets tr)))) as Hlen3.
  { rewrite Hg3, length_app. destruct g3; simpl in *; lia. }
  (* the verification *)
  unfold mbind at 1, J_mbind at 1, J_bind at 1.
  destruct (verify_field_updates L subtask_id ftu true E tr3) as [r4 tr4] eqn:Hver.
  destruct (verify_field_updates_spec _ _ _ _ _ _ _ Hver) as (_ & _ & _ & Hres).
  assert (∃ ok failed, r4 = Ok (ok, failed)) as (ok & failed & ->).
  { revert Hver. unfold verify_field_updates. J_unfold. simpl.
    pose proof (Hreplies (length (gets tr3))) as Hok. rewrite Hlen3 in Hok.
    rewrite Hlen3.
    destruct (get_reply E (S (S (length (gets tr))))) as [v|] eqn:Hv; simpl.
    - destruct (truthy v) eqn:Htv; simpl.
      + destruct (task_ok_fields v) as (l2 & Hl2 & Hf2); [apply Hok; lia|done|].
        apply res_bind_Ok in Hl2 as (cf2 & Hcf2 & Hl2).
        destruct (fields_map_ok _ Hf2) as (m & Hm & Hmd).
        rewrite Hcf2. simpl. rewrite Hl2. simpl. rewrite Hm. simpl.
        destruct (verify_loop_plain L m true ftu true [] Hall Hnd Hmd)
          as [[ok failed] Hloop].
        rewrite Hloop. intros [= <- <-]. by eexists _, _.
      + intros [= <- <-]. by eexists _, _.
    - intros [= <- <-]. by eexists _, _. }
  destruct (Hres _ _ eq_refl) as (Hsub & _). cbn [fst snd].
  destruct ok; [by eexists|].
  assert (Forall prepared failed) as Hf by (by eapply Forall_sublist_of).
  destruct (subscripts_prepared "name" failed) as [ys Hys]; [by right|done|].
  destruct (dropdowns_prepared failed Hf) as (ds & Hds & _ & _ & Hnone).
  rewrite Hnone in Hds by (by eapply Forall_sublist_of).
  unfold mbind at 1, J_mbind at 1, J_bind at 1, J_lift at 1. rewrite Hys.
  unfold mbind at 1, J_mbind at 1, J_bind at 1, J_lift at 1. rewrite Hds.
  unfold mbind at 1, J_mbind at 1, J_bind at 1.
  by eexists.
Qed.

Lemma verify_reports_failed_fields_witness :
  ∃ r tr',
    verify_field_updates simple_builtins (PStr "S9")
      [PDict [("id", PStr "d2f1b2ca-7236-4d2c-9814-90d9a3b3e041");
              ("value", PStr "X-1"); ("type", PStr "short_text");
              ("name", PStr "SKU")]] true api_shows_no_fields no_trace = (r, tr') ∧
    r = Ok (false,
            [PDict [("id", PStr "d2f1b2ca-7236-4d2c-9814-90d9a3b3e041");
                    ("value", PStr "X-1"); ("type", PStr "short_text");
                    ("name", PStr "SKU")]]) ∧
    (gets tr' = gets no_trace ++ [PStr "S9"] ∧ posts tr' = posts no_trace ∧
     slept tr' = slept no_trace ∧
     ∀ ok failed, r = Ok (ok, failed) →
       failed `sublist_of`
         [PDict [("id", PStr "d2f1b2ca-7236-4d2c-9814-90d9a3b3e041");
                 ("value", PStr "X-1"); ("type", PStr "short_text");
                 ("name", PStr "SKU")]] ∧
       (ok = true → failed = []) ∧
       (failed = [] →
        [PDict [("id", PStr "d2f1b2ca-7236-4d2c-9814-90d9a3b3e041");
                ("value", PStr "X-1"); ("type", PStr "short_text");
                ("name", PStr "SKU")]] ≠ [] → ok = true) ∧
       (get_reply api_shows_no_fields (length (gets no_trace)) = None →
        failed =
          [PDict [("id", PStr "d2f1b2ca-7236-4d2c-9814-90d9a3b3e041");
                  ("value", PStr "X-1"); ("type", PStr "short_text");
                  ("name", PStr "SKU")]])).
Proof.
  eexists _, _. split; [vm_compute; reflexivity|]. split; [reflexivity|].
  apply (verify_reports_failed_fields simple_builtins (PStr "S9") _
           api_shows_no_fields no_trace).
  vm_compute; reflexivity.
Defined.

Lemma field_copy_is_contained_witness :
  ∃ r tr',
    handle_subtask_creation simple_builtins (PStr "S9") (PStr "T1")
      (Clickup (λ n, match n with
                     | 0 => Some parent_task_example
                     | _ => Some (PDict [("id", PStr "S9");
                                         ("custom_fields", PList [])])
                     end) (λ _, true)) no_trace = (r, tr') ∧
    r = Ok false ∧ length (gets tr') = 5 ∧ length (posts tr') = 4 ∧
    slept tr' = 3000 ∧
    ((∃ b, r = Ok b) ∧
     ∃ reads writes,
       gets tr' = gets no_trace ++ PStr "T1" :: reads ∧
       Forall (λ task, task = PStr "S9") reads ∧ length reads ≤ 4 ∧
       posts tr' = posts no_trace ++ writes ∧
       Forall (mapped_post (PStr "S9")) writes ∧
       ∀ parent cf fields,
         get_reply
           (Clickup (λ n, match n with
                          | 0 => Some parent_task_example
                          | _ => Some (PDict [("id", PStr "S9");
                                              ("custom_fields", PList [])])
                          end) (λ _, true)) (length (gets no_trace)) = Some parent →
         get parent "custom_fields" (PList []) = Ok cf →
         py_iter cf = Ok fields → length writes ≤ 3 * length fields).
Proof.
  eexists _, _. split; [vm_compute; reflexivity|]. split; [reflexivity|].
  split; [reflexivity|]. split; [reflexivity|]. split; [reflexivity|].
  apply (field_copy_is_contained simple_builtins (PStr "S9") (PStr "T1")).
  vm_compute; reflexivity.
Defined.

Lemma field_copy_success_unverified_witness :
  ∃ tr',
    handle_subtask_creation simple_builtins (PStr "S9") (PStr "T1")
      (api_goes_down plain_parent_example) no_trace = (Ok true, tr').
Proof.
  eapply (field_copy_success_unverified simple_builtins (PStr "S9") (PStr "T1")
            (api_goes_down plain_parent_example) no_trace plain_parent_example).
  - reflexivity.
  - reflexivity.
  - reflexivity.
  - vm_compute; reflexivity.
  - constructor; [|constructor]. unfold is_dropdown. simpl. discriminate.
  - intros [|n] Hn; [simpl in Hn; lia|reflexivity].
Defined.

Lemma update_loop_spec task pause fields : ∀ E tr ps,
  mapM (post_of task) fields = Some ps →
  update_loop task pause fields E tr =
    (Ok (post_reply E <$> seq (length (posts tr)) (length fields)),
     Trace (gets tr) (posts tr ++ ps)
       (slept tr + (if pause then 500 * length fields else 0))).
Proof.
  induction fields as [|f fields IH]; intros E tr ps Hps.
  - injection Hps as <-. cbn [update_loop length seq fmap list_fmap].
    J_unfold. rewrite app_nil_r.
    destruct tr, pause; cbn [gets posts slept]; do 2 f_equal; lia.
  - rewrite mapM_Some in Hps. destruct ps as [|p ps]; [by inversion Hps|].
    apply Forall2_cons in Hps as [Hp Hps]. rewrite <- mapM_Some in Hps.
    unfold post_of in Hp.
    destruct (subscript f "id") as [field_id|] eqn:Hid; [|done].
    destruct (subscript f "value") as [value|] eqn:Hvalue; [|done].
    destruct (get f "type" PNone) as [field_type|] eqn:Htype; [|done].
    injection Hp as <-.
    cbn [update_loop]. unfold mbind at 1, J_mbind at 1, J_bind at 1, J_lift at 1.
    rewrite Hid. unfold mbind at 1, J_mbind at 1, J_bind at 1, J_lift at 1.
    rewrite Hvalue. unfold mbind at 1, J_mbind at 1, J_bind at 1, J_lift at 1.
    rewrite Htype. cbn [fmap res_fmap flip].
    unfold mbind at 1, J_mbind at 1, J_bind at 1, update_single_field at 1.
    unfold mbind at 1, J_mbind at 1, J_bind at 1.
    destruct pause.
    + unfold sleep at 1. unfold mbind at 1, J_mbind at 1, J_bind at 1.
      rewrite (IH _ _ _ Hps). unfold mret, J_mret, J_ret.
      cbn [gets posts slept length seq fmap list_fmap].
      rewrite length_app, Nat.add_1_r, <- app_assoc.
      cbn [gets posts slept length seq fmap list_fmap List.app].
      f_equal. f_equal. lia.
    + unfold mret at 1, J_mret at 1, J_ret at 1.
      unfold mbind at 1, J_mbind at 1, J_bind at 1.
      rewrite (IH _ _ _ Hps). unfold mret, J_mret, J_ret.
      cbn [gets posts slept length seq fmap list_fmap].
      rewrite length_app, Nat.add_1_r, <- app_assoc.
      cbn [gets posts slept length seq fmap list_fmap List.app].
      done.
Qed.

(** X18.  [update_task_fields] does not stop at a
    failure: for fields that are dicts with an id and a value it calls
    [update_single_field] once for every field, in order, with the
    value formatted by [format_field_value] (the type being "" when the
    field has none), whatever the earlier calls returned; it answers
    [True] exactly when every call did; and it sleeps half a second
    after each call, the last one too, when there is more than one
    field, and not at all for a single field. *)
Theorem update_writes_every_field task fields ps E tr :
  mapM (post_of task) fields = Some ps →
  update_task_fields task fields E tr =
    (Ok (forallb id (post_reply E <$> seq (length (posts tr)) (length fields))),
     Trace (gets tr) (posts tr ++ ps)
       (slept tr + (if bool_decide (1 < length fields)
                    then 500 * length fields else 0))).
Proof.
  intros Hps. destruct fields as [|f fields].
  - injection Hps as <-. simpl. J_unfold. rewrite app_nil_r.
    destruct tr; simpl; do 2 f_equal; lia.
  - cbv beta iota delta [update_task_fields].
    unfold mbind, J_mbind, J_bind. rewrite (update_loop_spec _ _ _ _ _ _ Hps).
    done.
Qed.

Lemma update_writes_every_field_witness :
  update_task_fields (PStr "S9")
    [PDict [("id", PStr "f1"); ("value", PBool false); ("type", PStr "checkbox")];
     PDict [("id", PStr "f2"); ("value", PStr "x"); ("type", PNone)]]
    (Clickup (λ _, None) (λ n, bool_decide (n = 1))) no_trace =
  (Ok (forallb id
         (post_reply (Clickup (λ _, None) (λ n, bool_decide (n = 1)))
            <$> seq (length (posts no_trace)) 2)),
   Trace (gets no_trace)
     (posts no_trace ++
      [Post (PStr "S9") (PStr "f1") (PStr "false");
       Post (PStr "S9") (PStr "f2") (PStr "x")])
     (slept no_trace + (if bool_decide (1 < 2) then 500 * 2 else 0))).
Proof.
  apply (update_writes_every_field (PStr "S9")
           [PDict [("id", PStr "f1"); ("value", PBool false);
                   ("type", PStr "checkbox")];
            PDict [("id", PStr "f2"); ("value", PStr "x"); ("type", PNone)]]).
  reflexivity.
Defined.
